(** * tikwordbe: a shallow embedding of the search and analysis back end

    The development follows the TypeScript sources module by module.
    Part I gives the embedding (data model and operations), Part II the
    properties proved about it.

    Conventions of the embedding.

    - A JavaScript string is a [list ascii]: a sequence of code units, an
      [ascii] standing for the code unit with the same number, so the model
      ranges over strings whose code units lie in U+0000..U+00FF.  On that
      range [String.prototype.trim], [toLowerCase] and the regular expression
      classes used by the sources are modelled exactly.
    - [Date.now()] is a [Z] (milliseconds); caption times, which the sources
      keep as JavaScript numbers in seconds, are exact rationals [Q].
    - A PostgreSQL table with a unique key is a [gmap] from that key to the row;
      a JavaScript [Map] whose iteration order the code relies on is an
      association list in insertion order.
    - [async] code is cut at its [await] points: each piece between two
      suspension points is one atomic transition. *)

From Stdlib Require Import ZArith QArith Ascii String List Bool Lia Lqa Sorted
  DecimalString.
From stdpp Require Import gmap strings list fin_maps.

Close Scope Q_scope.
Close Scope N_scope.
Close Scope Z_scope.
Open Scope nat_scope.
Open Scope list_scope.

(* ===================================================================== *)
(** * Part I: the embedding                                               *)
(* ===================================================================== *)

(** ** JavaScript strings *)
Module JsString.

Abbreviation jsstring := (list ascii).

(** A string literal of the sources. *)
Definition str (s : string) : jsstring := list_ascii_of_string s.

Definition code (c : ascii) : N := N_of_ascii c.

(** [\s], and the characters removed by [trim()], below U+0100:
    TAB, LF, VT, FF, CR, SPACE and NO-BREAK SPACE. *)
Definition isWhiteSpace (c : ascii) : bool :=
  let n := code c in
  ((9 <=? n) && (n <=? 13) || (n =? 32) || (n =? 160))%N.

(** [toLowerCase] on one code unit: A-Z, and the Latin-1 capitals
    U+00C0..U+00DE except the multiplication sign U+00D7. *)
Definition lowerChar (c : ascii) : ascii :=
  let n := code c in
  if ((65 <=? n) && (n <=? 90)
      || (192 <=? n) && (n <=? 222) && negb (n =? 215))%N
  then ascii_of_N (n + 32) else c.

Definition toLowerCase (s : jsstring) : jsstring := map lowerChar s.

Fixpoint trimStart (s : jsstring) : jsstring :=
  match s with
  | [] => []
  | c :: r => if isWhiteSpace c then trimStart r else s
  end.

Definition trimEnd (s : jsstring) : jsstring := rev (trimStart (rev s)).

Definition trim (s : jsstring) : jsstring := trimEnd (trimStart s).

(** [s.startsWith(p)] *)
Fixpoint startsWith (s p : jsstring) : bool :=
  match p, s with
  | [], _ => true
  | _ :: _, [] => false
  | a :: p', b :: s' => if decide (a = b) then startsWith s' p' else false
  end.

(** [s.endsWith(p)] *)
Definition endsWith (s p : jsstring) : bool := startsWith (rev s) (rev p).

(** [s.includes(p)] *)
Fixpoint includes (s p : jsstring) : bool :=
  startsWith s p ||
  match s with
  | [] => false
  | _ :: s' => includes s' p
  end.

(** [parts.join(sep)] *)
Fixpoint join (sep : jsstring) (parts : list jsstring) : jsstring :=
  match parts with
  | [] => []
  | [p] => p
  | p :: rest => p ++ sep ++ join sep rest
  end.

(** [s.split(/\s+/)]: the maximal runs of non-blank characters, with an empty
    first (last) piece when [s] starts (ends) with white space, and the empty
    string alone for the empty string.  [cur] is the piece being read,
    reversed. *)
Fixpoint splitWsFrom (cur : jsstring) (inGap : bool) (s : jsstring) : list jsstring :=
  match s with
  | [] => [rev cur]
  | c :: r =>
      if isWhiteSpace c
      then (if inGap then splitWsFrom cur true r
            else rev cur :: splitWsFrom [] true r)
      else splitWsFrom (c :: cur) false r
  end.

Definition splitWs (s : jsstring) : list jsstring := splitWsFrom [] false s.

(** A string all of whose characters are fixed by [toLowerCase]. *)
Definition lowered (s : jsstring) : Prop := Forall (fun c => lowerChar c = c) s.

(** A string value used as a condition: absent ([undefined]) and the empty
    string are falsy. *)
Definition truthy (v : option jsstring) : option jsstring :=
  match v with
  | Some (c :: r) => Some (c :: r)
  | _ => None
  end.

(** [[...new Set(xs)]]: first occurrences, in order. *)
Fixpoint uniq (seen : list jsstring) (xs : list jsstring) : list jsstring :=
  match xs with
  | [] => []
  | x :: r => if decide (x ∈ seen) then uniq seen r else x :: uniq (x :: seen) r
  end.

End JsString.

(** Outcome of a function that may [throw new Error(msg)]. *)
Inductive except (A : Type) : Type :=
| Ok (a : A)
| Throw (msg : JsString.jsstring).
Arguments Ok {A} a.
Arguments Throw {A} msg.

(** ** utils/normalize.ts *)
Module Normalize.
Import JsString.

Inductive QueryType := word | sentence.

Record NormalizedQuery := {
  normalized : jsstring;
  type : QueryType;
}.

(** The class [[.,!?;:]]. *)
Definition isQueryPunctuation (c : ascii) : bool :=
  existsb (fun p => if decide (p = c) then true else false) (str ".,!?;:").

Definition normalizeQuery (query : jsstring) : except NormalizedQuery :=
  let trimmed := trim query in
  if 200 <? length trimmed
  then Throw (str "Query exceeds maximum length of 200 characters")
  else if length trimmed =? 0
  then Throw (str "Query cannot be empty")
  else
    let normalized := toLowerCase trimmed in
    let hasSpaces := existsb isWhiteSpace normalized in
    let hasPunctuation := existsb isQueryPunctuation normalized in
    Ok {| normalized := normalized;
          type := if hasSpaces || hasPunctuation then sentence else word |}.

End Normalize.

(** ** db/wordIndex.ts *)
Module WordIndex.
Import JsString.

(** The [CaptionSegment] of the stored results: [{start, end, text}]. *)
Record CaptionSpan := {
  span_start : Q;
  span_end : Q;
  span_text : jsstring;
}.

Record VideoResponse := {
  videoId : jsstring;
  videoUrl : jsstring;
  startTime : Q;
  endTime : Q;
  caption : jsstring;
  captions : list CaptionSpan;
}.

(** The class of the [replace]: full stop, comma, exclamation and question
    marks, semicolon, colon, both quotes, the three pairs of brackets and the
    hyphen; its two long dashes lie above U+00FF. *)
Definition isIndexPunctuation (c : ascii) : bool :=
  existsb (fun p => if decide (p = c) then true else false)
          (str ".,!?;:'" ++ ["034"%char] ++ str "()[]{}-").

Definition replacePunctuation (s : jsstring) : jsstring :=
  map (fun c => if isIndexPunctuation c then " "%char else c) s.

Definition extractWords (caption : jsstring) : list jsstring :=
  let words :=
    filter (fun word => 0 < length word)
           (splitWs (replacePunctuation (toLowerCase caption))) in
  uniq [] words.

(** Table [word_index]: [word] is the primary key, [video_examples] the row. *)
Abbreviation WordIndexTable := (gmap jsstring (list VideoResponse)).

Definition sameExample (a b : VideoResponse) : bool :=
  (if decide (videoId a = videoId b) then true else false)
  && Qeq_bool (startTime a) (startTime b)
  && Qeq_bool (endTime a) (endTime b).

Definition addWord (videoResponse : VideoResponse) (db : WordIndexTable)
    (word : jsstring) : WordIndexTable :=
  match db !! word with
  | Some videoExamples =>
      if existsb (fun example => sameExample example videoResponse) videoExamples
      then db
      else <[word := videoExamples ++ [videoResponse]]> db
  | None => <[word := [videoResponse]]> db
  end.

Definition addVideoToWordIndex (words : list jsstring)
    (videoResponse : VideoResponse) (db : WordIndexTable) : WordIndexTable :=
  foldl (addWord videoResponse) db words.

(** [None] is the [null] of the source (no row for the word). *)
Definition findByWord (db : WordIndexTable) (word : jsstring)
    : option (list VideoResponse) :=
  db !! toLowerCase word.

End WordIndex.

(** ** services/sentenceDetector.ts *)
Module SentenceDetector.
Import JsString.

Record CaptionSegment := {
  text : jsstring;
  start : Q;
  duration : Q;
}.

Record SentenceBoundary := {
  startTime : Q;
  endTime : Q;
  caption : jsstring;
}.

(** [/[.!?]$/.test(t.trim())] *)
Definition endsSentence (t : jsstring) : bool :=
  match rev (trim t) with
  | c :: _ => existsb (fun p => if decide (p = c) then true else false) (str ".!?")
  | [] => false
  end.

(** The backward loop [for (i = matchIndex - 1; i >= 0; i--)]; [n] is [i + 1].
    Reading a segment past the end of the array is the source's [TypeError],
    here [None]. *)
Fixpoint scanBackward (segments : list CaptionSegment) (n : nat)
    (startIndex : nat) : option nat :=
  match n with
  | 0 => Some startIndex
  | S i =>
      segment ← segments !! i;
      if endsSentence (text segment) then Some (i + 1)
      else scanBackward segments i (if i =? 0 then 0 else startIndex)
  end.

(** The forward loop [for (i = matchIndex; i < segments.length; i++)], run
    over the segments from [matchIndex] on. *)
Fixpoint scanForward (rest : list CaptionSegment) (i : nat) (endIndex : nat) : nat :=
  match rest with
  | [] => endIndex
  | segment :: rest' =>
      if endsSentence (text segment) then i else scanForward rest' (S i) i
  end.

Definition sentenceStart (segments : list CaptionSegment) (matchIndex : nat)
    : option nat :=
  scanBackward segments matchIndex matchIndex.

Definition sentenceEnd (segments : list CaptionSegment) (matchIndex : nat) : nat :=
  scanForward (drop matchIndex segments) matchIndex matchIndex.

(** [matchIndex] is a natural number here; the source is called with the
    result of the matcher once [-1] has been excluded. *)
Definition detectSentenceBoundary (segments : list CaptionSegment)
    (matchIndex : nat) : option SentenceBoundary :=
  startIndex ← sentenceStart segments matchIndex;
  let endIndex := sentenceEnd segments matchIndex in
  captionParts ← mapM (fun i => text <$> segments !! i)
                      (seq startIndex (endIndex + 1 - startIndex));
  startSegment ← segments !! startIndex;
  endSegment ← segments !! endIndex;
  Some {| startTime := start startSegment;
          endTime := (start endSegment + duration endSegment + 2)%Q;
          caption := trim (join (str " ") captionParts) |}.

(** Captions in time order: along the list neither the start times nor the
    end times ([start + duration]) go down. *)
Definition timeOrdered (segments : list CaptionSegment) : Prop :=
  forall i j a b, i <= j ->
    segments !! i = Some a -> segments !! j = Some b ->
    (start a <= start b)%Q /\ (start a + duration a <= start b + duration b)%Q.

End SentenceDetector.

(** ** services/jobProcessor.ts *)
Module JobProcessor.
Import JsString SentenceDetector.

Definition commonEnglishWords : list jsstring :=
  map str ["the"; "a"; "an"; "is"; "are"; "was"; "were"; "to"; "of"; "and";
           "in"; "that"; "have"; "it"; "for"; "on"; "with"; "as"; "this";
           "be"; "at"]%string.

Definition allTextOf (captions : list CaptionSegment) : jsstring :=
  toLowerCase (join (str " ") (map text captions)).

(** The test of the [forEach] body for one word of the list. *)
Definition wordPresent (allText word : jsstring) : bool :=
  includes allText (str " " ++ word ++ str " ")
  || startsWith allText (word ++ str " ")
  || endsWith allText (str " " ++ word).

Definition englishWordCount (allText : jsstring) : nat :=
  length (filter (fun word => wordPresent allText word = true) commonEnglishWords).

(** The count as the specification words it, for comparison with
    [englishWordCount]: the occurrences of words of the list among the tokens
    of the text (its pieces between white space). *)
Definition functionWordOccurrences (allText : jsstring) : nat :=
  length (filter (fun token => token ∈ commonEnglishWords) (splitWs allText)).

(** [allText.match(/[^\x00-\x7F]/g)]: the code units above U+007F. *)
Definition nonLatinChars (allText : jsstring) : jsstring :=
  filter (fun c => (127 < code c)%N) allText.

(** [nonLatinChars ? nonLatinChars.length / allText.length : 0].  The quotient
    is exact here; a double quotient of two string lengths compares with 0.2
    as the exact one does. *)
Definition nonLatinRatio (allText : jsstring) : Q :=
  match nonLatinChars allText with
  | [] => 0%Q
  | _ :: _ =>
      (inject_Z (Z.of_nat (length (nonLatinChars allText)))
       / inject_Z (Z.of_nat (length allText)))%Q
  end.

Definition Qltb (x y : Q) : bool := negb (Qle_bool y x).

Definition isEnglishTranscription (captions : list CaptionSegment) : bool :=
  if length captions =? 0 then false
  else
    let allText := allTextOf captions in
    (5 <=? englishWordCount allText) && Qltb (nonLatinRatio allText) (2 # 10).

(** The stored segment, as [processJob] builds it. *)
Record JobResult := {
  videoId : jsstring;
  videoUrl : jsstring;
  startTime : Q;
  endTime : Q;
  caption : jsstring;
  captions : list WordIndex.CaptionSpan;
}.

(** What one iteration of the candidate loop of [processJob] does with a
    video once its captions are loaded (steps 3e to 3g). *)
Inductive CandidateOutcome :=
| SkipNotEnglish        (* cleanupTempFiles; continue *)
| SkipNoMatch           (* cleanupTempFiles; continue *)
| SkipError             (* the catch of the iteration: cleanup; continue *)
| Found (r : JobResult) (* updateJobResult, insertVideoExample, indexing; return *).

Definition skipped (o : CandidateOutcome) : bool :=
  match o with Found _ => false | _ => true end.

Definition watchUrl (videoId : jsstring) : jsstring :=
  str "https://www.youtube.com/watch?v=" ++ videoId.

Definition filteredCaptions (captions : list CaptionSegment)
    (boundary : SentenceBoundary) : list WordIndex.CaptionSpan :=
  map (fun c => {| WordIndex.span_start := start c;
                   WordIndex.span_end := (start c + duration c)%Q;
                   WordIndex.span_text := text c |})
      (filter (fun c =>
                 Qltb (start c) (SentenceDetector.endTime boundary)
                 && Qltb (SentenceDetector.startTime boundary)
                         (start c + duration c)%Q = true)
              captions).

Section Candidate.
(** [findMatchingSegment] of sentenceDetector.ts, [None] for its [-1]; no
    property below depends on how it matches. *)
Variable findMatchingSegment :
  list CaptionSegment -> jsstring -> Normalize.QueryType -> option nat.

Definition processCaptions (videoId : jsstring) (captions : list CaptionSegment)
    (normalizedQuery : jsstring) (queryType : Normalize.QueryType)
    : CandidateOutcome :=
  let isEnglish := isEnglishTranscription captions in
  if negb isEnglish then SkipNotEnglish
  else
    match findMatchingSegment captions normalizedQuery queryType with
    | None => SkipNoMatch
    | Some matchIndex =>
        match detectSentenceBoundary captions matchIndex with
        | None => SkipError
        | Some boundary =>
            Found {| videoId := videoId;
                     videoUrl := watchUrl videoId;
                     startTime := SentenceDetector.startTime boundary;
                     endTime := SentenceDetector.endTime boundary;
                     caption := SentenceDetector.caption boundary;
                     captions := filteredCaptions captions boundary |}
        end
    end.

End Candidate.
End JobProcessor.

(** ** db/aiPaywall.ts *)
Module AiPaywall.
Import JsString.
Local Open Scope Z_scope.

(** The values read when [AI_FREE_REQUESTS_LIMIT] and
    [AI_FREE_REQUESTS_WINDOW_MINUTES] are not set in the environment. *)
Definition FREE_REQUESTS_LIMIT : Z := 3.
Definition FREE_REQUESTS_WINDOW_MINUTES : Z := 240.

Definition windowDurationMs : Z := FREE_REQUESTS_WINDOW_MINUTES * 60 * 1000.

(** A row of [ai_paywall_usage]; [user_id] is unique and keys the table. *)
Record UsageRecord := {
  requestCount : Z;
  windowStart : Z;
}.

Abbreviation UsageTable := (gmap jsstring UsageRecord).

Record PaywallCheckResult := {
  allowed : bool;
  requestsUsed : Z;
  requestsLimit : option Z;        (* [None] is [Infinity] *)
  retryAfterSeconds : option Z;
  hasSubscription : bool;
}.

(** [Math.ceil(x / 1000)] *)
Definition ceilSeconds (x : Z) : Z := - ((- x) / 1000).

Definition checkAiPaywall (db : UsageTable) (currentTime : Z)
    (userId : jsstring) (hasSubscription : bool) : PaywallCheckResult :=
  if hasSubscription then
    {| allowed := true; requestsUsed := 0; requestsLimit := None;
       retryAfterSeconds := None; hasSubscription := true |}
  else
    match db !! userId with
    | None =>
        {| allowed := true; requestsUsed := 0;
           requestsLimit := Some FREE_REQUESTS_LIMIT;
           retryAfterSeconds := None; hasSubscription := false |}
    | Some record =>
        let windowStartTime := windowStart record in
        let windowEndTime := windowStartTime + windowDurationMs in
        if windowEndTime <=? currentTime then
          {| allowed := true; requestsUsed := 0;
             requestsLimit := Some FREE_REQUESTS_LIMIT;
             retryAfterSeconds := None; hasSubscription := false |}
        else
          let requestsUsed := requestCount record in
          if FREE_REQUESTS_LIMIT <=? requestsUsed then
            {| allowed := false; requestsUsed := requestsUsed;
               requestsLimit := Some FREE_REQUESTS_LIMIT;
               retryAfterSeconds := Some (ceilSeconds (windowEndTime - currentTime));
               hasSubscription := false |}
          else
            {| allowed := true; requestsUsed := requestsUsed;
               requestsLimit := Some FREE_REQUESTS_LIMIT;
               retryAfterSeconds := None; hasSubscription := false |}
    end.

(** [CURRENT_TIMESTAMP] of the database and [Date.now()] are one clock. *)
Definition incrementAiUsage (db : UsageTable) (currentTime : Z)
    (userId : jsstring) : UsageTable :=
  match db !! userId with
  | None => <[userId := {| requestCount := 1; windowStart := currentTime |}]> db
  | Some record =>
      let windowEndTime := windowStart record + windowDurationMs in
      if windowEndTime <=? currentTime then
        <[userId := {| requestCount := 1; windowStart := currentTime |}]> db
      else
        <[userId := {| requestCount := requestCount record + 1;
                       windowStart := windowStart record |}]> db
  end.

(** The requests counted for [userId] in the window current at [currentTime]:
    none when there is no row or the row's window has ended. *)
Definition countedRequests (db : UsageTable) (currentTime : Z)
    (userId : jsstring) : Z :=
  match db !! userId with
  | None => 0
  | Some record =>
      if windowStart record + windowDurationMs <=? currentTime then 0
      else requestCount record
  end.

End AiPaywall.

(** ** services/revenueCat.ts *)
Module RevenueCat.
Import JsString.
Local Open Scope Z_scope.

Record SubscriptionStatus := {
  isActive : bool;
  entitlementId : option jsstring;
  expiresDate : option Z;
  productId : option jsstring;
  willRenew : bool;
}.

Definition inactiveStatus : SubscriptionStatus :=
  {| isActive := false; entitlementId := None; expiresDate := None;
     productId := None; willRenew := false |}.

Record CacheEntry := {
  status : SubscriptionStatus;
  cachedAt : Z;
}.

Abbreviation SubscriptionCache := (gmap jsstring CacheEntry).

Definition CACHE_TTL_MS : Z := 5 * 60 * 1000.

(** What the [fetch] of the provider does: it rejects (network error), or it
    answers with a status that is not ok, or it answers ok with a body that
    [parseSubscriptionStatus] turns into a status ([ParseFailure] when reading
    the body throws). *)
Inductive ProviderReply :=
| NetworkError
| HttpNotOk (httpStatus : Z)
| ParseFailure
| HttpOk (parsed : SubscriptionStatus).

(** [apiKey] tells whether [REVENUECAT_API_KEY] is set; [now] is the clock at
    the cache check and [nowAfter] the clock when the reply has arrived. *)
Definition checkSubscription (apiKey : bool) (cache : SubscriptionCache)
    (now nowAfter : Z) (reply : ProviderReply)
    (appUserId : jsstring) (forceRefresh : bool)
    : SubscriptionStatus * SubscriptionCache :=
  if negb apiKey then (inactiveStatus, cache)
  else
    let fetchWith (cache : SubscriptionCache) :=
      match reply with
      | HttpNotOk _ => (inactiveStatus, cache)
      | NetworkError | ParseFailure => (inactiveStatus, cache)
      | HttpOk parsed =>
          if isActive parsed
          then (parsed, <[appUserId := {| status := parsed; cachedAt := nowAfter |}]> cache)
          else (parsed, delete appUserId cache)
      end in
    if negb forceRefresh then
      match cache !! appUserId with
      | Some cached =>
          if now - cachedAt cached <? CACHE_TTL_MS
          then (status cached, cache)
          else fetchWith cache
      | None => fetchWith cache
      end
    else fetchWith (delete appUserId cache).

End RevenueCat.

(** ** middleware/paywall.ts *)
Module Paywall.
Import JsString.
Local Open Scope Z_scope.

(** The parts of the request the middleware reads.  A field that is absent,
    or present and empty, is falsy. *)
Record PaywallRequest := {
  bodyUserId : option jsstring;          (* req.body.userId *)
  headerUserId : option jsstring;        (* req.headers['x-user-id'] *)
  headerRefresh : option jsstring;       (* req.headers['x-refresh-subscription'] *)
}.

(** [req.body.userId || req.headers['x-user-id']] *)
Definition requestUserId (req : PaywallRequest) : option jsstring :=
  match truthy (bodyUserId req) with
  | Some u => Some u
  | None => truthy (headerUserId req)
  end.

(** The state the middleware works on. *)
Record PaywallWorld := {
  apiKey : bool;                                   (* REVENUECAT_API_KEY set *)
  subscriptionCache : RevenueCat.SubscriptionCache;
  usage : AiPaywall.UsageTable;
}.

(** What the outside does during one run of the middleware: the clock at each
    reading, the reply of the provider, and whether the database answers. *)
Record Environment := {
  nowCacheCheck : Z;
  nowReply : Z;
  nowPaywallCheck : Z;
  nowIncrement : Z;
  providerReply : RevenueCat.ProviderReply;
  databaseUp : bool;
}.

Record PaywallHeaders := {
  xRequestsUsed : Z;                 (* X-Paywall-Requests-Used *)
  xRequestsLimit : option Z;         (* X-Paywall-Requests-Limit, [None]: unlimited *)
  xHasSubscription : bool;           (* X-Paywall-Has-Subscription *)
  retryAfterHeader : option Z;       (* Retry-After *)
}.

Inductive MiddlewareResult :=
| Respond401 (code : jsstring)
| Respond403 (headers : PaywallHeaders) (code : jsstring)
             (requestsUsed : Z) (requestsLimit : option Z) (retryAfterSeconds : Z)
| Next (headers : option PaywallHeaders).

Definition passed (r : MiddlewareResult) : bool :=
  match r with Next _ => true | _ => false end.

Definition aiPaywallMiddleware (w : PaywallWorld) (env : Environment)
    (req : PaywallRequest) : MiddlewareResult * PaywallWorld :=
  match requestUserId req with
  | None => (Respond401 (str "USER_ID_REQUIRED"), w)
  | Some userId =>
      let forceRefresh :=
        if decide (headerRefresh req = Some (str "true")) then true else false in
      let '(subscriptionStatus, cache') :=
        RevenueCat.checkSubscription (apiKey w) (subscriptionCache w)
          (nowCacheCheck env) (nowReply env) (providerReply env)
          userId forceRefresh in
      let w1 := {| apiKey := apiKey w; subscriptionCache := cache';
                   usage := usage w |} in
      let subscribed := RevenueCat.isActive subscriptionStatus in
      if negb subscribed && negb (databaseUp env)
      then (* the query of checkAiPaywall throws: the catch calls next() *)
        (Next None, w1)
      else
        let paywallResult :=
          AiPaywall.checkAiPaywall (usage w1) (nowPaywallCheck env)
            userId subscribed in
        let headers :=
          {| xRequestsUsed := AiPaywall.requestsUsed paywallResult;
             xRequestsLimit := AiPaywall.requestsLimit paywallResult;
             xHasSubscription := subscribed;
             retryAfterHeader := None |} in
        if negb (AiPaywall.allowed paywallResult) then
          let retryAfter :=
            match AiPaywall.retryAfterSeconds paywallResult with
            | Some 0 | None => 14400
            | Some r => r
            end in
          (Respond403
             {| xRequestsUsed := xRequestsUsed headers;
                xRequestsLimit := xRequestsLimit headers;
                xHasSubscription := xHasSubscription headers;
                retryAfterHeader := Some retryAfter |}
             (str "PAYWALL_LIMIT_EXCEEDED")
             (AiPaywall.requestsUsed paywallResult)
             (AiPaywall.requestsLimit paywallResult)
             retryAfter,
           w1)
        else if negb subscribed then
          (Next (Some {| xRequestsUsed := AiPaywall.requestsUsed paywallResult + 1;
                         xRequestsLimit := xRequestsLimit headers;
                         xHasSubscription := xHasSubscription headers;
                         retryAfterHeader := None |}),
           {| apiKey := apiKey w1; subscriptionCache := subscriptionCache w1;
              usage := AiPaywall.incrementAiUsage (usage w1) (nowIncrement env) userId |})
        else (Next (Some headers), w1)
  end.

End Paywall.

(** ** routes/analyzeStream.ts: the route and the validation of its handler *)
Module AnalyzeStream.
Import JsString.

(** A field of the JSON body: absent or null; a string; or a value of another
    type, with its truthiness and the number its property [length] is
    compared as ([None] when the property is undefined or not a number). *)
Inductive Field :=
| Missing
| Str (s : jsstring)
| Other (isTruthy : bool) (lengthValue : option Q).

Definition falsy (f : Field) : bool :=
  match f with
  | Missing => true
  | Str s => length s =? 0
  | Other b _ => negb b
  end.

Definition isString (f : Field) : bool :=
  match f with Str _ => true | _ => false end.

Definition strOf (f : Field) : jsstring :=
  match f with Str s => s | _ => [] end.

(** [f.length > 500] *)
Definition longerThan500 (f : Field) : bool :=
  match f with
  | Missing => false
  | Str s => 500 <? length s
  | Other _ (Some n) => negb (Qle_bool n 500)
  | Other _ None => false
  end.

(** [f?.trim()] throws a TypeError on a value that is neither absent, null
    nor a string. *)
Definition trimThrows (f : Field) : bool :=
  match f with Other _ _ => true | _ => false end.

Record AnalyzeBody := {
  sentence : Field;
  targetWord : Field;
  targetLanguage : Field;
  nativeLanguage : Field;
  contextBefore : Field;
  contextAfter : Field;
}.

Definition VALID_LANGUAGE_CODES : list jsstring :=
  map str ["en"; "es"; "fr"; "de"; "it"; "pt"; "ru"; "ja"; "ko"; "zh";
           "zh-cn"; "zh-tw"; "zh-hk"; "ar"; "hi"; "nl"; "pl"; "sv"; "tr";
           "vi"; "th"; "id"; "cs"; "uk"; "ro"; "el"; "he"; "da"; "fi"; "no";
           "sk"; "bg"; "hr"]%string.

Definition validCode (f : Field) : bool :=
  if decide (toLowerCase (strOf f) ∈ VALID_LANGUAGE_CODES) then true else false.

(** The checks of the handler, in the order of the source; [Some msg] is the
    body of its 400 response. *)
Definition validate (b : AnalyzeBody) : option jsstring :=
  if falsy (sentence b) then Some (str "sentence is required")
  else if falsy (targetWord b) then Some (str "targetWord is required")
  else if falsy (targetLanguage b) then Some (str "targetLanguage is required")
  else if falsy (nativeLanguage b) then Some (str "nativeLanguage is required")
  else if negb (isString (sentence b)) then Some (str "sentence must be a string")
  else if negb (isString (targetWord b)) then Some (str "targetWord must be a string")
  else if negb (isString (targetLanguage b))
       then Some (str "targetLanguage must be a string")
  else if negb (isString (nativeLanguage b))
       then Some (str "nativeLanguage must be a string")
  else if 1000 <? length (trim (strOf (sentence b)))
       then Some (str "sentence exceeds maximum length of 1000 characters")
  else if 100 <? length (trim (strOf (targetWord b)))
       then Some (str "targetWord exceeds maximum length of 100 characters")
  else if negb (falsy (contextBefore b)) && longerThan500 (contextBefore b)
       then Some (str "contextBefore exceeds maximum length of 500 characters")
  else if negb (falsy (contextAfter b)) && longerThan500 (contextAfter b)
       then Some (str "contextAfter exceeds maximum length of 500 characters")
  else if length (trim (strOf (sentence b))) =? 0
       then Some (str "sentence cannot be empty")
  else if length (trim (strOf (targetWord b))) =? 0
       then Some (str "targetWord cannot be empty")
  else if negb (validCode (targetLanguage b))
       then Some (str "Invalid targetLanguage. Must be one of: "
                  ++ join (str ", ") VALID_LANGUAGE_CODES)
  else if negb (validCode (nativeLanguage b))
       then Some (str "Invalid nativeLanguage. Must be one of: "
                  ++ join (str ", ") VALID_LANGUAGE_CODES)
  else None.

Record AnalyzeRequest := {
  body : AnalyzeBody;
  identity : Paywall.PaywallRequest;   (* userId of the body, and the headers *)
}.

(** How the route answers before any streaming starts. *)
Inductive RouteOutcome :=
| ByMiddleware (r : Paywall.MiddlewareResult)  (* 401 or 403; the handler never ran *)
| BadRequest (error : jsstring)                (* 400 of the handler *)
| HandlerError (message : jsstring)            (* the catch of the handler: one
                                                  error frame, then the end *)
| StartStreaming.                              (* the handler goes on to the stream *)

(** [router.post('/analyze/stream', aiPaywallMiddleware(), handler)]: the
    handler runs only if the middleware called [next()].  After the
    validation the handler computes the cache key from the trimmed fields;
    a context that is not a string makes [contextBefore?.trim()] throw, and
    the catch of the handler answers with the error frame of an error whose
    message names neither the AI service nor a key. *)
Definition postAnalyzeStream (w : Paywall.PaywallWorld) (env : Paywall.Environment)
    (req : AnalyzeRequest) : RouteOutcome * Paywall.PaywallWorld :=
  let '(r, w') := Paywall.aiPaywallMiddleware w env (identity req) in
  if Paywall.passed r then
    match validate (body req) with
    | Some error => (BadRequest error, w')
    | None =>
        if trimThrows (contextBefore (body req))
           || trimThrows (contextAfter (body req))
        then (HandlerError (str "An error occurred while analyzing the sentence"), w')
        else (StartStreaming, w')
    end
  else (ByMiddleware r, w').

End AnalyzeStream.

(** ** db/videoExamples.ts: the Result Store *)
Module VideoExamples.
Import JsString.

Record VideoExample := {
  id : jsstring;
  hash : jsstring;
  query : jsstring;
  videoId : jsstring;
  startTime : Q;
  endTime : Q;
  caption : jsstring;
  captions : list WordIndex.CaptionSpan;
  createdAt : Z;
}.

(** Table [video_examples]; [hash] is unique and keys the table. *)
Abbreviation Table := (gmap jsstring VideoExample).

Definition findByHash (db : Table) (h : jsstring) : option VideoExample :=
  db !! h.

(** [INSERT]: the unique constraint on [hash] makes a second insert throw. *)
Definition insertVideoExample (db : Table) (row : VideoExample) : except Table :=
  match db !! hash row with
  | Some _ => Throw (str "duplicate key value violates unique constraint")
  | None => Ok (<[hash row := row]> db)
  end.

End VideoExamples.

(** ** db/jobQueue.ts: the Job Store

    The sources hold this file as the second part of src/src/db/aiPaywall.ts
    (from its line 707).  Table [job_queue]: [id UUID PRIMARY KEY],
    [hash TEXT UNIQUE NOT NULL], [status TEXT NOT NULL]; the list of jobs
    below is the table in the order of creation. *)
Module JobQueue.
Import JsString.

Inductive JobStatus :=
| queued | searching | downloading | transcribing | completed | failed.

Record Job := {
  id : jsstring;
  hash : jsstring;
  query : jsstring;
  normalizedQuery : jsstring;
  queryType : Normalize.QueryType;
  status : JobStatus;
  currentVideoId : option jsstring;
  result : option JobProcessor.JobResult;
  error : option jsstring;
}.

(** [SELECT ... FROM job_queue WHERE hash = $1], then [rows[0]] or [null]. *)
Definition findJobByHash (jobs : list Job) (h : jsstring) : option Job :=
  find (fun j => if decide (hash j = h) then true else false) jobs.

Section Uuid.
(** The input function of the database type [uuid].  In [WHERE id = $1] the
    column [id] is a UUID, so the database reads the text bound to [$1] as a
    UUID before it compares: [uuid_in] gives the UUID the text denotes, in
    the spelling in which the column is returned, or the error the database
    raises for a text that is no UUID (invalid input syntax for type uuid),
    which makes [pool.query] throw. *)
Variable uuid_in : jsstring -> except jsstring.

(** [SELECT ... FROM job_queue WHERE id = $1], then [rows[0]] or [null]. *)
Definition findJobById (jobs : list Job) (i : jsstring) : except (option Job) :=
  match uuid_in i with
  | Throw msg => Throw msg
  | Ok u => Ok (find (fun j => if decide (id j = u) then true else false) jobs)
  end.

End Uuid.

(** [INSERT INTO job_queue ... VALUES ($1, ..., 'queued') RETURNING ...];
    [newId] is the [uuidv4()] drawn for the row.  The unique constraint on
    [hash] makes the statement throw for a fingerprint that has a row. *)
Definition createJob (jobs : list Job) (newId h q n : jsstring)
    (t : Normalize.QueryType) : except (Job * list Job)%type :=
  match findJobByHash jobs h with
  | Some _ => Throw (str "duplicate key value violates unique constraint")
  | None =>
      let job := {| id := newId; hash := h; query := q; normalizedQuery := n;
                    queryType := t; status := queued; currentVideoId := None;
                    result := None; error := None |} in
      Ok (job, jobs ++ [job])
  end.

End JobQueue.

(** ** routes/youtubeSearch.ts *)
Module YoutubeSearch.
Import JsString.

Record SearchRequest := {
  query : option jsstring;     (* [None]: the field is absent *)
  jobId : option jsstring;
}.

Inductive SearchResponse :=
| CompletedResponse (jobId query videoId videoUrl : jsstring)
                    (startTime endTime : Q) (caption : jsstring)
                    (captions : list WordIndex.CaptionSpan)
| InProgressResponse (status : JobQueue.JobStatus) (jobId query message : jsstring)
                     (currentVideoId : option jsstring)
| FailedResponse (jobId query error : jsstring)
| ErrorResponse (httpStatus : Z) (error : jsstring).

Record Stores := {
  videoExamples : VideoExamples.Table;
  jobs : list JobQueue.Job;
}.

Definition getInProgressResponse (jobId query : jsstring)
    (status : JobQueue.JobStatus) (currentVideoId : option jsstring)
    : SearchResponse :=
  match status with
  | JobQueue.queued =>
      InProgressResponse JobQueue.queued jobId query
        (str "Your word is queued and waiting to be processed") None
  | JobQueue.searching =>
      InProgressResponse JobQueue.searching jobId query
        (str "Searching for videos that contain your word") None
  | JobQueue.downloading =>
      InProgressResponse JobQueue.downloading jobId query
        (str "Found a video! Downloading audio for transcription") currentVideoId
  | JobQueue.transcribing =>
      InProgressResponse JobQueue.transcribing jobId query
        (str "Transcribing video audio to find your word") currentVideoId
  | _ =>
      InProgressResponse JobQueue.queued jobId query
        (str "Processing your request") None
  end.

(** The answer for a job record, shared by the polling branch and step 4. *)
Definition jobResponse (job : JobQueue.Job) : SearchResponse :=
  match JobQueue.status job, JobQueue.result job with
  | JobQueue.completed, Some r =>
      CompletedResponse (JobQueue.id job) (JobQueue.normalizedQuery job)
        (JobProcessor.videoId r) (JobProcessor.videoUrl r)
        (JobProcessor.startTime r) (JobProcessor.endTime r)
        (JobProcessor.caption r) (JobProcessor.captions r)
  | JobQueue.failed, _ =>
      FailedResponse (JobQueue.id job) (JobQueue.normalizedQuery job)
        (default (str "Job processing failed") (truthy (JobQueue.error job)))
  | st, _ =>
      getInProgressResponse (JobQueue.id job) (JobQueue.normalizedQuery job)
        st (JobQueue.currentVideoId job)
  end.

(** The [catch] of the route: status 500 with
    [error.message || 'Internal server error']. *)
Definition internalError (message : jsstring) : SearchResponse :=
  ErrorResponse 500 (default (str "Internal server error") (truthy (Some message))).

Section Route.
(** [generateHash] of utils/hash.ts, which is not among the sources: the
    fingerprint of a canonical string. *)
Variable generateHash : jsstring -> jsstring.
(** The input function of the database type [uuid] (see [JobQueue]). *)
Variable uuid_in : jsstring -> except jsstring.

(** [newId] is the identifier [createJob] draws for a new record. *)
Definition postSearch (st : Stores) (newId : jsstring) (req : SearchRequest)
    : SearchResponse * Stores :=
  match truthy (query req) with
  | None => (ErrorResponse 400 (str "Query is required"), st)
  | Some query =>
      match truthy (jobId req) with
      | Some jobId =>
          match JobQueue.findJobById uuid_in (jobs st) jobId with
          | Throw msg => (internalError msg, st)
          | Ok None => (ErrorResponse 404 (str "Job not found"), st)
          | Ok (Some job) => (jobResponse job, st)
          end
      | None =>
          match Normalize.normalizeQuery query with
          | Throw msg => (ErrorResponse 400 msg, st)
          | Ok normalizedData =>
              let normalized := Normalize.normalized normalizedData in
              let type := Normalize.type normalizedData in
              let hash := generateHash normalized in
              match VideoExamples.findByHash (videoExamples st) hash with
              | Some cachedResult =>
                  (CompletedResponse hash normalized
                     (VideoExamples.videoId cachedResult)
                     (JobProcessor.watchUrl (VideoExamples.videoId cachedResult))
                     (VideoExamples.startTime cachedResult)
                     (VideoExamples.endTime cachedResult)
                     (VideoExamples.caption cachedResult)
                     (VideoExamples.captions cachedResult),
                   st)
              | None =>
                  match JobQueue.findJobByHash (jobs st) hash with
                  | Some existingJob => (jobResponse existingJob, st)
                  | None =>
                      match JobQueue.createJob (jobs st) newId hash query
                              normalized type with
                      | Throw msg => (internalError msg, st)
                      | Ok (newJob, jobs') =>
                          (InProgressResponse JobQueue.queued (JobQueue.id newJob)
                             normalized
                             (str "Your word has been placed in the queue to find a video")
                             None,
                           {| videoExamples := videoExamples st; jobs := jobs' |})
                      end
                  end
              end
          end
      end
  end.

(** What the service does to the stores between two requests: a request to
    the route, an insert into the Result Store by the pipeline, any change of
    the Job Store by the workers.  The service has no statement that updates
    or deletes a row of the Result Store; the maintenance script
    scripts/clearCache.ts, which empties the tables, is run by hand outside
    the service and is not a step. *)
Inductive StoreStep : Stores -> Stores -> Prop :=
| StepRequest (st : Stores) (newId : jsstring) (req : SearchRequest) :
    StoreStep st (postSearch st newId req).2
| StepInsert (st : Stores) (row : VideoExamples.VideoExample)
             (db' : VideoExamples.Table) :
    VideoExamples.insertVideoExample (videoExamples st) row = Ok db' ->
    StoreStep st {| videoExamples := db'; jobs := jobs st |}
| StepJobs (st : Stores) (jobs' : list JobQueue.Job) :
    StoreStep st {| videoExamples := videoExamples st; jobs := jobs' |}.

End Route.

(** For the examples: a database in which the text below is the only one
    read as a UUID (every other text is rejected, as a text that is no UUID
    is). *)
Definition oneUuid (i : jsstring) : except jsstring :=
  if decide (i = str "3f2c8a6e-1b4d-4c9a-8e57-0d2b6a91c4f3") then Ok i
  else Throw (str "invalid input syntax for type uuid").

End YoutubeSearch.

(** ** services/streamManager.ts *)
Module StreamManager.
Import JsString.

Record ChunkMetadata := {
  text : jsstring;
  timestamp : Z;
}.

Record StreamParams := {
  sentence : jsstring;
  targetWord : jsstring;
  targetLanguage : jsstring;
  nativeLanguage : jsstring;
  contextBefore : option jsstring;
  contextAfter : option jsstring;
}.

Inductive StreamStatus := active | completed | error.

(** A subscriber is stored under its [id]; its response object [res] is the
    connection stored under the same [id] (see [Connection]). *)
Record StreamSubscriber := {
  joinedAt : Z;
  isReplaying : bool;
}.

(** The SSE frames [data: {...}] a response is written. *)
Inductive Frame :=
| ChunkFrame (chunk : jsstring)
| DoneFrame (fullResponse : jsstring)
| ErrorFrame (message : jsstring).

(** The response object of one subscriber: what has been written to it,
    whether [end()] was called on it, and whether [write] throws on it. *)
Record Connection := {
  written : list Frame;
  writableEnded : bool;
  broken : bool;
}.

Abbreviation Connections := (gmap jsstring Connection).

(** [errorText] is the field [error] of the source. *)
Record ActiveStream := {
  cacheKey : jsstring;
  params : StreamParams;
  subscribers : gmap jsstring StreamSubscriber;
  chunks : list ChunkMetadata;
  fullResponse : jsstring;
  status : StreamStatus;
  errorText : option jsstring;
  createdAt : Z;
  apiCallPromise : bool;          (* whether the field holds a promise *)
}.

Definition withSubscribers (s : ActiveStream)
    (subs : gmap jsstring StreamSubscriber) : ActiveStream :=
  {| cacheKey := cacheKey s; params := params s; subscribers := subs;
     chunks := chunks s; fullResponse := fullResponse s; status := status s;
     errorText := errorText s; createdAt := createdAt s;
     apiCallPromise := apiCallPromise s |}.

Definition withChunk (s : ActiveStream) (c : ChunkMetadata) : ActiveStream :=
  {| cacheKey := cacheKey s; params := params s; subscribers := subscribers s;
     chunks := chunks s ++ [c]; fullResponse := fullResponse s ++ text c;
     status := status s; errorText := errorText s; createdAt := createdAt s;
     apiCallPromise := apiCallPromise s |}.

Definition withStatus (s : ActiveStream) (st : StreamStatus)
    (e : option jsstring) : ActiveStream :=
  {| cacheKey := cacheKey s; params := params s; subscribers := subscribers s;
     chunks := chunks s; fullResponse := fullResponse s; status := st;
     errorText := e; createdAt := createdAt s;
     apiCallPromise := apiCallPromise s |}.

(** [stream.apiCallPromise = (async () => { ... })()] *)
Definition withDriver (s : ActiveStream) : ActiveStream :=
  {| cacheKey := cacheKey s; params := params s; subscribers := subscribers s;
     chunks := chunks s; fullResponse := fullResponse s; status := status s;
     errorText := errorText s; createdAt := createdAt s;
     apiCallPromise := true |}.

(** [res.write(frame)] when it does not throw; nothing is sent on a response
    that was ended. *)
Definition writeFrame (f : Frame) (c : Connection) : Connection :=
  if writableEnded c then c
  else {| written := written c ++ [f]; writableEnded := writableEnded c;
          broken := broken c |}.

Definition endConnection (c : Connection) : Connection :=
  {| written := written c; writableEnded := true; broken := broken c |}.

Definition freshConnection : Connection :=
  {| written := []; writableEnded := false; broken := false |}.

(** Whether [res.write] returns (rather than throws) for subscriber [id]. *)
Definition canWrite (conns : Connections) (id : jsstring) : bool :=
  match conns !! id with
  | Some c => negb (broken c)
  | None => false
  end.

(** A subscriber that is registered and not in replay mode. *)
Definition isLive (s : ActiveStream) (id : jsstring) : bool :=
  match subscribers s !! id with
  | Some sub => negb (isReplaying sub)
  | None => false
  end.

(** The loop shared by [publishChunk], [completeStream] and [errorStream]:
    every subscriber that is not replaying is written [f] (and ended when
    [andEnd]); the subscribers whose write throws are removed afterwards. *)
Definition broadcast (s : ActiveStream) (conns : Connections) (f : Frame)
    (andEnd : bool) : ActiveStream * Connections :=
  let conns' :=
    map_imap (fun id c =>
                Some (if isLive s id && negb (broken c)
                      then (if andEnd then endConnection (writeFrame f c)
                            else writeFrame f c)
                      else c)) conns in
  let subs' :=
    filter (fun p => isReplaying p.2 || canWrite conns p.1 = true)
           (subscribers s) in
  (withSubscribers s subs', conns').

Definition publishChunk (now : Z) (chunk : jsstring)
    (s : ActiveStream) (conns : Connections) : ActiveStream * Connections :=
  let chunkMetadata := {| text := chunk; timestamp := (now - createdAt s)%Z |} in
  broadcast (withChunk s chunkMetadata) conns (ChunkFrame chunk) false.

Definition completeStream (s : ActiveStream) (conns : Connections)
    : ActiveStream * Connections :=
  broadcast (withStatus s completed (errorText s)) conns
            (DoneFrame (fullResponse s)) true.

Definition shapeError (e : jsstring) : jsstring :=
  if includes e (str "Claude API")
  then str "AI service temporarily unavailable. Please try again later."
  else if includes e (str "API key")
  then str "Service configuration error. Please contact support."
  else str "An error occurred while analyzing the sentence".

Definition errorStream (e : jsstring) (s : ActiveStream) (conns : Connections)
    : ActiveStream * Connections :=
  broadcast (withStatus s error (Some e)) conns (ErrorFrame (shapeError e)) true.

Definition unsubscribe (id : jsstring) (s : ActiveStream) : ActiveStream :=
  withSubscribers s (delete id (subscribers s)).

(** [sendCompletionToSubscriber] and [sendErrorToSubscriber]: one terminal
    frame to one subscriber that is registered and not replaying; a throwing
    write is caught and logged. *)
Definition sendTerminal (f : Frame) (id : jsstring)
    (s : ActiveStream) (conns : Connections) : Connections :=
  if isLive s id && canWrite conns id
  then alter (fun c => endConnection (writeFrame f c)) id conns
  else conns.

Definition terminalFrame (s : ActiveStream) : option Frame :=
  match status s with
  | active => None
  | completed => Some (DoneFrame (fullResponse s))
  | error =>
      Some (ErrorFrame (shapeError (default (str "Unknown error")
                                            (truthy (errorText s)))))
  end.

Definition sendTerminalIfDone (id : jsstring)
    (s : ActiveStream) (conns : Connections) : Connections :=
  match terminalFrame s with
  | Some f => sendTerminal f id s conns
  | None => conns
  end.

(** [subscribe], up to the start of the replay task: the new subscriber and
    its connection are registered under [id] (the fresh [uuidv4()]); the
    result tells whether a replay task is started. *)
Definition subscribe (now : Z) (id : jsstring)
    (s : ActiveStream) (conns : Connections)
    : ActiveStream * Connections * bool :=
  let hasAccumulatedChunks := negb (length (chunks s) =? 0) in
  let s' := withSubscribers s
              (<[id := {| joinedAt := now; isReplaying := hasAccumulatedChunks |}]>
                 (subscribers s)) in
  let conns' := <[id := freshConnection]> conns in
  if hasAccumulatedChunks then (s', conns', true)
  else (s', sendTerminalIfDone id s' conns', false).

(** [Math.min(Math.max(Math.floor(timeDiff / 3), 5), 30)] *)
Definition replayDelay (chunk nextChunk : ChunkMetadata) : Z :=
  Z.min (Z.max ((timestamp nextChunk - timestamp chunk) / 3) 5) 30.

(** *** One registry entry and its replay tasks

    The life of one stream of the registry, with the replay tasks of its
    subscribers.  A task is either running (it holds the single thread) or
    suspended in one of its two [await]s; nothing else runs while a task is
    running, which is how the event loop schedules [async] functions. *)

Global Instance StreamStatus_eq_dec : EqDecision StreamStatus.
Proof. solve_decision. Defined.

Inductive ReplayPc :=
| LoopHead (currentIndex totalChunks : nat)
    (* running, at the test of the inner [while] *)
| AwaitDelay (currentIndex totalChunks : nat) (delayMs : Z)
    (* suspended in the paced delay; [currentIndex++] comes next *)
| AwaitCatchUp (currentIndex : nat)
    (* suspended in [delay(10)] after catching up *)
| Finishing (currentIndex : nat)
    (* running, after the [break] of the outer loop *)
| Returned.

Record World := {
  stream : ActiveStream;
  conns : Connections;
  tasks : gmap jsstring ReplayPc;
  running : option jsstring;
  registered : bool;             (* the entry is still in [this.streams] *)
}.

Definition isSubscriberConnected (w : World) (id : jsstring) : bool :=
  registered w &&
  match subscribers (stream w) !! id, conns w !! id with
  | Some _, Some c => negb (writableEnded c)
  | _, _ => false
  end.

Definition setTask (w : World) (id : jsstring) (pc : ReplayPc)
    (run : option jsstring) : World :=
  {| stream := stream w; conns := conns w; tasks := <[id := pc]> (tasks w);
     running := run; registered := registered w |}.

Definition setStream (w : World) (s : ActiveStream) (c : Connections) : World :=
  {| stream := s; conns := c; tasks := tasks w; running := running w;
     registered := registered w |}.

Definition finishedReplaying (id : jsstring) (s : ActiveStream) : ActiveStream :=
  withSubscribers s
    (alter (fun sub => {| joinedAt := joinedAt sub; isReplaying := false |})
           id (subscribers s)).

(** One step of the running replay task of [id]. *)
Definition replayStep (w : World) (id : jsstring) : World :=
  let s := stream w in
  match tasks w !! id with
  | Some (LoopHead currentIndex totalChunks) =>
      if currentIndex <? totalChunks then
        if negb (isSubscriberConnected w id) then setTask w id Returned None
        else
          match chunks s !! currentIndex with
          | None =>
              (* reading past the log throws; the caller's catch unsubscribes *)
              setTask (setStream w (unsubscribe id s) (conns w)) id Returned None
          | Some chunk =>
              if canWrite (conns w) id then
                let w' := setStream w s
                            (alter (writeFrame (ChunkFrame (text chunk))) id (conns w)) in
                match chunks s !! (currentIndex + 1) with
                | Some nextChunk =>
                    (* currentIndex < stream.chunks.length - 1 *)
                    setTask w' id
                      (AwaitDelay currentIndex totalChunks (replayDelay chunk nextChunk))
                      None
                | None => setTask w' id (LoopHead (currentIndex + 1) totalChunks) (Some id)
                end
              else
                setTask (setStream w (unsubscribe id s) (conns w)) id Returned None
          end
      else if length (chunks s) <=? currentIndex then
        match status s with
        | active => setTask w id (AwaitCatchUp currentIndex) None
        | _ => setTask w id (Finishing currentIndex) (Some id)
        end
      else setTask w id (LoopHead currentIndex (length (chunks s))) (Some id)
  | Some (Finishing currentIndex) =>
      let s' := finishedReplaying id s in
      setTask (setStream w s'
                 (if registered w then sendTerminalIfDone id s' (conns w)
                  else conns w))
              id Returned None
  | _ => w
  end.

(** The timer of a suspended replay task fires. *)
Definition resume (w : World) (id : jsstring) : option World :=
  match tasks w !! id with
  | Some (AwaitDelay currentIndex totalChunks _) =>
      Some (setTask w id (LoopHead (currentIndex + 1) totalChunks) (Some id))
  | Some (AwaitCatchUp currentIndex) =>
      match status (stream w) with
      | active =>
          if length (chunks (stream w)) <=? currentIndex
          then Some (setTask w id (Finishing currentIndex) (Some id))
          else Some (setTask w id (LoopHead currentIndex (length (chunks (stream w))))
                             (Some id))
      | _ => Some (setTask w id (LoopHead currentIndex (length (chunks (stream w))))
                           (Some id))
      end
  | _ => None
  end.

(** What happens to the entry.  The methods of the manager find the entry
    by its key: a driver task calls [publishChunk], [completeStream] and
    [errorStream] with the key it was started for, and a timer deletes
    whatever entry is under the key it was set for.  So the entry receives
    the events of every driver task and of every timer that holds its key,
    whether they were started for this entry or for an earlier one under the
    same key, and none of the three methods tests the status of the entry. *)
Inductive Event :=
| EvSubscribe (id : jsstring) (now : Z)   (* a request subscribes *)
| EvClose (id : jsstring)                 (* 'close' on the response: unsubscribe *)
| EvBreak (id : jsstring)                 (* writes to the response start to throw *)
| EvPublish (chunk : jsstring) (now : Z)  (* a driver task: a delta arrived *)
| EvComplete                              (* a driver task: its call returned *)
| EvError (e : jsstring)                  (* a driver task: its call threw *)
| EvResume (id : jsstring)                (* a replay task's delay elapsed *)
| EvRun                                   (* the running replay task goes on *)
| EvCleanupTimer                          (* a timer of [scheduleCleanup] fires *)
| EvEvict                                 (* [createStream] evicts for another key *)
| EvErrorTimer.                           (* a timer of [errorStream] fires *)

Definition isActive (s : ActiveStream) : bool :=
  match status s with active => true | _ => false end.

Definition deregister (w : World) : World :=
  {| stream := stream w; conns := conns w; tasks := tasks w;
     running := None; registered := false |}.

(** [None]: the event cannot happen in [w].  Everything but [EvRun] waits
    for the running task to suspend or return.  An event that finds no
    entry under the key leaves this entry as it is. *)
Definition step (w : World) (e : Event) : option World :=
  match running w, e with
  | Some id, EvRun => Some (replayStep w id)
  | Some _, _ => None
  | None, EvRun => None
  | None, EvSubscribe id now =>
      if registered w && bool_decide (conns w !! id = None) then
        let '(s', conns', replay) := subscribe now id (stream w) (conns w) in
        let w' := setStream w s' conns' in
        Some (if replay
              then setTask w' id (LoopHead 0 (length (chunks s'))) (Some id)
              else w')
      else None
  | None, EvClose id =>
      Some (if registered w
            then setStream w (unsubscribe id (stream w)) (conns w)
            else w)
  | None, EvBreak id =>
      Some (setStream w (stream w)
              (alter (fun c => {| written := written c;
                                  writableEnded := writableEnded c;
                                  broken := true |}) id (conns w)))
  | None, EvPublish chunk now =>
      Some (if registered w
            then let '(s', conns') := publishChunk now chunk (stream w) (conns w) in
                 setStream w s' conns'
            else w)
  | None, EvComplete =>
      Some (if registered w
            then let '(s', conns') := completeStream (stream w) (conns w) in
                 setStream w s' conns'
            else w)
  | None, EvError e =>
      Some (if registered w
            then let '(s', conns') := errorStream e (stream w) (conns w) in
                 setStream w s' conns'
            else w)
  | None, EvResume id => resume w id
  | None, EvCleanupTimer =>
      (* [if (stream && stream.subscribers.size === 0) this.streams.delete(key)] *)
      Some (if bool_decide (subscribers (stream w) = ∅) then deregister w else w)
  | None, EvEvict =>
      (* [cleanupOldestCompletedStreams] takes entries that are completed and
         have no subscribers *)
      Some (if bool_decide (status (stream w) = completed)
               && bool_decide (subscribers (stream w) = ∅)
            then deregister w else w)
  | None, EvErrorTimer =>
      (* [this.streams.delete(cacheKey)] *)
      Some (deregister w)
  end.

Fixpoint run (w : World) (events : list Event) : option World :=
  match events with
  | [] => Some w
  | e :: rest =>
      match step w e with
      | Some w' => run w' rest
      | None => None
      end
  end.

Definition isDriverEvent (e : Event) : bool :=
  match e with
  | EvPublish _ _ | EvComplete | EvError _ => true
  | _ => false
  end.

(** The runs in which the events of driver tasks are those of one task: the
    task calls [publishChunk] from the loop of
    [analyzeSentenceWithClaudeStream] and then, once, [completeStream] or
    [errorStream], so none of its events comes after the stream has ended. *)
Fixpoint singleDriver (w : World) (events : list Event) : bool :=
  match events with
  | [] => true
  | e :: rest =>
      (negb (isDriverEvent e) || isActive (stream w))
      && match step w e with
         | Some w' => singleDriver w' rest
         | None => true
         end
  end.



(** The object literal of [createStream]. *)
Definition newStream (key : jsstring) (p : StreamParams) (now : Z) : ActiveStream :=
  {| cacheKey := key; params := p; subscribers := ∅; chunks := [];
     fullResponse := []; status := active; errorText := None; createdAt := now;
     apiCallPromise := false |}.

(** The entry as [getOrCreateStream] leaves it: created, driver started. *)
Definition initialWorld (key : jsstring) (p : StreamParams) (now : Z) : World :=
  {| stream := withDriver (newStream key p now); conns := ∅; tasks := ∅;
     running := None; registered := true |}.

(** What subscriber [id] has received: the texts of its chunk frames. *)
Fixpoint chunkTexts (frames : list Frame) : list jsstring :=
  match frames with
  | [] => []
  | ChunkFrame c :: r => c :: chunkTexts r
  | _ :: r => chunkTexts r
  end.

Definition received (w : World) (id : jsstring) : list jsstring :=
  match conns w !! id with
  | Some c => chunkTexts (written c)
  | None => []
  end.

Definition chunkLog (w : World) : list jsstring := map text (chunks (stream w)).


(** The flag [isReplaying] of a subscriber that is registered. *)
Definition replaying (s : ActiveStream) (id : jsstring) : bool :=
  match subscribers s !! id with
  | Some sub => isReplaying sub
  | None => false
  end.

(** The invariant of one connection.  [log] is the chunk log, [live] tells
    whether the subscriber is registered and not replaying, [flag] is its
    flag [isReplaying], [ended] tells whether its response was ended, [reg]
    whether the entry is in the registry, [run] is the running task, [pc] the
    state of the subscriber's replay task and [got] what the subscriber has
    received.  With [strict] the invariant is the one of the runs with a
    single driver. *)
Definition connOk (strict : bool) (log : list jsstring) (live flag ended reg : bool)
    (run : option jsstring) (pc : option ReplayPc) (id : jsstring)
    (got : list jsstring) : Prop :=
  match pc with
  | Some (LoopHead i total) =>
      run = Some id /\ live = false /\ ended = false /\ got = take i log
      /\ i <= total <= length log
  | Some (AwaitDelay i total _) =>
      live = false /\ ended = false /\ got = take (S i) log
      /\ i < total <= length log
  | Some (AwaitCatchUp i) =>
      live = false /\ ended = false /\ got = take i log /\ i <= length log
  | Some (Finishing i) =>
      run = Some id /\ live = false /\ ended = false /\ got = log
  | Some Returned | None =>
      got `prefix_of` log
      /\ (live = true -> strict = true \/ ended = false -> got = log)
      /\ (reg = true -> flag = false)
  end.

(** The running task, if any, is at one of its two running states. *)
Definition scheduled (w : World) : Prop :=
  forall id, running w = Some id ->
    match tasks w !! id with
    | Some (LoopHead _ _) | Some (Finishing _) => True
    | _ => False
    end.

(** What the running task still has to do before it suspends or returns. *)
Definition workLeft (w : World) : nat :=
  match running w with
  | None => 0
  | Some id =>
      match tasks w !! id with
      | Some (LoopHead i total) =>
          2 * (length (chunks (stream w)) - i) + (if i <? total then 1 else 2) + 1
      | Some (Finishing _) => 1
      | _ => 0
      end
  end.


Definition invariant (strict : bool) (w : World) : Prop :=
  forall id,
    match conns w !! id with
    | Some c =>
        connOk strict (chunkLog w) (isLive (stream w) id) (replaying (stream w) id)
               (writableEnded c) (registered w) (running w) (tasks w !! id)
               id (chunkTexts (written c))
        /\ (isActive (stream w) = true -> writableEnded c = false)
    | None => tasks w !! id = None /\ subscribers (stream w) !! id = None
    end.

End StreamManager.

(** ** services/streamManager.ts: the registry [this.streams] *)
Module Registry.
Import JsString StreamManager.

(** [this.streams] in insertion order, which the eviction reads, and the
    response objects of all subscribers. *)
Record Manager := {
  streams : list (jsstring * ActiveStream);
  connections : Connections;
}.

Definition emptyManager : Manager := {| streams := []; connections := ∅ |}.

Definition hasKey (key : jsstring) (p : jsstring * ActiveStream) : bool :=
  if decide (p.1 = key) then true else false.

(** [this.streams.get(key)] *)
Definition getStream (m : Manager) (key : jsstring) : option ActiveStream :=
  snd <$> find (hasKey key) (streams m).

(** [map.set(key, v)]: an existing key keeps its place. *)
Fixpoint mapSet (key : jsstring) (v : ActiveStream)
    (l : list (jsstring * ActiveStream)) : list (jsstring * ActiveStream) :=
  match l with
  | [] => [(key, v)]
  | p :: r => if hasKey key p then (key, v) :: r else p :: mapSet key v r
  end.

(** [map.delete(key)] *)
Definition mapDelete (key : jsstring)
    (l : list (jsstring * ActiveStream)) : list (jsstring * ActiveStream) :=
  filter (fun p => hasKey key p = false) l.

Definition MAX_ACTIVE_STREAMS : nat := 100.

(** [Array.prototype.sort] with [a.createdAt - b.createdAt]: stable. *)
Fixpoint insertByCreatedAt (e : jsstring * ActiveStream)
    (sorted : list (jsstring * ActiveStream)) : list (jsstring * ActiveStream) :=
  match sorted with
  | [] => [e]
  | x :: r =>
      if (createdAt e.2 <? createdAt x.2)%Z then e :: sorted
      else x :: insertByCreatedAt e r
  end.

Definition sortByCreatedAt (l : list (jsstring * ActiveStream))
    : list (jsstring * ActiveStream) :=
  foldl (fun acc e => insertByCreatedAt e acc) [] l.

Definition evictable (p : jsstring * ActiveStream) : bool :=
  bool_decide (status p.2 = completed) && bool_decide (subscribers p.2 = ∅).

(** [Math.max(1, Math.floor(n * 0.1))] is [max 1 (n / 10)] on array lengths. *)
Definition cleanupOldestCompletedStreams (m : Manager) : Manager :=
  let completedStreams :=
    sortByCreatedAt (filter (fun p => evictable p = true) (streams m)) in
  let toRemove := Nat.max 1 (length completedStreams / 10) in
  let victims := map fst (take toRemove completedStreams) in
  {| streams := filter (fun p => p.1 ∉ victims) (streams m);
     connections := connections m |}.

Definition createStream (key : jsstring) (p : StreamParams) (now : Z)
    (m : Manager) : Manager :=
  let m1 := if MAX_ACTIVE_STREAMS <=? length (streams m)
            then cleanupOldestCompletedStreams m else m in
  {| streams := mapSet key (newStream key p now) (streams m1);
     connections := connections m1 |}.

(** An operation of the stream object lifted to the registry; a key that is
    not registered leaves everything as it is. *)
Definition onStream (key : jsstring)
    (f : ActiveStream -> Connections -> ActiveStream * Connections)
    (m : Manager) : Manager :=
  match getStream m key with
  | None => m
  | Some s =>
      let '(s', c') := f s (connections m) in
      {| streams := mapSet key s' (streams m); connections := c' |}
  end.

Definition subscribeTo (key id : jsstring) (now : Z) (m : Manager) : Manager :=
  onStream key (fun s c => (StreamManager.subscribe now id s c).1) m.

(** The callbacks of the two cleanup timers. *)
Definition cleanupTimer (key : jsstring) (m : Manager) : Manager :=
  match getStream m key with
  | Some s =>
      if bool_decide (subscribers s = ∅)
      then {| streams := mapDelete key (streams m); connections := connections m |}
      else m
  | None => m
  end.

Definition errorTimer (key : jsstring) (m : Manager) : Manager :=
  {| streams := mapDelete key (streams m); connections := connections m |}.

(** *** The manager and what the event loop holds for it *)

(** A timer that was set by [setTimeout] and has not fired. *)
Inductive Timer :=
| CleanupTimer (key : jsstring)    (* set by [scheduleCleanup], CLEANUP_DELAY *)
| ErrorTimer (key : jsstring).     (* set by [errorStream], one second *)

Global Instance Timer_eq_dec : EqDecision Timer.
Proof. solve_decision. Defined.

(** [drivers] lists the driver tasks that have not returned, each by the key
    it was started with: a driver task is the [async] function that
    [startStream] starts, which makes the upstream call with the callback
    [publishChunk(cacheKey, chunk)] and ends with [completeStream(cacheKey)]
    or [errorStream(cacheKey, message)].  [timers] lists the timers that
    have not fired. *)
Record System := {
  manager : Manager;
  drivers : list jsstring;
  timers : list Timer;
}.

Definition emptySystem : System :=
  {| manager := emptyManager; drivers := []; timers := [] |}.

Definition withManager (s : System) (m : Manager) : System :=
  {| manager := m; drivers := drivers s; timers := timers s |}.

(** The list without the first occurrence of [x]. *)
Fixpoint removeFirst {A} `{EqDecision A} (x : A) (l : list A) : list A :=
  match l with
  | [] => []
  | y :: r => if decide (y = x) then r else y :: removeFirst x r
  end.

(** [startStream]: [Throw] when the stream is not registered; otherwise the
    driver task is started unless [apiCallPromise] is already set. *)
Definition startStream (key : jsstring) (s : System) : except System :=
  match getStream (manager s) key with
  | None => Throw (str "Stream not found: " ++ key)
  | Some st =>
      if apiCallPromise st then Ok s
      else Ok {| manager :=
                   {| streams := mapSet key (withDriver st) (streams (manager s));
                      connections := connections (manager s) |};
                 drivers := drivers s ++ [key];
                 timers := timers s |}
  end.

(** The stream returned is the registered object, read after [startStream]
    has set its promise. *)
Definition getOrCreateStream (key : jsstring) (p : StreamParams) (now : Z)
    (s : System) : option ActiveStream * System :=
  match getStream (manager s) key with
  | Some st => (Some st, s)
  | None =>
      let s1 := withManager s (createStream key p now (manager s)) in
      let s2 := match startStream key s1 with Ok s2 => s2 | Throw _ => s1 end in
      (getStream (manager s2) key, s2)
  end.

(** The handler of POST /analyze/stream after a miss of the Analysis Cache:
    join the active stream if there is one, else get or create, then
    subscribe. *)
Definition handleRequest (key : jsstring) (p : StreamParams) (id : jsstring)
    (now : Z) (s : System) : System :=
  let join s := withManager s (subscribeTo key id now (manager s)) in
  match getStream (manager s) key with
  | Some existingStream =>
      if StreamManager.isActive existingStream then join s
      else join (getOrCreateStream key p now s).2
  | None => join (getOrCreateStream key p now s).2
  end.

(** [completeStream] and [errorStream] return at once for a key that is not
    registered; otherwise they end with setting their timer. *)
Definition completeStream (key : jsstring) (s : System) : System :=
  match getStream (manager s) key with
  | None => s
  | Some _ =>
      {| manager := onStream key StreamManager.completeStream (manager s);
         drivers := drivers s;
         timers := timers s ++ [CleanupTimer key] |}
  end.

Definition errorStream (key e : jsstring) (s : System) : System :=
  match getStream (manager s) key with
  | None => s
  | Some _ =>
      {| manager := onStream key (StreamManager.errorStream e) (manager s);
         drivers := drivers s;
         timers := timers s ++ [ErrorTimer key] |}
  end.

(** What happens to the manager: a request reaches the handler, a response
    is closed, a replay task ends, a driver task goes on, a timer fires.
    The handler is the only caller of [getOrCreateStream], which is the only
    caller of [createStream] and of [startStream]. *)
Inductive Op :=
| OpRequest (key : jsstring) (p : StreamParams) (id : jsstring) (now : Z)
| OpUnsubscribe (key id : jsstring)
| OpReplayFinished (key id : jsstring)
| OpDriverChunk (key chunk : jsstring) (now : Z)  (* [publishChunk(key, chunk)] *)
| OpDriverReturns (key : jsstring)                (* [completeStream(key)] *)
| OpDriverThrows (key e : jsstring)               (* [errorStream(key, e)] *)
| OpCleanupTimer (key : jsstring)
| OpErrorTimer (key : jsstring).

(** [None]: the operation cannot happen: a driver task acts only while it
    runs, and a timer fires only if it was set. *)
Definition apply (s : System) (o : Op) : option System :=
  match o with
  | OpRequest key p id now => Some (handleRequest key p id now s)
  | OpUnsubscribe key id =>
      Some (withManager s
              (onStream key (fun st c => (StreamManager.unsubscribe id st, c))
                        (manager s)))
  | OpReplayFinished key id =>
      Some (withManager s
              (onStream key (fun st c => (finishedReplaying id st, c)) (manager s)))
  | OpDriverChunk key chunk now =>
      if decide (key ∈ drivers s)
      then Some (withManager s (onStream key (publishChunk now chunk) (manager s)))
      else None
  | OpDriverReturns key =>
      if decide (key ∈ drivers s)
      then Some (completeStream key
                   {| manager := manager s;
                      drivers := removeFirst key (drivers s);
                      timers := timers s |})
      else None
  | OpDriverThrows key e =>
      if decide (key ∈ drivers s)
      then Some (errorStream key e
                   {| manager := manager s;
                      drivers := removeFirst key (drivers s);
                      timers := timers s |})
      else None
  | OpCleanupTimer key =>
      if decide (CleanupTimer key ∈ timers s)
      then Some {| manager := cleanupTimer key (manager s);
                   drivers := drivers s;
                   timers := removeFirst (CleanupTimer key) (timers s) |}
      else None
  | OpErrorTimer key =>
      if decide (ErrorTimer key ∈ timers s)
      then Some {| manager := errorTimer key (manager s);
                   drivers := drivers s;
                   timers := removeFirst (ErrorTimer key) (timers s) |}
      else None
  end.

Fixpoint applyAll (s : System) (ops : list Op) : option System :=
  match ops with
  | [] => Some s
  | o :: rest =>
      match apply s o with
      | Some s' => applyAll s' rest
      | None => None
      end
  end.

(** The driver tasks that run for [key]. *)
Definition driversOf (s : System) (key : jsstring) : nat :=
  length (filter (fun k => k = key) (drivers s)).

(** What holds of the registry whatever happens: one entry per key, and
    each registered stream is registered under its own key and has its
    promise set. *)
Definition wellStarted (p : jsstring * ActiveStream) : Prop :=
  cacheKey p.2 = p.1 /\ apiCallPromise p.2 = true.

Definition started (m : Manager) : Prop :=
  NoDup (map fst (streams m)) /\ Forall wellStarted (streams m).

(** [s'] has the key and the promise of [s]. *)
Definition sameDriver (s s' : ActiveStream) : Prop :=
  cacheKey s' = cacheKey s /\ apiCallPromise s' = apiCallPromise s.

End Registry.

(** ** services/sentenceDetector.ts: the matcher *)
Module Matcher.
Import JsString SentenceDetector.

(** The class [\w]. *)
Definition isWordChar (c : ascii) : bool :=
  let n := code c in
  ((48 <=? n) && (n <=? 57) || (65 <=? n) && (n <=? 90) || (n =? 95)
   || (97 <=? n) && (n <=? 122))%N.

Definition isWordAt (c : option ascii) : bool :=
  match c with
  | Some c => isWordChar c
  | None => false
  end.

(** The assertion [\b] at a position, given the character before it and the
    character at it ([None] at either end of the string). *)
Definition boundary (prev next : option ascii) : bool :=
  xorb (isWordAt prev) (isWordAt next).

(** Two characters that match each other under the flag [i].  The flag
    compares code units after its canonicalisation (upper-casing, kept only
    when it gives one code unit); among the code units up to U+00FF this
    identifies exactly the pairs that [toLowerCase] identifies. *)
Definition sameLetter (a b : ascii) : bool :=
  if decide (lowerChar a = lowerChar b) then true else false.

(** The escaped pattern [escapeRegExp(p)] read at the start of [s]: every
    character of [p] stands for itself.  The result is the last character
    read (or [prev] if [p] is empty) and what follows. *)
Fixpoint matchLiteral (prev : option ascii) (s p : jsstring)
    : option (option ascii * jsstring) :=
  match p with
  | [] => Some (prev, s)
  | a :: p' =>
      match s with
      | b :: s' => if sameLetter a b then matchLiteral (Some b) s' p' else None
      | [] => None
      end
  end.

(** [regex.test(s)] for a pattern without anchors: the pattern is tried at
    every position, [prev] being the character before the position. *)
Fixpoint searchFrom (matchAt : option ascii -> jsstring -> bool)
    (prev : option ascii) (s : jsstring) : bool :=
  matchAt prev s ||
  match s with
  | [] => false
  | c :: r => searchFrom matchAt (Some c) r
  end.

(** [\b<p>\b] at one position. *)
Definition wordMatchAt (p : jsstring) (prev : option ascii) (s : jsstring) : bool :=
  boundary prev (head s) &&
  match matchLiteral prev s p with
  | Some (last, rest) => boundary last (head rest)
  | None => false
  end.

(** [new RegExp('\\b' + escapeRegExp(p) + '\\b', 'i').test(text)] *)
Definition wordRegexTest (text p : jsstring) : bool :=
  searchFrom (wordMatchAt p) None text.

(** [\w*\b] after the character [last]: some run of word characters, then a
    boundary. *)
Fixpoint wordRunThenBoundary (last : option ascii) (rest : jsstring) : bool :=
  boundary last (head rest) ||
  match rest with
  | c :: r => isWordChar c && wordRunThenBoundary (Some c) r
  | [] => false
  end.

(** [\b<p>\w*\b] at one position. *)
Definition variationMatchAt (p : jsstring) (prev : option ascii) (s : jsstring)
    : bool :=
  boundary prev (head s) &&
  match matchLiteral prev s p with
  | Some (last, rest) => wordRunThenBoundary last rest
  | None => false
  end.

(** [new RegExp('\\b' + escapeRegExp(p) + '\\w*\\b', 'i').test(text)] *)
Definition variationRegexTest (text p : jsstring) : bool :=
  searchFrom (variationMatchAt p) None text.

(** [w.slice(0, -n)] *)
Definition dropEnd (n : nat) (w : jsstring) : jsstring := take (length w - n) w.

Definition getWordVariations (word : jsstring) : list jsstring :=
  let variations := [word] in
  let variations :=
    if endsWith word (str "e")
    then variations ++ [dropEnd 1 word ++ str "ing"; word ++ str "d"]
    else variations in
  let variations :=
    if endsWith word (str "t")
    then variations ++ [word ++ str "ion"; word ++ str "ed"; word ++ str "ing"]
    else variations in
  let variations :=
    if endsWith word (str "ion")
    then variations ++ [dropEnd 3 word; dropEnd 3 word ++ str "ing"]
    else variations in
  let variations :=
    if endsWith word (str "ing")
    then variations ++ [dropEnd 3 word; dropEnd 3 word ++ str "ion"]
    else variations in
  let variations :=
    if endsWith word (str "ed")
    then variations ++ [dropEnd 2 word]
    else variations in
  uniq [] variations.

Definition phraseMatchWithVariations (text query : jsstring) : bool :=
  let queryWords := splitWs (toLowerCase query) in
  let normalizedText := toLowerCase text in
  forallb (fun queryWord =>
             existsb (fun variation => variationRegexTest normalizedText variation)
                     (getWordVariations queryWord))
          queryWords.

(** A loop [for (i = 0; i < n; i++) if (test(i)) return i]. *)
Definition firstIndex (test : nat -> bool) (n : nat) : option nat :=
  find test (seq 0 n).

(** [segments.slice(i, Math.min(i + 3, segments.length)).map(s => s.text).join(' ')] *)
Definition contextText (segments : list CaptionSegment) (i : nat) : jsstring :=
  join (str " ") (map text (take 3 (drop i segments))).

Definition segmentTest (segments : list CaptionSegment)
    (test : jsstring -> bool) (i : nat) : bool :=
  match segments !! i with
  | Some segment => test (toLowerCase (text segment))
  | None => false
  end.

(** [None] is the [-1] of the source. *)
Definition findMatchingSegment (segments : list CaptionSegment)
    (query : jsstring) (queryType : Normalize.QueryType) : option nat :=
  let normalizedQuery := toLowerCase query in
  let n := length segments in
  let firstPass :=
    firstIndex
      (segmentTest segments
         (fun normalizedText =>
            match queryType with
            | Normalize.word => wordRegexTest normalizedText normalizedQuery
            | Normalize.sentence => includes normalizedText normalizedQuery
            end)) n in
  match firstPass with
  | Some i => Some i
  | None =>
      let secondPass :=
        match queryType with
        | Normalize.sentence =>
            firstIndex
              (fun i => phraseMatchWithVariations (contextText segments i)
                                                  normalizedQuery) n
        | Normalize.word => None
        end in
      match secondPass with
      | Some i => Some i
      | None =>
          match queryType with
          | Normalize.word =>
              firstIndex
                (segmentTest segments
                   (fun normalizedText => includes normalizedText normalizedQuery)) n
          | Normalize.sentence => None
          end
      end
  end.

End Matcher.

(** ** services/streamCache.ts *)
Module StreamCache.
Import JsString StreamManager.

Section Key.
(** [generateHash] of utils/hash.ts, which is not among the sources. *)
Variable generateHash : jsstring -> jsstring.

(** [contextBefore?.trim().toLowerCase() || ''] *)
Definition normalizedContext (context : option jsstring) : jsstring :=
  match context with
  | Some s => toLowerCase (trim s)
  | None => []
  end.

Definition generateStreamCacheKey (sentence targetWord targetLanguage
    nativeLanguage : jsstring) (contextBefore contextAfter : option jsstring)
    : jsstring :=
  let normalized :=
    join (str "|")
      [ toLowerCase (trim sentence);
        toLowerCase (trim targetWord);
        toLowerCase (trim targetLanguage);
        toLowerCase (trim nativeLanguage);
        normalizedContext contextBefore;
        normalizedContext contextAfter ] in
  generateHash normalized.

End Key.

(** What one run of the body of [saveStreamCache] meets: [JSON.parse] throws
    on the response, or the insert into [sentence_analyses] throws, or the
    row is inserted and returned. *)
Inductive SaveAttempt (Row : Type) :=
| ParseThrows (msg : jsstring)
| InsertThrows (msg : jsstring)
| Inserted (row : Row).
Arguments ParseThrows {Row} msg.
Arguments InsertThrows {Row} msg.
Arguments Inserted {Row} row.

(** [try { body } catch (error) { handler }] *)
Definition tryCatch {A} (body : except A) (handler : jsstring -> except A)
    : except A :=
  match body with
  | Ok a => Ok a
  | Throw msg => handler msg
  end.

(** The [try] block of [saveStreamCache]. *)
Definition saveBody {Row} (outcome : SaveAttempt Row) : except (option Row) :=
  match outcome with
  | ParseThrows msg => Throw msg
  | InsertThrows msg => Throw msg
  | Inserted row => Ok (Some row)
  end.

Definition saveStreamCache {Row} (outcome : SaveAttempt Row) : except (option Row) :=
  tryCatch (saveBody outcome) (fun _ => Ok None).

(** What [saveStreamCacheWithRetry] does besides returning. *)
Inductive RetryAction :=
| CallSave (attempt : nat)
| Backoff (delayMs : Z).

(** The loop [for (attempt = 1; attempt <= maxRetries; attempt++)], from
    [attempt] on with [remaining] iterations left; [outcomes attempt] is what
    the body of [saveStreamCache] meets at that attempt. *)
Fixpoint retryLoop {Row} (outcomes : nat -> SaveAttempt Row)
    (maxRetries attempt remaining : nat) : option Row * list RetryAction :=
  match remaining with
  | 0 => (None, [])
  | S remaining' =>
      match saveStreamCache (outcomes attempt) with
      | Ok r => (r, [CallSave attempt])
      | Throw _ =>
          let '(r, actions) :=
            retryLoop outcomes maxRetries (attempt + 1) remaining' in
          (r, CallSave attempt
                :: (if attempt <? maxRetries
                    then [Backoff (2 ^ Z.of_nat (attempt - 1) * 1000)%Z]
                    else [])
                ++ actions)
      end
  end.

Definition saveStreamCacheWithRetry {Row} (outcomes : nat -> SaveAttempt Row)
    (maxRetries : nat) : option Row * list RetryAction :=
  retryLoop outcomes maxRetries 1 maxRetries.

(** [breakChars.includes(text[i])]; past the end [text[i]] is [undefined]. *)
Definition isBreakChar (c : option ascii) : bool :=
  match c with
  | Some c =>
      if decide (c ∈ str " ,.}]" ++ ["010"%char]) then true else false
  | None => false
  end.

(** The loop [for (i = endIndex; i > currentIndex + chunkSize * 0.5; i--)],
    from [i] down; [Some] is [bestBreakIndex], [None] its [-1]. *)
Fixpoint findBreak (text : jsstring) (currentIndex chunkSize i : nat) : option nat :=
  if 2 * currentIndex + chunkSize <? 2 * i then
    if isBreakChar (text !! i) then Some (i + 1)
    else match i with
         | 0 => None
         | S i' => findBreak text currentIndex chunkSize i'
         end
  else None.

(** [text.substring(from, to)] for [from <= to]. *)
Definition substring (text : jsstring) (from to : nat) : jsstring :=
  take (to - from) (drop from text).

(** The loop [while (currentIndex < text.length)]; [None] when [fuel]
    iterations did not end it. *)
Fixpoint chunksFrom (fuel : nat) (text : jsstring) (chunkSize currentIndex : nat)
    : option (list jsstring) :=
  if currentIndex <? length text then
    match fuel with
    | 0 => None
    | S fuel' =>
        let endIndex := Nat.min (currentIndex + chunkSize) (length text) in
        let endIndex :=
          if endIndex <? length text then
            match findBreak text currentIndex chunkSize endIndex with
            | Some bestBreakIndex => bestBreakIndex
            | None => endIndex
            end
          else endIndex in
        rest ← chunksFrom fuel' text chunkSize endIndex;
        Some (substring text currentIndex endIndex :: rest)
    end
  else Some [].

Definition generateArtificialChunks (text : jsstring) (chunkSize : nat)
    : option (list jsstring) :=
  chunksFrom (length text) text chunkSize 0.

(** The chunks of a text: each holds at least one character and at most
    [chunkSize + 1], and each but the last more than half of [chunkSize]. *)
Definition wellChunked (chunkSize : nat) (chunks : list jsstring) : Prop :=
  Forall (fun c => 0 < length c <= chunkSize + 1) chunks
  /\ forall i c, chunks !! i = Some c -> i + 1 < length chunks ->
       chunkSize < 2 * length c.

(** The parts of a cached analysis that [simulateStreamReplay] reads:
    the stored chunks ([None] when the column is null) and the
    [JSON.stringify] of its six analysis fields. *)
Record CachedAnalysis := {
  responseChunks : option (list ChunkMetadata);
  serialized : jsstring;
}.

(** What [simulateStreamReplay] does to the response, in order, when its
    writes do not throw. *)
Inductive ReplayAction :=
| Write (f : Frame)
| Delay (ms : Z)
| EndResponse.

Fixpoint artificialReplay (chunks : list jsstring) : list ReplayAction :=
  match chunks with
  | [] => []
  | [chunk] => [Write (ChunkFrame chunk)]
  | chunk :: rest => Write (ChunkFrame chunk) :: Delay 15 :: artificialReplay rest
  end.

Fixpoint storedReplay (chunks : list ChunkMetadata) : list ReplayAction :=
  match chunks with
  | [] => []
  | [chunk] => [Write (ChunkFrame (text chunk))]
  | chunk :: (nextChunk :: _) as rest =>
      Write (ChunkFrame (text chunk)) :: Delay (replayDelay chunk nextChunk)
        :: storedReplay rest
  end.

(** The frames written, and the delays waited, in a list of actions. *)
Definition writtenFrames (actions : list ReplayAction) : list Frame :=
  omap (fun a => match a with Write f => Some f | _ => None end) actions.

Definition delaysOf (actions : list ReplayAction) : list Z :=
  omap (fun a => match a with Delay ms => Some ms | _ => None end) actions.

Definition simulateStreamReplay (cachedAnalysis : CachedAnalysis)
    : option (list ReplayAction) :=
  let fullResponse := serialized cachedAnalysis in
  match responseChunks cachedAnalysis with
  | None | Some [] =>
      artificialChunks ← generateArtificialChunks fullResponse 100;
      Some (artificialReplay artificialChunks
            ++ [Write (DoneFrame fullResponse); EndResponse])
  | Some chunks =>
      Some (storedReplay chunks ++ [Write (DoneFrame fullResponse); EndResponse])
  end.

End StreamCache.

(** ** db/aiPaywall.ts: the statistics and the cleanup *)
Module AiPaywallStats.
Import JsString AiPaywall.
Local Open Scope Z_scope.

Record UsageStats := {
  statsRequestsUsed : Z;
  statsRequestsLimit : option Z;      (* [None] is [Infinity] *)
  windowResetAt : option Z;           (* [None] is [null] *)
  statsHasSubscription : bool;
}.

Definition getAiUsageStats (db : UsageTable) (currentTime : Z)
    (userId : jsstring) (hasSubscription : bool) : UsageStats :=
  if hasSubscription then
    {| statsRequestsUsed := 0; statsRequestsLimit := None;
       windowResetAt := None; statsHasSubscription := true |}
  else
    match db !! userId with
    | None =>
        {| statsRequestsUsed := 0; statsRequestsLimit := Some FREE_REQUESTS_LIMIT;
           windowResetAt := None; statsHasSubscription := false |}
    | Some record =>
        let windowStartTime := windowStart record in
        let windowEndTime := windowStartTime + windowDurationMs in
        if windowEndTime <=? currentTime then
          {| statsRequestsUsed := 0; statsRequestsLimit := Some FREE_REQUESTS_LIMIT;
             windowResetAt := None; statsHasSubscription := false |}
        else
          {| statsRequestsUsed := requestCount record;
             statsRequestsLimit := Some FREE_REQUESTS_LIMIT;
             windowResetAt := Some windowEndTime; statsHasSubscription := false |}
    end.

(** [DELETE ... WHERE window_start < NOW() - INTERVAL '8 hours'] *)
Definition cleanupExpiredPaywallRecords (db : UsageTable) (now : Z) : UsageTable :=
  filter (fun p => ~ (windowStart p.2 < now - 8 * 60 * 60 * 1000)) db.

(** Requests served one after the other: each is a run of the middleware in
    the world the previous one left. *)
Definition serve (w : Paywall.PaywallWorld)
    (r : Paywall.Environment * Paywall.PaywallRequest) : Paywall.PaywallWorld :=
  (Paywall.aiPaywallMiddleware w r.1 r.2).2.

Definition serveAll (w : Paywall.PaywallWorld)
    (requests : list (Paywall.Environment * Paywall.PaywallRequest))
    : Paywall.PaywallWorld :=
  foldl serve w requests.

(** The quota rows hold no count above the limit. *)
Definition withinLimit (db : UsageTable) : Prop :=
  forall u record, db !! u = Some record -> requestCount record <= 3.

End AiPaywallStats.

(** ** services/revenueCat.ts: reading the provider's answer *)
Module Entitlements.
Import JsString RevenueCat.
Local Open Scope Z_scope.

(** The field [expires_date]: absent, null or empty; a string that is not a
    date; or a date. *)
Inductive ExpiresDate :=
| NoExpiry
| InvalidDate
| ExpiresAt (t : Z).

Record Entitlement := {
  expires_date : ExpiresDate;
  product_identifier : jsstring;
}.

(** A subscription; [unsubscribed] tells whether [unsubscribe_detected_at] is
    set. *)
Record Subscription := {
  unsubscribed : bool;
}.

(** [data.subscriber]: both objects as the lists of their entries, in the
    order of [Object.entries]. *)
Record Subscriber := {
  entitlements : list (jsstring * Entitlement);
  subscriptions : list (jsstring * Subscription);
}.

(** The properties every object inherits from [Object.prototype]. *)
Definition prototypeKeys : list jsstring :=
  map str ["constructor"; "__defineGetter__"; "__defineSetter__";
           "hasOwnProperty"; "__lookupGetter__"; "__lookupSetter__";
           "isPrototypeOf"; "propertyIsEnumerable"; "toString"; "valueOf";
           "__proto__"; "toLocaleString"]%string.

(** The value of [obj[key]] for an object read from JSON: the entry of the
    object itself; or, when it has no such entry and [key] names a property
    of [Object.prototype], that inherited property, which is a function (for
    [__proto__], the prototype): a truthy value on which every field of an
    entitlement or a subscription is [undefined]; or [undefined]. *)
Inductive Property (A : Type) : Type :=
| Own (a : A)
| Inherited
| Undefined.
Arguments Own {A} a.
Arguments Inherited {A}.
Arguments Undefined {A}.

Definition property {A} (obj : list (jsstring * A)) (key : jsstring) : Property A :=
  match find (fun p => if decide (p.1 = key) then true else false) obj with
  | Some p => Own p.2
  | None => if decide (key ∈ prototypeKeys) then Inherited else Undefined
  end.

(** [!expiresDate || expiresDate > new Date()] *)
Definition unexpired (now : Z) (e : Entitlement) : bool :=
  match expires_date e with
  | NoExpiry => true
  | InvalidDate => false
  | ExpiresAt t => now <? t
  end.

(** [expiresDate || undefined] *)
Definition dateOf (e : Entitlement) : option Z :=
  match expires_date e with
  | ExpiresAt t => Some t
  | _ => None
  end.

(** [premiumEntitlementId] is [REVENUECAT_ENTITLEMENT_ID], or ['premium']. *)
Definition parseSubscriptionStatus (premiumEntitlementId : jsstring)
    (now : Z) (data : Subscriber) : SubscriptionStatus :=
  let fromLoop :=
    match find (fun p => unexpired now p.2) (entitlements data) with
    | Some (entitlementId, entitlement) =>
        let willRenew :=
          match property (subscriptions data) (product_identifier entitlement) with
          | Own productSub => negb (unsubscribed productSub)
          | Inherited => true            (* [!productSub.unsubscribe_detected_at] *)
          | Undefined => true
          end in
        {| isActive := true; entitlementId := Some entitlementId;
           expiresDate := dateOf entitlement;
           productId := Some (product_identifier entitlement);
           willRenew := willRenew |}
    | None => inactiveStatus
    end in
  match property (entitlements data) premiumEntitlementId with
  | Own entitlement =>
      if unexpired now entitlement then
        {| isActive := true; entitlementId := Some premiumEntitlementId;
           expiresDate := dateOf entitlement;
           productId := Some (product_identifier entitlement);
           willRenew := true |}
      else fromLoop
  | Inherited =>
      (* [entitlement.expires_date] is undefined: no expiry date *)
      {| isActive := true; entitlementId := Some premiumEntitlementId;
         expiresDate := None; productId := None; willRenew := true |}
  | Undefined => fromLoop
  end.

End Entitlements.

(** ** db/wordIndex.ts: the row of a word *)
Module WordIndexRows.
Import JsString WordIndex.

(** The examples of a word once [v] has been added to them: the list
    [updatedExamples] of [addVideoToWordIndex], or the list as it was when
    it already holds an example of the same video, start and end. *)
Definition withExample (v : VideoResponse) (old : list VideoResponse)
    : list VideoResponse :=
  if existsb (fun example => sameExample example v) old then old else old ++ [v].

End WordIndexRows.

(** ** services/streamManager.ts: the order the eviction sorts by *)
Module RegistryOrder.
Import JsString StreamManager Registry.

(** [a.createdAt - b.createdAt <= 0] *)
Definition older (a b : jsstring * ActiveStream) : Prop :=
  (createdAt a.2 <= createdAt b.2)%Z.

End RegistryOrder.

(** ** db/jobQueue.ts: the updates of a job

    The table [job_queue] has [id] as primary key and a unique [hash].
    [JobQueue.findJobByHash] and [JobQueue.findJobById] are its two SELECTs,
    [JobQueue.createJob] its INSERT with status ['queued'], which the unique
    constraint makes throw for a fingerprint that has a row.  The functions
    below are its three UPDATEs and the SELECT of the worker. *)
Module JobStore.
Import JsString JobQueue.

Global Instance JobStatus_eq_dec : EqDecision JobStatus.
Proof. solve_decision. Defined.

(** [UPDATE job_queue SET ... WHERE hash = $n]: the statement rewrites the
    rows with that fingerprint and leaves the others. *)
Definition updateWhere (h : jsstring) (f : Job -> Job) (jobs : list Job) : list Job :=
  map (fun j => if decide (hash j = h) then f j else j) jobs.

(** [currentVideoId] is the optional third argument: the column is written
    in either case, with NULL when the argument is absent. *)
Definition updateJobStatus (jobs : list Job) (h : jsstring) (st : JobStatus)
    (videoId : option jsstring) : list Job :=
  updateWhere h
    (fun j => {| id := id j; hash := hash j; query := query j;
                 normalizedQuery := normalizedQuery j; queryType := queryType j;
                 status := st; currentVideoId := videoId;
                 result := result j; error := error j |})
    jobs.

Definition updateJobResult (jobs : list Job) (h : jsstring)
    (r : JobProcessor.JobResult) : list Job :=
  updateWhere h
    (fun j => {| id := id j; hash := hash j; query := query j;
                 normalizedQuery := normalizedQuery j; queryType := queryType j;
                 status := completed; currentVideoId := currentVideoId j;
                 result := Some r; error := error j |})
    jobs.

Definition updateJobError (jobs : list Job) (h : jsstring) (e : jsstring)
    : list Job :=
  updateWhere h
    (fun j => {| id := id j; hash := hash j; query := query j;
                 normalizedQuery := normalizedQuery j; queryType := queryType j;
                 status := failed; currentVideoId := currentVideoId j;
                 result := result j; error := Some e |})
    jobs.

(** [SELECT ... WHERE status = 'queued' ORDER BY created_at ASC]; the list
    of jobs is kept in the order of creation. *)
Definition getQueuedJobs (jobs : list Job) : list Job :=
  filter (fun j => status j = queued) jobs.

End JobStore.

(** ** services/youtube.ts: the search with filters *)
Module Youtube.
Import JsString.

Record YouTubeVideo := {
  videoId : jsstring;
  title : jsstring;
  description : jsstring;
}.

Record SearchOptions := {
  videoLicense : option jsstring;
  videoDuration : option jsstring;
}.

Definition strategies : list SearchOptions :=
  [ {| videoLicense := Some (str "creativeCommon"); videoDuration := Some (str "short") |};
    {| videoLicense := Some (str "creativeCommon"); videoDuration := None |};
    {| videoLicense := None; videoDuration := Some (str "short") |};
    {| videoLicense := None; videoDuration := Some (str "medium") |};
    {| videoLicense := None; videoDuration := None |} ].

Section Search.
(** [searchVideos(query, 5, options)]: the answer of the YouTube API, or the
    error it throws. *)
Variable searchVideos : jsstring -> SearchOptions -> except (list YouTubeVideo).

(** The loop over the strategies; a strategy that throws is passed over. *)
Fixpoint searchLoop (query : jsstring) (targetResults : nat)
    (allVideos : list YouTubeVideo) (seenIds : list jsstring)
    (options : list SearchOptions) : list YouTubeVideo :=
  match options with
  | [] => allVideos
  | o :: rest =>
      match searchVideos query o with
      | Ok videos =>
          let newVideos := filter (fun v => videoId v ∉ seenIds) videos in
          let seenIds := seenIds ++ map videoId newVideos in
          let allVideos := allVideos ++ newVideos in
          if targetResults <=? length allVideos then allVideos
          else searchLoop query targetResults allVideos seenIds rest
      | Throw _ => searchLoop query targetResults allVideos seenIds rest
      end
  end.

Definition searchVideosWithAdFilters (query : jsstring) (targetResults : nat)
    : list YouTubeVideo :=
  take targetResults (searchLoop query targetResults [] [] strategies).

End Search.
End Youtube.

(** ** services/jobProcessor.ts: the job *)
Module Pipeline.
Import JsString.

(** A string in double quotes, as the template literals of the source
    write it. *)
Definition quoted (s : jsstring) : jsstring :=
  ["034"%char] ++ s ++ ["034"%char].

Definition getSearchStrategies (normalizedQuery : jsstring)
    (queryType : Normalize.QueryType) : list jsstring :=
  match queryType with
  | Normalize.word =>
      [ quoted normalizedQuery ++ str " explained";
        normalizedQuery ++ str " explained";
        normalizedQuery;
        quoted normalizedQuery ]
  | Normalize.sentence =>
      [ quoted normalizedQuery;
        normalizedQuery;
        normalizedQuery ++ str " example";
        quoted normalizedQuery ++ str " explained" ]
  end.

(** The three tables the job writes. *)
Record Database := {
  jobs : list JobQueue.Job;
  videoExamples : VideoExamples.Table;
  wordIndex : WordIndex.WordIndexTable;
}.

Definition withJobs (db : Database) (jobs' : list JobQueue.Job) : Database :=
  {| jobs := jobs'; videoExamples := videoExamples db; wordIndex := wordIndex db |}.

(** What the outside does with one candidate video, up to the point where
    its captions are loaded.  [downloadAudio] and [transcribeAudio] each
    await the ['close'] of a child process, with no timeout of their own;
    [checkTimeout] runs only before a candidate, so if such a process never
    ends the run waits in that [await] for ever. *)
Inductive Attempt :=
| TimedOut                       (* [checkTimeout] throws *)
| NotEmbeddable                  (* [isVideoEmbeddable] is false, or throws *)
| DownloadFails                  (* [downloadAudio] throws *)
| DownloadHangs                  (* the process of [downloadAudio] never ends *)
| TranscriptionFails             (* [transcribeAudio] throws *)
| TranscriptionHangs             (* a process of [transcribeAudio] never ends *)
| CaptionsFail                   (* [getCaptions] throws *)
| Transcribed (captions : list SentenceDetector.CaptionSegment).

(** Whether a run of [processJob] comes to its end. *)
Inductive RunEnd := Returns | NeverReturns.

Definition hangs (a : Attempt) : bool :=
  match a with
  | DownloadHangs | TranscriptionHangs => true
  | _ => false
  end.

Section Job.
Variable searchVideos :
  jsstring -> Youtube.SearchOptions -> except (list Youtube.YouTubeVideo).
(** What the outside does with the candidate at position [i]. *)
Variable attempt : nat -> Youtube.YouTubeVideo -> Attempt.
(** The identifier and the time stamp the Result Store gives a new row. *)
Variable newRowId : jsstring.
Variable now : Z.

(** The loop over the search strategies. *)
Fixpoint collectVideos (allVideos : list Youtube.YouTubeVideo)
    (strategies : list jsstring) : list Youtube.YouTubeVideo :=
  match strategies with
  | [] => allVideos
  | searchQuery :: rest =>
      let videos := Youtube.searchVideosWithAdFilters searchVideos searchQuery 5 in
      let existingIds := map Youtube.videoId allVideos in
      let newVideos := filter (fun v => Youtube.videoId v ∉ existingIds) videos in
      let allVideos := allVideos ++ newVideos in
      if 10 <=? length allVideos then allVideos
      else collectVideos allVideos rest
  end.

(** The row offered to the Result Store, and the example added to the Word
    Index, for a result. *)
Definition resultRow (hash normalizedQuery : jsstring)
    (r : JobProcessor.JobResult) : VideoExamples.VideoExample :=
  {| VideoExamples.id := newRowId; VideoExamples.hash := hash;
     VideoExamples.query := normalizedQuery;
     VideoExamples.videoId := JobProcessor.videoId r;
     VideoExamples.startTime := JobProcessor.startTime r;
     VideoExamples.endTime := JobProcessor.endTime r;
     VideoExamples.caption := JobProcessor.caption r;
     VideoExamples.captions := JobProcessor.captions r;
     VideoExamples.createdAt := now |}.

Definition resultResponse (r : JobProcessor.JobResult) : WordIndex.VideoResponse :=
  {| WordIndex.videoId := JobProcessor.videoId r;
     WordIndex.videoUrl := JobProcessor.watchUrl (JobProcessor.videoId r);
     WordIndex.startTime := JobProcessor.startTime r;
     WordIndex.endTime := JobProcessor.endTime r;
     WordIndex.caption := JobProcessor.caption r;
     WordIndex.captions := JobProcessor.captions r |}.

(** Steps 4 to 6 for a result: the job is completed, the result is cached
    (a failing insert is caught and logged), its words are indexed. *)
Definition storeResult (db : Database) (hash normalizedQuery : jsstring)
    (r : JobProcessor.JobResult) : Database :=
  let db := withJobs db (JobStore.updateJobResult (jobs db) hash r) in
  let db :=
    match VideoExamples.insertVideoExample (videoExamples db)
            (resultRow hash normalizedQuery r) with
    | Ok table => {| jobs := jobs db; videoExamples := table;
                     wordIndex := wordIndex db |}
    | Throw _ => db
    end in
  let words := WordIndex.extractWords (JobProcessor.caption r) in
  let videoResponse := resultResponse r in
  {| jobs := jobs db; videoExamples := videoExamples db;
     wordIndex := WordIndex.addVideoToWordIndex words videoResponse (wordIndex db) |}.

(** The loop [for (let i = 0; i < allVideos.length; i++)] from position [i]
    on; [total] is [allVideos.length].  The result is the database as the
    run leaves it, and whether the run returns: a run that never returns
    leaves the database as its last statement wrote it. *)
Fixpoint processVideos (db : Database) (hash normalizedQuery : jsstring)
    (queryType : Normalize.QueryType) (total i : nat)
    (videos : list Youtube.YouTubeVideo) : Database * RunEnd :=
  match videos with
  | [] =>
      (withJobs db
         (JobStore.updateJobError (jobs db) hash
            (str "No English video found with the word " ++ quoted normalizedQuery
             ++ str ". Tried "
             ++ str (NilZero.string_of_uint (Nat.to_uint total))
             ++ str " videos.")),
       Returns)
  | video :: rest =>
      let videoId := Youtube.videoId video in
      let next db := processVideos db hash normalizedQuery queryType total (S i) rest in
      let downloading db :=
        withJobs db (JobStore.updateJobStatus (jobs db) hash
                       JobQueue.downloading (Some videoId)) in
      let transcribing db :=
        withJobs db (JobStore.updateJobStatus (jobs db) hash
                       JobQueue.transcribing (Some videoId)) in
      match attempt i video with
      | TimedOut =>
          (withJobs db
             (JobStore.updateJobError (jobs db) hash
                (str "Job timeout: exceeded 900s limit")),
           Returns)
      | NotEmbeddable => next db
      | DownloadFails => next (downloading db)
      | DownloadHangs => (downloading db, NeverReturns)
      | TranscriptionFails | CaptionsFail => next (transcribing (downloading db))
      | TranscriptionHangs => (transcribing (downloading db), NeverReturns)
      | Transcribed captions =>
          let db := transcribing (downloading db) in
          match JobProcessor.processCaptions Matcher.findMatchingSegment
                  videoId captions normalizedQuery queryType with
          | JobProcessor.Found r => (storeResult db hash normalizedQuery r, Returns)
          | _ => next db
          end
      end
  end.

(** [processJob], with whether the run returns. *)
Definition processJobRun (db : Database) (hash normalizedQuery : jsstring)
    (queryType : Normalize.QueryType) : Database * RunEnd :=
  let db := withJobs db (JobStore.updateJobStatus (jobs db) hash
                           JobQueue.searching None) in
  let strategies := getSearchStrategies normalizedQuery queryType in
  let allVideos := collectVideos [] strategies in
  if length allVideos =? 0 then
    (withJobs db (JobStore.updateJobError (jobs db) hash
                    (str "No videos found for this query")),
     Returns)
  else processVideos db hash normalizedQuery queryType (length allVideos) 0 allVideos.

(** What [processJob] does to the database. *)
Definition processJob (db : Database) (hash normalizedQuery : jsstring)
    (queryType : Normalize.QueryType) : Database :=
  (processJobRun db hash normalizedQuery queryType).1.

End Job.

(** [f] changes neither the identity of a job nor its query. *)
Definition keeps (f : JobQueue.Job -> JobQueue.Job) : Prop :=
  forall j, JobQueue.id (f j) = JobQueue.id j
            /\ JobQueue.hash (f j) = JobQueue.hash j
            /\ JobQueue.query (f j) = JobQueue.query j
            /\ JobQueue.normalizedQuery (f j) = JobQueue.normalizedQuery j
            /\ JobQueue.queryType (f j) = JobQueue.queryType j.

(** What a run leaves of the database [db]: the jobs of the fingerprint are
    rewritten by some [g] that keeps their identity, and either the run
    returned after it failed and wrote nothing else, or it returned after
    it found a result, which it also offered to the Result Store and
    indexed, or it never returns: it waits for the download or the
    transcription of a candidate, the jobs are left in that status with
    that candidate, and nothing else was written. *)
Definition outcome (attempt : nat -> Youtube.YouTubeVideo -> Attempt)
    (newRowId : jsstring) (now : Z) (db : Database)
    (run : Database * RunEnd) (hash normalizedQuery : jsstring) : Prop :=
  let db' := run.1 in
  exists g, keeps g /\ jobs db' = JobStore.updateWhere hash g (jobs db)
    /\ ((run.2 = Returns
         /\ exists e, e <> []
              /\ (forall j, JobQueue.status (g j) = JobQueue.failed
                            /\ JobQueue.error (g j) = Some e)
              /\ videoExamples db' = videoExamples db
              /\ wordIndex db' = wordIndex db)
        \/ (run.2 = Returns
            /\ exists r,
              (forall j, JobQueue.status (g j) = JobQueue.completed
                         /\ JobQueue.result (g j) = Some r)
              /\ JobProcessor.videoUrl r
                 = JobProcessor.watchUrl (JobProcessor.videoId r)
              /\ videoExamples db'
                 = match VideoExamples.insertVideoExample (videoExamples db)
                           (resultRow newRowId now hash normalizedQuery r) with
                   | Ok table => table
                   | Throw _ => videoExamples db
                   end
              /\ wordIndex db'
                 = WordIndex.addVideoToWordIndex
                     (WordIndex.extractWords (JobProcessor.caption r))
                     (resultResponse r) (wordIndex db))
        \/ (run.2 = NeverReturns
            /\ exists i video st,
              (attempt i video = DownloadHangs /\ st = JobQueue.downloading
               \/ attempt i video = TranscriptionHangs /\ st = JobQueue.transcribing)
              /\ (forall j, JobQueue.status (g j) = st
                            /\ JobQueue.currentVideoId (g j)
                               = Some (Youtube.videoId video))
              /\ videoExamples db' = videoExamples db
              /\ wordIndex db' = wordIndex db)).

(** A job that is settled: completed with a result, or failed with an
    error message. *)
Definition settled (j : JobQueue.Job) : Prop :=
  (JobQueue.status j = JobQueue.completed /\ exists r, JobQueue.result j = Some r)
  \/ (JobQueue.status j = JobQueue.failed
      /\ exists e, JobQueue.error j = Some e /\ e <> []).

End Pipeline.

(** ** services/backgroundWorker.ts *)
Module BackgroundWorker.
Import JsString.

Definition MAX_CONCURRENT_JOBS : nat := 5.

(** The loop [for (const job of jobs)] of [workerLoop]; [runningJobs] is the
    list of the keys of the map, in the order they were set.  The result is
    the map after the loop with [jobsStarted]. *)
Fixpoint startJobs (runningJobs : list jsstring) (jobsStarted : nat)
    (jobs : list JobQueue.Job) : list jsstring * nat :=
  match jobs with
  | [] => (runningJobs, jobsStarted)
  | job :: rest =>
      if decide (JobQueue.hash job ∈ runningJobs)
      then startJobs runningJobs jobsStarted rest              (* continue *)
      else if MAX_CONCURRENT_JOBS <=? length runningJobs
      then (runningJobs, jobsStarted)                          (* break *)
      else startJobs (runningJobs ++ [JobQueue.hash job]) (S jobsStarted) rest
  end.

(** What happens to the worker: the answer of [getQueuedJobs] arrives in a
    run of [workerLoop] (the run goes on with its loop), or a job ends (the
    [finally] of [startJobProcessing] deletes its key). *)
Inductive WorkerEvent :=
| QueuedJobsArrive (jobs : list JobQueue.Job)
| JobEnds (hash : jsstring).

Definition workerStep (runningJobs : list jsstring) (e : WorkerEvent)
    : list jsstring :=
  match e with
  | QueuedJobsArrive jobs =>
      if length jobs =? 0 then runningJobs
      else (startJobs runningJobs 0 jobs).1
  | JobEnds hash => filter (fun h => h <> hash) runningJobs
  end.

Definition workerRun (events : list WorkerEvent) : list jsstring :=
  foldl workerStep [] events.

End BackgroundWorker.

(** ** services/streamManager.ts: what a response is written *)
Module StreamProtocol.
Import JsString StreamManager.

Definition isTerminal (f : Frame) : bool :=
  match f with
  | ChunkFrame _ => false
  | _ => true
  end.

(** The frames of one response, seen from its stream.  While the response
    is open: chunk frames only.  Once it is ended: the chunk frames of an
    initial segment of the log, in order, and then one terminal frame, a
    done frame carrying the chunks before it put together.  With [strict]
    (the runs with a single driver) the chunk frames are those of the
    whole log and the terminal frame is the one of the stream. *)
Definition framesOk (strict : bool) (s : ActiveStream) (c : Connection) : Prop :=
  if writableEnded c
  then exists f got,
         isTerminal f = true
         /\ written c = map ChunkFrame got ++ [f]
         /\ got `prefix_of` map text (chunks s)
         /\ (forall full, f = DoneFrame full -> full = concat got)
         /\ (strict = true ->
             got = map text (chunks s) /\ terminalFrame s = Some f)
  else written c = map ChunkFrame (chunkTexts (written c)).

(** The accumulated response is the chunks of the log put together, and
    every response is well framed. *)
Definition protocolOf (strict : bool) (s : ActiveStream) (conns : Connections)
    : Prop :=
  fullResponse s = concat (map text (chunks s))
  /\ forall id c, conns !! id = Some c -> framesOk strict s c.

End StreamProtocol.

(** ** services/whisper.ts: transcription with early stopping *)
Module Whisper.
Import JsString.

(** What happens with one chunk of the audio when the loop reaches it:
    [transcribeChunk] throws, or it writes a transcript on which
    [containsSearchTerm] throws (the search term is put into the regular
    expression unescaped), or the transcript is searched and the term is
    found in it or not. *)
Inductive ChunkOutcome :=
| TranscribeThrows (msg : jsstring)
| SearchThrows (msg : jsstring)
| Searched (found : bool).

Record WhisperResult := {
  stoppedEarly : bool;
  chunksProcessed : nat;
}.

(** The loop [for (let i = 0; i < chunksToProcess; i++)] over the chunks not
    yet reached, with [remaining] iterations left; the result is the length
    of [processedVTTs] and [foundWord]. *)
Fixpoint chunkLoop (rest : list ChunkOutcome) (remaining processed : nat)
    : except (nat * bool) :=
  match remaining, rest with
  | S remaining', chunk :: next =>
      match chunk with
      | TranscribeThrows msg => Throw msg
      | SearchThrows msg => Throw msg
      | Searched true =>
          (* one more chunk, if there is one, then [break] *)
          match next with
          | [] => Ok (processed + 1, true)
          | TranscribeThrows msg :: _ => Throw msg
          | _ :: _ => Ok (processed + 2, true)
          end
      | Searched false => chunkLoop next remaining' (processed + 1)
      end
  | _, _ => Ok (processed, false)
  end.

(** [chunks] is what [chunkAudio] gives: the chunks of the audio in order,
    each with what will happen to it, or the error of ffmpeg. *)
Definition transcribeAudio (chunks : except (list ChunkOutcome))
    (searchWord : jsstring) (chunkDuration maxChunks : nat)
    : except WhisperResult :=
  let failed msg := Throw (str "Failed to transcribe audio: " ++ msg) in
  match chunks with
  | Throw msg => failed msg
  | Ok chunkPaths =>
      let chunksToProcess := Nat.min (length chunkPaths) maxChunks in
      match chunkLoop chunkPaths chunksToProcess 0 with
      | Throw msg => failed msg
      | Ok (processed, foundWord) =>
          if negb foundWord && (maxChunks <=? processed) then
            failed (str "Word " ++ ["034"%char] ++ searchWord ++ ["034"%char]
                    ++ str " not found in first "
                    ++ str (NilZero.string_of_uint (Nat.to_uint maxChunks))
                    ++ str " chunks ("
                    ++ str (NilZero.string_of_uint
                              (Nat.to_uint (maxChunks * chunkDuration)))
                    ++ str "s)")
          else
            Ok {| stoppedEarly := foundWord && (processed <? length chunkPaths);
                  chunksProcessed := processed |}
      end
  end.

End Whisper.

(** ** services/streamManager.ts: the statistics *)
Module RegistryStats.
Import JsString StreamManager Registry.

Record Stats := {
  totalStreams : nat;
  activeStreams : nat;
  completedStreams : nat;
  erroredStreams : nat;
  totalSubscribers : nat;
  replayingSubscribers : nat;
}.

(** The body of the loop [for (const stream of this.streams.values())]. *)
Definition countStream (acc : Stats) (p : jsstring * ActiveStream) : Stats :=
  let stream := p.2 in
  let replaying :=
    size (filter (fun q : jsstring * StreamSubscriber => isReplaying q.2 = true)
                 (subscribers stream)) in
  {| totalStreams := totalStreams acc;
     activeStreams :=
       activeStreams acc + (if bool_decide (status stream = active) then 1 else 0);
     completedStreams :=
       completedStreams acc
       + (if bool_decide (status stream = completed) then 1 else 0);
     erroredStreams :=
       erroredStreams acc + (if bool_decide (status stream = error) then 1 else 0);
     totalSubscribers := totalSubscribers acc + size (subscribers stream);
     replayingSubscribers := replayingSubscribers acc + replaying |}.

Definition getStats (m : Manager) : Stats :=
  foldl countStream
        {| totalStreams := length (streams m); activeStreams := 0;
           completedStreams := 0; erroredStreams := 0; totalSubscribers := 0;
           replayingSubscribers := 0 |}
        (streams m).

(** [hasActiveStream(cacheKey)] *)
Definition hasActiveStream (m : Manager) (key : jsstring) : bool :=
  match getStream m key with
  | Some stream => bool_decide (status stream = active)
  | None => false
  end.

End RegistryStats.

(* ===================================================================== *)
(** * Part II: properties                                                 *)
(* ===================================================================== *)

(** ** Strings *)
Module JsStringFacts.
Import JsString.

Lemma lowerChar_idempotent (c : ascii) : lowerChar (lowerChar c) = lowerChar c.
Proof. destruct c as [[] [] [] [] [] [] [] []]; reflexivity. Qed.

Lemma toLowerCase_idempotent (s : jsstring) :
  toLowerCase (toLowerCase s) = toLowerCase s.
Proof.
  unfold toLowerCase. rewrite map_map.
  apply map_ext. intros c. apply lowerChar_idempotent.
Qed.

Lemma toLowerCase_length (s : jsstring) : length (toLowerCase s) = length s.
Proof. apply length_map. Qed.

(** Membership in a literal class, as a proposition. *)
Lemma class_test_true (cls : jsstring) (c : ascii) :
  existsb (fun p => if decide (p = c) then true else false) cls = true <-> In c cls.
Proof.
  rewrite existsb_exists. split.
  - intros (p & Hp & Ht). destruct (decide (p = c)); [subst; exact Hp | discriminate].
  - intros Hc. exists c. split; [exact Hc |]. destruct (decide (c = c)); congruence.
Qed.

(** A property of all elements holds of those a filter keeps. *)
Lemma Forall_filter_keeps {A} (P : A -> Prop) (Q : A -> Prop)
    `{!forall x, Decision (Q x)} (l : list A) :
  Forall P l -> Forall P (filter Q l).
Proof.
  induction 1 as [| x l Hx _ IH]; [constructor |].
  rewrite filter_cons. destruct (decide (Q x)); [constructor |]; assumption.
Qed.

End JsStringFacts.

(** ** The Query Canonicalizer *)
Module NormalizeFacts.
Import JsString Normalize JsStringFacts.

Lemma type_sentence_iff (n : jsstring) :
  (if existsb isWhiteSpace n || existsb isQueryPunctuation n
   then sentence else word) = sentence
  <-> exists c, In c n /\ (isWhiteSpace c = true \/ In c (str ".,!?;:")).
Proof.
  split.
  - destruct (existsb isWhiteSpace n) eqn:Hw.
    + intros _. apply existsb_exists in Hw as (c & Hc & Ht). eauto.
    + destruct (existsb isQueryPunctuation n) eqn:Hp; [| discriminate].
      intros _. apply existsb_exists in Hp as (c & Hc & Ht).
      exists c. split; [exact Hc |]. right. apply class_test_true. exact Ht.
  - intros (c & Hc & [Hw | Hp]).
    + assert (existsb isWhiteSpace n = true) as ->
        by (apply existsb_exists; eauto).
      reflexivity.
    + assert (existsb isQueryPunctuation n = true) as ->.
      { apply existsb_exists. exists c. split; [exact Hc |].
        apply class_test_true. exact Hp. }
      rewrite orb_true_r. reflexivity.
Qed.

(** C8, as the code has it: the bounds are on the trimmed input.
    [normalizeQuery] throws when the input, once trimmed, is empty or longer
    than 200 characters; otherwise it returns the trimmed, lowercased input,
    of type [sentence] iff that canonical form contains white space or one of
    the characters .,!?;: and of type [word] otherwise. *)
Theorem normalizeQuery_trimmed_bounds (raw : jsstring) :
  (length (trim raw) = 0 \/ 200 < length (trim raw) ->
   exists msg, normalizeQuery raw = Throw msg)
  /\
  (0 < length (trim raw) <= 200 ->
   exists r, normalizeQuery raw = Ok r
     /\ normalized r = toLowerCase (trim raw)
     /\ (type r = sentence <->
         exists c, In c (normalized r)
                   /\ (isWhiteSpace c = true \/ In c (str ".,!?;:")))
     /\ (type r = word <->
         ~ exists c, In c (normalized r)
                     /\ (isWhiteSpace c = true \/ In c (str ".,!?;:")))).
Proof.
  unfold normalizeQuery. split.
  - intros [H0 | H200].
    + rewrite H0. simpl. eauto.
    + destruct (200 <? length (trim raw)) eqn:E; [eauto |].
      apply Nat.ltb_ge in E. lia.
  - intros [Hpos Hle].
    destruct (200 <? length (trim raw)) eqn:E1; [apply Nat.ltb_lt in E1; lia |].
    destruct (length (trim raw) =? 0) eqn:E2; [apply Nat.eqb_eq in E2; lia |].
    eexists. split; [reflexivity |]. cbn [normalized type].
    split; [reflexivity |]. split.
    + apply type_sentence_iff.
    + rewrite <- type_sentence_iff.
      destruct (existsb isWhiteSpace (toLowerCase (trim raw))
                || existsb isQueryPunctuation (toLowerCase (trim raw)));
        split; congruence.
Qed.

(** The theorem at the raw input ["  Hello World "]. *)
Lemma normalizeQuery_trimmed_bounds_witness :
  exists r, normalizeQuery (str "  Hello World ") = Ok r
            /\ normalized r = str "hello world" /\ type r = sentence.
Proof.
  destruct (normalizeQuery_trimmed_bounds (str "  Hello World ")) as [_ H].
  destruct H as (r & Hr & Hn & Hs & _).
  - vm_compute. split; lia.
  - exists r. split; [exact Hr |]. split; [rewrite Hn; reflexivity |].
    apply Hs. exists " "%char. split; [rewrite Hn; vm_compute; tauto |].
    left. reflexivity.
Defined.

(** C8 as stated fails on raw lengths: a raw input of 201 characters (200
    letters and a trailing space) is longer than 200 characters and is
    accepted, and a raw input of one space is not empty and is rejected. *)
Lemma normalizeQuery_raw_bounds_counterexample :
  (200 < length (repeat "a"%char 200 ++ str " ")
   /\ normalizeQuery (repeat "a"%char 200 ++ str " ")
      = Ok {| normalized := repeat "a"%char 200; type := word |})
  /\
  (length (str " ") <> 0
   /\ normalizeQuery (str " ") = Throw (str "Query cannot be empty")).
Proof.
  split; split; try (vm_compute; reflexivity); vm_compute; lia.
Qed.

End NormalizeFacts.

(** ** The Word Index *)
Module WordIndexFacts.
Import JsString WordIndex JsStringFacts.

Lemma lowered_fixed (s : jsstring) : lowered s -> toLowerCase s = s.
Proof.
  induction 1 as [| c s Hc _ IH]; [reflexivity |].
  unfold toLowerCase in *. simpl. rewrite Hc, IH. reflexivity.
Qed.

Lemma lowered_toLowerCase (s : jsstring) : lowered (toLowerCase s).
Proof.
  unfold lowered, toLowerCase. apply Forall_map, Forall_forall.
  intros c _. apply lowerChar_idempotent.
Qed.

Lemma lowered_replacePunctuation (s : jsstring) :
  lowered s -> lowered (replacePunctuation s).
Proof.
  unfold lowered, replacePunctuation. intros H. apply Forall_map.
  eapply Forall_impl; [exact H |]. intros c Hc. simpl.
  destruct (isIndexPunctuation c); [reflexivity | exact Hc].
Qed.

Lemma lowered_splitWsFrom (s cur : jsstring) (gap : bool) :
  lowered s -> lowered cur -> Forall lowered (splitWsFrom cur gap s).
Proof.
  revert cur gap. induction s as [| c s IH]; intros cur gap Hs Hcur; simpl.
  - constructor; [| constructor]. apply Forall_rev. exact Hcur.
  - inversion Hs as [| ? ? Hc Hs']; subst.
    destruct (isWhiteSpace c).
    + destruct gap.
      * apply IH; assumption.
      * constructor.
        -- apply Forall_rev. exact Hcur.
        -- apply IH; [assumption | constructor].
    + apply IH; [assumption | constructor; assumption].
Qed.

Lemma uniq_sublist (seen xs : list jsstring) (P : jsstring -> Prop) :
  Forall P xs -> Forall P (uniq seen xs).
Proof.
  revert seen. induction xs as [| x xs IH]; intros seen H; simpl; [constructor |].
  inversion H; subst. destruct (decide (x ∈ seen)).
  - apply IH; assumption.
  - constructor; [assumption | apply IH; assumption].
Qed.

Lemma extractWords_lowered (caption : jsstring) :
  Forall lowered (extractWords caption).
Proof.
  unfold extractWords. apply uniq_sublist.
  apply Forall_filter_keeps.
  apply lowered_splitWsFrom; [| constructor].
  apply lowered_replacePunctuation, lowered_toLowerCase.
Qed.

(** C9: the lookup of the word index does not depend on the case of its
    argument, [findByWord db w = findByWord db (toLowerCase w)], and every
    word [extractWords] produces for indexing is already lowercase. *)
Theorem findByWord_case_insensitive
    (db : WordIndexTable) (w caption : jsstring) :
  findByWord db w = findByWord db (toLowerCase w)
  /\ Forall (fun x => toLowerCase x = x) (extractWords caption).
Proof.
  split.
  - unfold findByWord. rewrite toLowerCase_idempotent. reflexivity.
  - eapply Forall_impl; [apply extractWords_lowered |].
    intros x Hx. apply lowered_fixed. exact Hx.
Qed.

End WordIndexFacts.

(** ** The AI quota *)
Module PaywallFacts.
Import JsString AiPaywall Paywall.
Local Open Scope Z_scope.

Lemma ceilSeconds_pos (x : Z) : 0 < x -> 0 < ceilSeconds x.
Proof.
  intros Hx. unfold ceilSeconds.
  assert ((- x) / 1000 < 0) by (apply Z.div_lt_upper_bound; lia).
  lia.
Qed.

(** What [checkAiPaywall] answers to a non-subscriber, by the number of
    requests counted in the current window. *)
Lemma checkAiPaywall_free (db : UsageTable) (now : Z) (u : jsstring) :
  let used := countedRequests db now u in
  let r := checkAiPaywall db now u false in
  requestsUsed r = used
  /\ requestsLimit r = Some 3
  /\ (allowed r = true <-> used < 3)
  /\ (allowed r = false -> exists s, retryAfterSeconds r = Some s /\ 0 < s).
Proof.
  unfold countedRequests, checkAiPaywall, FREE_REQUESTS_LIMIT. cbn zeta.
  destruct (db !! u) as [record |]; cbn.
  - destruct (windowStart record + windowDurationMs <=? now) eqn:Ew; cbn.
    + repeat split; try lia; try discriminate.
    + apply Z.leb_gt in Ew.
      destruct (3 <=? requestCount record) eqn:El; cbn.
      * apply Z.leb_le in El. repeat split; try lia; try discriminate.
        intros _. eexists. split; [reflexivity |]. apply ceilSeconds_pos. lia.
      * apply Z.leb_gt in El. repeat split; try lia; try discriminate.
  - repeat split; try lia; try discriminate.
Qed.

(** The two ways [incrementAiUsage] moves the counter: one more in a window
    that is still open, back to one in a new window when the old one ended
    (or when the user had no row). *)
Lemma incrementAiUsage_counter (db : UsageTable) (now : Z) (u : jsstring) :
  incrementAiUsage db now u !! u =
  Some (match db !! u with
        | Some record =>
            if windowStart record + windowDurationMs <=? now
            then {| requestCount := 1; windowStart := now |}
            else {| requestCount := requestCount record + 1;
                    windowStart := windowStart record |}
        | None => {| requestCount := 1; windowStart := now |}
        end).
Proof.
  unfold incrementAiUsage. destruct (db !! u) as [record |].
  - destruct (windowStart record + windowDurationMs <=? now);
      apply lookup_insert_eq.
  - apply lookup_insert_eq.
Qed.

Lemma incrementAiUsage_others (db : UsageTable) (now : Z) (u u' : jsstring) :
  u' <> u -> incrementAiUsage db now u !! u' = db !! u'.
Proof.
  intros Hne. unfold incrementAiUsage. destruct (db !! u) as [record |].
  - destruct (windowStart record + windowDurationMs <=? now);
      now rewrite lookup_insert_ne.
  - now rewrite lookup_insert_ne.
Qed.

(** [incrementAiUsage] counts: it adds one to the requests counted in the
    window that is current when it runs. *)
Lemma incrementAiUsage_counts (db : UsageTable) (now : Z) (u : jsstring) :
  countedRequests (incrementAiUsage db now u) now u = countedRequests db now u + 1.
Proof.
  unfold countedRequests. rewrite incrementAiUsage_counter.
  change windowDurationMs with (240 * 60 * 1000).
  destruct (db !! u) as [record |]; cbn.
  - destruct (windowStart record + 240 * 60 * 1000 <=? now) eqn:E; cbn.
    + destruct (now + 240 * 60 * 1000 <=? now) eqn:E'; [| reflexivity].
      apply Z.leb_le in E'. lia.
    + rewrite E. reflexivity.
  - destruct (now + 240 * 60 * 1000 <=? now) eqn:E'; [| reflexivity].
    apply Z.leb_le in E'. lia.
Qed.

(** C4: the quota of a user the subscription check reports as not entitled,
    and the counter, for one request at a time (no other request writes the
    table between the check and the increment of this one).  With [used]
    the requests counted in the current 240-minute window, the request
    passes iff [used < 3].  A request that passes is counted: the row of the
    user then holds one request more than were counted in the window current
    at the increment, in the same window, or one request in a new window
    that starts at the increment if the user had no row or the window of
    the row has ended; the header X-Paywall-Requests-Used is [used + 1]; no
    other row changes.  A request that does not pass is answered 403 with a
    positive [retryAfterSeconds] and the header X-Paywall-Requests-Used equal
    to [used], and leaves the table as it was.  Once the window of the
    user's row has ended the request passes and the row restarts at one
    request in a new window.  For an entitled user the table is never
    written. *)
Theorem aiPaywall_free_tier_quota
    (w : PaywallWorld) (env : Environment) (req : PaywallRequest) (u : jsstring)
    (Hu : requestUserId req = Some u)
    (Hdb : databaseUp env = true) :
  let subscribed :=
    RevenueCat.isActive
      (RevenueCat.checkSubscription (apiKey w) (subscriptionCache w)
         (nowCacheCheck env) (nowReply env) (providerReply env) u
         (if decide (headerRefresh req = Some (str "true")) then true else false)).1 in
  let used := countedRequests (usage w) (nowPaywallCheck env) u in
  let r := (aiPaywallMiddleware w env req).1 in
  let w' := (aiPaywallMiddleware w env req).2 in
  (subscribed = true -> passed r = true /\ usage w' = usage w)
  /\
  (subscribed = false ->
     (passed r = true <-> used < 3)
     /\ (used < 3 ->
           (exists h, r = Next (Some h) /\ xRequestsUsed h = used + 1)
           /\ usage w' !! u
              = Some (match usage w !! u with
                      | Some record =>
                          if windowStart record + 240 * 60 * 1000 <=? nowIncrement env
                          then {| requestCount := 1;
                                  windowStart := nowIncrement env |}
                          else {| requestCount := requestCount record + 1;
                                  windowStart := windowStart record |}
                      | None => {| requestCount := 1;
                                   windowStart := nowIncrement env |}
                      end)
           /\ countedRequests (usage w') (nowIncrement env) u
              = countedRequests (usage w) (nowIncrement env) u + 1
           /\ (forall u', u' <> u -> usage w' !! u' = usage w !! u'))
     /\ (3 <= used ->
           usage w' = usage w
           /\ exists h retry,
                r = Respond403 h (str "PAYWALL_LIMIT_EXCEEDED") used (Some 3) retry
                /\ 0 < retry
                /\ retryAfterHeader h = Some retry
                /\ xRequestsUsed h = used)
     /\ (forall record,
           usage w !! u = Some record ->
           windowStart record + 240 * 60 * 1000 <= nowPaywallCheck env ->
           nowPaywallCheck env <= nowIncrement env ->
           passed r = true
           /\ usage w' !! u
              = Some {| requestCount := 1; windowStart := nowIncrement env |})).
Proof.
  cbn zeta. unfold aiPaywallMiddleware. rewrite Hu.
  destruct (RevenueCat.checkSubscription _ _ _ _ _ _ _) as [st cache'] eqn:Hsub.
  cbn [fst snd]. rewrite Hdb.
  destruct (RevenueCat.isActive st) eqn:Hact; cbn [negb andb usage].
  - split; [intros _ | discriminate]. cbn. split; reflexivity.
  - split; [discriminate | intros _].
    pose proof (checkAiPaywall_free (usage w) (nowPaywallCheck env) u) as Hfree.
    cbn zeta in Hfree. destruct Hfree as (Hused & Hlim & Hiff & Hretry).
    destruct (allowed (checkAiPaywall (usage w) (nowPaywallCheck env) u false))
      eqn:Hal; cbn [negb fst snd passed usage].
    + assert (countedRequests (usage w) (nowPaywallCheck env) u < 3)
        by (apply Hiff; reflexivity).
      split; [tauto |]. split; [| split; [lia |]].
      * intros _. split.
        { eexists. split; [reflexivity |]. cbn [xRequestsUsed]. rewrite Hused.
          reflexivity. }
        split; [apply incrementAiUsage_counter |].
        split; [apply incrementAiUsage_counts |].
        intros u' Hne. now apply incrementAiUsage_others.
      * intros record Hrec Hend Hclock. split; [reflexivity |].
        rewrite incrementAiUsage_counter, Hrec.
        change windowDurationMs with (240 * 60 * 1000).
        destruct (windowStart record + 240 * 60 * 1000 <=? nowIncrement env) eqn:E;
          [reflexivity | apply Z.leb_gt in E; lia].
    + assert (~ countedRequests (usage w) (nowPaywallCheck env) u < 3)
        by (intros Hlt; apply Hiff in Hlt; discriminate).
      split; [split; [discriminate | tauto] |]. split; [lia |]. split.
      * intros _. split; [reflexivity |].
        destruct (Hretry eq_refl) as (s & Hs & Hpos).
        rewrite Hs, Hused, Hlim.
        destruct s as [| p | p]; try lia.
        eexists. eexists. split; [reflexivity |].
        cbn [retryAfterHeader xRequestsUsed]. repeat split.
      * intros record Hrec Hend Hclock. exfalso.
        unfold countedRequests in H. rewrite Hrec in H.
        change windowDurationMs with (240 * 60 * 1000) in H.
        destruct (windowStart record + 240 * 60 * 1000 <=? nowPaywallCheck env)
          eqn:E; [lia | apply Z.leb_gt in E; lia].
Qed.

(** A free user with two counted requests in a window that began at 0 asks
    again one second later, while the provider answers that no entitlement is
    active: the request passes and is counted as the third.  The next
    request of the user is refused and is not counted. *)
Lemma aiPaywall_free_tier_quota_witness :
  let world n := {| apiKey := true; subscriptionCache := ∅;
                    usage := {[ str "u" := {| requestCount := n; windowStart := 0 |} ]} |} in
  let env := {| nowCacheCheck := 1000; nowReply := 1001; nowPaywallCheck := 1002;
                nowIncrement := 1003;
                providerReply := RevenueCat.HttpOk RevenueCat.inactiveStatus;
                databaseUp := true |} in
  let req := {| bodyUserId := Some (str "u"); headerUserId := None;
                headerRefresh := None |} in
  (passed (aiPaywallMiddleware (world 2) env req).1 = true
   /\ usage (aiPaywallMiddleware (world 2) env req).2 !! str "u"
      = Some {| requestCount := 3; windowStart := 0 |})
  /\ (passed (aiPaywallMiddleware (world 3) env req).1 = false
      /\ usage (aiPaywallMiddleware (world 3) env req).2 = usage (world 3)).
Proof.
  intros world env req. split.
  - destruct (aiPaywall_free_tier_quota (world 2) env req (str "u") eq_refl eq_refl)
      as [_ Hfree].
    destruct (Hfree eq_refl) as (Hiff & Hallowed & _).
    assert (Hlt : countedRequests (usage (world 2)) (nowPaywallCheck env) (str "u") < 3)
      by (vm_compute; reflexivity).
    split; [apply Hiff, Hlt |].
    destruct (Hallowed Hlt) as (_ & Hrow & _). exact Hrow.
  - destruct (aiPaywall_free_tier_quota (world 3) env req (str "u") eq_refl eq_refl)
      as [_ Hfree].
    destruct (Hfree eq_refl) as (Hiff & _ & Hdenied & _).
    destruct Hdenied as (Hsame & _); [vm_compute; discriminate |].
    split; [| exact Hsame].
    destruct (passed (aiPaywallMiddleware (world 3) env req).1); [| reflexivity].
    exfalso. pose proof (proj1 Hiff eq_refl) as Hlt. vm_compute in Hlt.
    discriminate.
Defined.

(** C10: a request to POST /analyze/stream with no [userId] in its body and
    no [x-user-id] header is answered 401 [USER_ID_REQUIRED] by the
    middleware, whatever the other fields of the body are (valid or not), and
    the subscription cache and the usage table are left as they were. *)
Theorem analyzeStream_requires_user_id
    (w : PaywallWorld) (env : Environment) (req : AnalyzeStream.AnalyzeRequest)
    (Hbody : bodyUserId (AnalyzeStream.identity req) = None)
    (Hheader : headerUserId (AnalyzeStream.identity req) = None) :
  AnalyzeStream.postAnalyzeStream w env req
  = (AnalyzeStream.ByMiddleware (Respond401 (str "USER_ID_REQUIRED")), w).
Proof.
  unfold AnalyzeStream.postAnalyzeStream, aiPaywallMiddleware, requestUserId.
  rewrite Hbody, Hheader. reflexivity.
Qed.

(** A request whose body fails the validation of the handler (no sentence)
    and carries no user id: the answer is the 401 of the middleware, not the
    400 of the handler. *)
Lemma analyzeStream_requires_user_id_witness :
  let w := {| apiKey := true; subscriptionCache := ∅; usage := ∅ |} in
  let env := {| nowCacheCheck := 0; nowReply := 0; nowPaywallCheck := 0;
                nowIncrement := 0; providerReply := RevenueCat.NetworkError;
                databaseUp := true |} in
  let req :=
    {| AnalyzeStream.body :=
         {| AnalyzeStream.sentence := AnalyzeStream.Missing;
            AnalyzeStream.targetWord := AnalyzeStream.Str (str "run");
            AnalyzeStream.targetLanguage := AnalyzeStream.Str (str "en");
            AnalyzeStream.nativeLanguage := AnalyzeStream.Other true None;
            AnalyzeStream.contextBefore := AnalyzeStream.Missing;
            AnalyzeStream.contextAfter := AnalyzeStream.Missing |};
       AnalyzeStream.identity :=
         {| bodyUserId := None; headerUserId := None; headerRefresh := None |} |} in
  AnalyzeStream.validate (AnalyzeStream.body req) = Some (str "sentence is required")
  /\ AnalyzeStream.postAnalyzeStream w env req
     = (AnalyzeStream.ByMiddleware (Respond401 (str "USER_ID_REQUIRED")), w).
Proof.
  intros w env req. split; [reflexivity |].
  apply (analyzeStream_requires_user_id w env req); reflexivity.
Defined.

End PaywallFacts.

(** ** The subscription cache *)
Module RevenueCatFacts.
Import JsString RevenueCat.
Local Open Scope Z_scope.

(** Only active results are in the cache: [checkSubscription] keeps it so. *)
Lemma checkSubscription_caches_only_active
    (apiKey : bool) (cache : SubscriptionCache) (now nowAfter : Z)
    (reply : ProviderReply) (u : jsstring) (force : bool) :
  (forall v e, cache !! v = Some e -> isActive (status e) = true) ->
  forall v e,
    (checkSubscription apiKey cache now nowAfter reply u force).2 !! v = Some e ->
    isActive (status e) = true.
Proof.
  intros Hinv v e. unfold checkSubscription.
  assert (Hdel : forall e', delete u cache !! v = Some e' -> isActive (status e') = true).
  { intros e' He'. apply lookup_delete_Some in He' as [_ He']. eauto. }
  assert (Hfetch : forall c : SubscriptionCache,
             (forall e', c !! v = Some e' -> isActive (status e') = true) ->
             (match reply with
              | HttpOk parsed =>
                  if isActive parsed
                  then (parsed, <[u := {| status := parsed; cachedAt := nowAfter |}]> c)
                  else (parsed, delete u c)
              | _ => (inactiveStatus, c)
              end).2 !! v = Some e -> isActive (status e) = true).
  { intros c Hc. destruct reply as [| h | | parsed]; cbn; try apply Hc.
    destruct (isActive parsed) eqn:Ha; cbn.
    - intros He. apply lookup_insert_Some in He as [[_ <-] | [_ He]]; [exact Ha | eauto].
    - intros He. apply lookup_delete_Some in He as [_ He]. eauto. }
  destruct apiKey; cbn; [| apply Hinv].
  destruct force; cbn.
  - apply Hfetch. exact Hdel.
  - destruct (cache !! u) as [cached |] eqn:Hc.
    + destruct (now - cachedAt cached <? CACHE_TTL_MS); cbn.
      * apply Hinv.
      * apply Hfetch, Hinv.
    + apply Hfetch, Hinv.
Qed.

(** A cached result is served, without asking the provider, for five minutes
    (300000 ms) from the moment it was cached; after that the answer is the
    one given to a user with no entry. *)
Lemma checkSubscription_serves_cache_for_five_minutes
    (cache : SubscriptionCache) (now nowAfter : Z)
    (reply : ProviderReply) (u : jsstring) (cached : CacheEntry) :
  cache !! u = Some cached ->
  (now - cachedAt cached < 300000 ->
   checkSubscription true cache now nowAfter reply u false = (status cached, cache))
  /\ (300000 <= now - cachedAt cached ->
      (checkSubscription true cache now nowAfter reply u false).1
      = (checkSubscription true (delete u cache) now nowAfter reply u false).1).
Proof.
  intros Hc. unfold checkSubscription. cbn. rewrite Hc, lookup_delete_eq.
  change CACHE_TTL_MS with 300000. split; intros Ht.
  - apply Z.ltb_lt in Ht. rewrite Ht. reflexivity.
  - apply Z.ltb_ge in Ht. rewrite Ht.
    destruct reply as [| h | | parsed]; cbn; auto.
    destruct (isActive parsed); reflexivity.
Qed.

(** A reply without an active entitlement is not cached and clears the
    user's entry; an error of the provider adds nothing to the cache. *)
Lemma checkSubscription_inactive_or_error
    (cache : SubscriptionCache) (now nowAfter : Z) (u : jsstring) (parsed : SubscriptionStatus) :
  (isActive parsed = false ->
   (checkSubscription true cache now nowAfter (HttpOk parsed) u true).2 !! u = None)
  /\ (forall reply force,
        (reply = NetworkError \/ reply = ParseFailure \/ exists h, reply = HttpNotOk h) ->
        let r := checkSubscription true cache now nowAfter reply u force in
        (isActive r.1 = true -> r = ((r.1, cache)) /\ force = false)
        /\ r.2 ⊆ cache).
Proof.
  split.
  - intros Hp. unfold checkSubscription. cbn. rewrite Hp. cbn.
    apply lookup_delete_eq.
  - intros reply force Hr. cbn zeta. unfold checkSubscription. cbn.
    assert (Hfetch : forall c : SubscriptionCache,
               match reply with
               | HttpOk p =>
                   if isActive p
                   then (p, <[u := {| status := p; cachedAt := nowAfter |}]> c)
                   else (p, delete u c)
               | _ => (inactiveStatus, c)
               end = (inactiveStatus, c)).
    { intros c. destruct Hr as [-> | [-> | [h ->]]]; reflexivity. }
    destruct force; cbn.
    + rewrite Hfetch. cbn. split; [discriminate | apply delete_subseteq].
    + destruct (cache !! u) as [cached |].
      * destruct (now - cachedAt cached <? CACHE_TTL_MS); cbn.
        -- split; [auto | reflexivity].
        -- rewrite Hfetch. cbn. split; [discriminate | reflexivity].
      * rewrite Hfetch. cbn. split; [discriminate | reflexivity].
Qed.

(** C7, where the code leaves the claim: an error of the provider does not
    let the request through.  A user whose three free requests are used, with
    nothing cached, asks while the provider answers HTTP 500:
    [checkSubscription] reports the user as not entitled and caches nothing,
    and the middleware answers 403, where a database error in the same
    middleware would call [next()]. *)
Theorem provider_error_meets_quota_wall :
  let w := {| Paywall.apiKey := true; Paywall.subscriptionCache := ∅;
              Paywall.usage :=
                {[ str "u" := {| AiPaywall.requestCount := 3;
                                 AiPaywall.windowStart := 0 |} ]} |} in
  let env := fun reply dbUp =>
    {| Paywall.nowCacheCheck := 1000; Paywall.nowReply := 1200;
       Paywall.nowPaywallCheck := 1300; Paywall.nowIncrement := 1400;
       Paywall.providerReply := reply; Paywall.databaseUp := dbUp |} in
  let req := {| Paywall.bodyUserId := Some (str "u"); Paywall.headerUserId := None;
                Paywall.headerRefresh := None |} in
  Paywall.aiPaywallMiddleware w (env (HttpNotOk 500) true) req
  = (Paywall.Respond403
       {| Paywall.xRequestsUsed := 3; Paywall.xRequestsLimit := Some 3;
          Paywall.xHasSubscription := false;
          Paywall.retryAfterHeader := Some 14399 |}
       (str "PAYWALL_LIMIT_EXCEEDED") 3 (Some 3) 14399, w)
  /\ Paywall.passed
       (Paywall.aiPaywallMiddleware w (env NetworkError true) req).1 = false
  /\ Paywall.passed
       (Paywall.aiPaywallMiddleware w (env (HttpNotOk 500) false) req).1 = true.
Proof. vm_compute. repeat split. Qed.

End RevenueCatFacts.

(** ** The English gate of the pipeline *)
Module JobProcessorFacts.
Import JsString SentenceDetector JobProcessor.

Lemma commonEnglishWords_NoDup : NoDup commonEnglishWords.
Proof.
  apply (bool_decide_unpack (NoDup commonEnglishWords)).
  vm_compute. exact I.
Qed.

Lemma wordPresent_nonempty (allText w : jsstring) :
  wordPresent allText w = true -> 0 < length allText.
Proof.
  destruct allText as [| c r]; [| simpl; lia].
  unfold wordPresent, endsWith. simpl.
  destruct w as [| a w']; simpl.
  - discriminate.
  - destruct (rev w' ++ [a]) eqn:E.
    + destruct (rev w'); discriminate.
    + simpl. destruct (rev (w' ++ str " ")) eqn:E2; simpl; discriminate.
Qed.

(** [englishWordCount] counts the words of the list that are present, each
    once. *)
Lemma englishWordCount_at_least (allText : jsstring) (n : nat) :
  n <= englishWordCount allText
  <-> exists ws : list jsstring,
        NoDup ws /\ n <= length ws
        /\ forall w, w ∈ ws -> w ∈ commonEnglishWords /\ wordPresent allText w = true.
Proof.
  unfold englishWordCount. split.
  - intros Hn.
    exists (filter (fun word => wordPresent allText word = true) commonEnglishWords).
    split; [apply NoDup_filter, commonEnglishWords_NoDup |].
    split; [exact Hn |].
    intros w Hw. apply list_elem_of_filter in Hw. tauto.
  - intros (ws & Hnd & Hlen & Hall).
    etransitivity; [exact Hlen |].
    apply submseteq_length, NoDup_submseteq; [exact Hnd |].
    intros w Hw. apply list_elem_of_filter. destruct (Hall w Hw). tauto.
Qed.

(** The comparison of the ratio with 0.2, on the two lengths. *)
Lemma nonLatinRatio_below (allText : jsstring) :
  0 < length allText ->
  (Qltb (nonLatinRatio allText) (2 # 10) = true
   <-> 5 * length (nonLatinChars allText) < length allText).
Proof.
  intros Hpos. unfold nonLatinRatio, Qltb.
  rewrite negb_true_iff, <- not_true_iff_false, Qle_bool_iff.
  destruct (nonLatinChars allText) as [| c r] eqn:E.
  - simpl. split; [intros _; lia | intros _ H; vm_compute in H; apply H; reflexivity].
  - set (n := length (c :: r)). set (len := length allText) in *.
    assert (Hn : 0 < n) by (subst n; simpl; lia).
    unfold Qle, Qdiv, Qmult, Qinv, inject_Z. cbn [Qnum Qden].
    destruct (Z.of_nat len) as [| p | p] eqn:Elen; try lia.
    cbn [Qnum Qden]. rewrite !Z.mul_1_r, Pos.mul_1_l.
    change (Z.pos 10) with 10%Z. rewrite <- Elen. lia.
Qed.

(** C6, as the code counts: a transcription is accepted iff at least five
    different words of the fixed list are present in the joined lowercase
    text (each between spaces, or at its start or end next to a space) and
    fewer than one code unit in five is above U+007F; a transcription that is
    not accepted makes the pipeline skip the video. *)
Theorem isEnglishTranscription_counts_distinct_words
    (findMatchingSegment :
       list CaptionSegment -> jsstring -> Normalize.QueryType -> option nat)
    (videoId normalizedQuery : jsstring) (queryType : Normalize.QueryType)
    (captions : list CaptionSegment) :
  (isEnglishTranscription captions = true
   <-> (exists ws : list jsstring,
          NoDup ws /\ 5 <= length ws
          /\ forall w, w ∈ ws ->
               w ∈ commonEnglishWords
               /\ wordPresent (allTextOf captions) w = true)
       /\ 5 * length (nonLatinChars (allTextOf captions))
          < length (allTextOf captions))
  /\ (isEnglishTranscription captions = false ->
      processCaptions findMatchingSegment videoId captions normalizedQuery queryType
      = SkipNotEnglish).
Proof.
  split.
  - rewrite <- englishWordCount_at_least.
    assert (Hne : 5 <= englishWordCount (allTextOf captions) ->
                  0 < length (allTextOf captions)).
    { intros H5. apply englishWordCount_at_least in H5 as (ws & _ & Hlen & Hall).
      destruct ws as [| w ws']; [simpl in Hlen; lia |].
      destruct (Hall w) as [_ Hp]; [left |].
      eapply wordPresent_nonempty, Hp. }
    unfold isEnglishTranscription.
    destruct (length captions =? 0) eqn:E0.
    + apply Nat.eqb_eq in E0. destruct captions; [| discriminate].
      split; [discriminate |]. intros [H5 _]. apply Hne in H5.
      vm_compute in H5. lia.
    + rewrite andb_true_iff, Nat.leb_le. split.
      * intros [H5 Hr]. split; [exact H5 |].
        apply nonLatinRatio_below; [apply Hne, H5 | exact Hr].
      * intros [H5 Hr]. split; [exact H5 |].
        apply nonLatinRatio_below; [apply Hne, H5 | exact Hr].
  - intros Hno. unfold processCaptions. rewrite Hno. reflexivity.
Qed.

(** A transcription with the words [the], [is], [a], [of] and [and]. *)
Lemma isEnglishTranscription_counts_distinct_words_witness :
  let captions :=
    [ {| text := str "The cat is a friend of mine and yours";
         start := 0%Q; duration := 3%Q |} ] in
  isEnglishTranscription captions = true
  /\ 5 * length (nonLatinChars (allTextOf captions)) < length (allTextOf captions).
Proof.
  intros captions.
  destruct (isEnglishTranscription_counts_distinct_words
              (fun _ _ _ => None) (str "v1") (str "cat") Normalize.word captions)
    as [Hiff _].
  split; [reflexivity |].
  apply Hiff. reflexivity.
Defined.

(** C6 as stated counts occurrences, and fails: six occurrences of [the] and
    no character above U+007F, yet the transcription is not accepted. *)
Lemma isEnglishTranscription_occurrences_counterexample :
  let captions :=
    [ {| text := str "the the the the the the"; start := 0%Q; duration := 3%Q |} ] in
  5 <= functionWordOccurrences (allTextOf captions)
  /\ Qltb (nonLatinRatio (allTextOf captions)) (2 # 10) = true
  /\ isEnglishTranscription captions = false.
Proof. vm_compute. repeat split; lia. Qed.

End JobProcessorFacts.

(** ** The sentence boundary detector *)
Module SentenceDetectorFacts.
Import JsString SentenceDetector.

(** *** Substrings, [trim] and [join] *)

Lemma startsWith_app (p b : jsstring) : startsWith (p ++ b) p = true.
Proof.
  induction p as [| c p IH]; simpl; [destruct b; reflexivity |].
  destruct (decide (c = c)); [exact IH | congruence].
Qed.

Lemma includes_nil (s : jsstring) : includes s [] = true.
Proof. destruct s; reflexivity. Qed.

Lemma includes_prefix (s p : jsstring) :
  startsWith s p = true -> includes s p = true.
Proof. intros H. destruct s; cbn [includes]; rewrite H; reflexivity. Qed.

Lemma includes_middle (a p b : jsstring) : includes (a ++ p ++ b) p = true.
Proof.
  induction a as [| c a IH].
  - cbn [app]. apply includes_prefix, startsWith_app.
  - cbn [app includes]. rewrite IH. apply orb_true_r.
Qed.

Lemma trimStart_suffix (s : jsstring) : exists w, s = w ++ trimStart s.
Proof.
  induction s as [| c s [w IH]]; [exists []; reflexivity |].
  simpl. destruct (isWhiteSpace c).
  - exists (c :: w). simpl. rewrite <- IH. reflexivity.
  - exists []. reflexivity.
Qed.

Lemma trimStart_head (s : jsstring) (c : ascii) (r : jsstring) :
  trimStart s = c :: r -> isWhiteSpace c = false.
Proof.
  induction s as [| x s IH]; simpl; [discriminate |].
  destruct (isWhiteSpace x) eqn:E; [exact IH |].
  intros [= <- _]. exact E.
Qed.

(** A piece that starts with a visible character survives [trimStart]. *)
Lemma trimStart_keeps (a b r : jsstring) (c : ascii) :
  isWhiteSpace c = false ->
  exists a', trimStart (a ++ (c :: r) ++ b) = a' ++ (c :: r) ++ b.
Proof.
  intros Hc. induction a as [| x a [a' IH]].
  - exists []. simpl. rewrite Hc. reflexivity.
  - simpl. destruct (isWhiteSpace x).
    + exists a'. exact IH.
    + exists (x :: a). reflexivity.
Qed.

Lemma trim_decompose (s : jsstring) : exists w1 w2, s = w1 ++ trim s ++ w2.
Proof.
  destruct (trimStart_suffix s) as [w1 H1].
  destruct (trimStart_suffix (rev (trimStart s))) as [w2 H2].
  exists w1, (rev w2). unfold trim, trimEnd.
  rewrite <- rev_app_distr, <- H2, rev_involutive. exact H1.
Qed.

Lemma trim_last (s : jsstring) (c : ascii) (r : jsstring) :
  rev (trim s) = c :: r -> isWhiteSpace c = false.
Proof.
  unfold trim, trimEnd. rewrite rev_involutive. apply trimStart_head.
Qed.

Lemma trim_first (s : jsstring) (c : ascii) (r : jsstring) :
  trim s = c :: r -> isWhiteSpace c = false.
Proof.
  unfold trim, trimEnd. intros H.
  destruct (trimStart s) as [| x u] eqn:Eu; [discriminate |].
  pose proof (trimStart_head _ _ _ Eu) as Hx.
  simpl in H.
  destruct (trimStart_keeps (rev u) [] [] x Hx) as [a' Ha'].
  rewrite app_nil_r in Ha'. simpl in Ha'. rewrite Ha' in H.
  rewrite rev_app_distr in H. simpl in H. injection H as <- _. exact Hx.
Qed.

(** A trimmed piece inside a string is still inside the trimmed string. *)
Lemma trim_keeps_trimmed (a b s : jsstring) :
  exists a' b', trim (a ++ trim s ++ b) = a' ++ trim s ++ b'.
Proof.
  destruct (trim s) as [| c r] eqn:Et.
  - exists (trim (a ++ b)), []. simpl. rewrite !app_nil_r. reflexivity.
  - pose proof (trim_first _ _ _ Et) as Hc.
    destruct (trimStart_keeps a b r c Hc) as [a' Ha'].
    unfold trim at 1. rewrite Ha'. unfold trimEnd.
    destruct (rev (c :: r)) as [| d q] eqn:Er.
    { apply (f_equal (@length _)) in Er. rewrite length_rev in Er. discriminate. }
    assert (Hd : isWhiteSpace d = false).
    { apply (trim_last s d q). rewrite Et. exact Er. }
    rewrite !rev_app_distr, Er, <- app_assoc.
    destruct (trimStart_keeps (rev b) (rev a') q d Hd) as [b' Hb'].
    rewrite Hb'. exists a', (rev b').
    rewrite !rev_app_distr, rev_involutive, <- Er, rev_involutive, <- app_assoc.
    reflexivity.
Qed.

Lemma join_middle (sep : jsstring) (l1 l2 : list jsstring) (t : jsstring) :
  exists a b, join sep (l1 ++ t :: l2) = a ++ t ++ b.
Proof.
  induction l1 as [| p l1 (a & b & IH)].
  - destruct l2 as [| q l2].
    + exists [], []. simpl. rewrite app_nil_r. reflexivity.
    + exists [], (sep ++ join sep (q :: l2)). reflexivity.
  - exists (p ++ sep ++ a), b. simpl app.
    change (join sep (p :: l1 ++ t :: l2))
      with (match l1 ++ t :: l2 with
            | [] => p
            | _ :: _ => p ++ sep ++ join sep (l1 ++ t :: l2)
            end).
    destruct (l1 ++ t :: l2) eqn:E; [destruct l1; discriminate |].
    rewrite IH, <- !app_assoc. reflexivity.
Qed.

(** *** The two scans *)

Lemma scanBackward_bounded (segments : list CaptionSegment) (n k bound : nat) :
  n <= length segments -> n <= bound -> k <= bound ->
  exists s, scanBackward segments n k = Some s /\ s <= bound.
Proof.
  revert k. induction n as [| i IH]; intros k Hn Hb Hk; simpl.
  - exists k. split; [reflexivity | exact Hk].
  - destruct (lookup_lt_is_Some_2 segments i) as [seg Hseg]; [lia |].
    rewrite Hseg. simpl.
    destruct (endsSentence (text seg)).
    + exists (i + 1). split; [reflexivity | lia].
    + apply IH; [lia | lia |]. destruct (i =? 0); lia.
Qed.

Lemma scanForward_bounds (rest : list CaptionSegment) (i k : nat) :
  rest <> [] ->
  i <= scanForward rest i k < i + length rest.
Proof.
  revert i k. induction rest as [| seg rest IH]; intros i k Hne; [congruence |].
  simpl. destruct (endsSentence (text seg)); [lia |].
  destruct rest as [| seg' rest'].
  - simpl. lia.
  - specialize (IH (S i) i ltac:(discriminate)). simpl length in *. lia.
Qed.

Lemma mapM_texts (segments : list CaptionSegment) (n s : nat) :
  s + n <= length segments ->
  mapM (fun i => text <$> segments !! i) (seq s n)
  = Some (map text (take n (drop s segments))).
Proof.
  revert s. induction n as [| n IH]; intros s Hlen; [reflexivity |].
  destruct (lookup_lt_is_Some_2 segments s) as [seg Hseg]; [lia |].
  rewrite (drop_S _ _ _ Hseg). cbn [seq take map mapM].
  rewrite Hseg. cbn. rewrite IH by lia. reflexivity.
Qed.

(** What the detector returns for a valid match index: it does return, and
    the result is read off the segments at the two scanned indices. *)
Lemma detectSentenceBoundary_returns
    (segments : list CaptionSegment) (m : nat) (sm : CaptionSegment) :
  segments !! m = Some sm ->
  exists s ss se,
    sentenceStart segments m = Some s
    /\ s <= m <= sentenceEnd segments m
    /\ segments !! s = Some ss
    /\ segments !! sentenceEnd segments m = Some se
    /\ detectSentenceBoundary segments m
       = Some {| startTime := start ss;
                 endTime := (start se + duration se + 2)%Q;
                 caption :=
                   trim (join (str " ")
                           (map text (take (sentenceEnd segments m + 1 - s)
                                           (drop s segments)))) |}.
Proof.
  intros Hm. pose proof (lookup_lt_Some _ _ _ Hm) as Hlt.
  destruct (scanBackward_bounded segments m m m) as (s & Hs & Hsm); try lia.
  assert (He : m <= sentenceEnd segments m < length segments).
  { unfold sentenceEnd.
    pose proof (scanForward_bounds (drop m segments) m m) as Hb.
    rewrite length_drop in Hb.
    assert (drop m segments <> []).
    { intros E. apply (f_equal (@length _)) in E. rewrite length_drop in E.
      simpl in E. lia. }
    specialize (Hb H). lia. }
  destruct (lookup_lt_is_Some_2 segments s) as [ss Hss]; [lia |].
  destruct (lookup_lt_is_Some_2 segments (sentenceEnd segments m)) as [se Hse];
    [lia |].
  exists s, ss, se. repeat split; try assumption; try lia.
  unfold detectSentenceBoundary. unfold sentenceStart in *. rewrite Hs. cbn.
  rewrite mapM_texts by lia. cbn. rewrite Hss. cbn. rewrite Hse. reflexivity.
Qed.

(** C5, as the code has it.  For every caption list and every valid match
    index the detector returns; with [start <= m <= end] the two scanned
    indices, [startTime] is [segments[start].start], [endTime] is
    [segments[end].start + segments[end].duration + 2], and the caption
    contains the matched segment's text, trimmed.  If the captions are in time
    order, the interval contains the matched segment's time range. *)
Theorem detectSentenceBoundary_closure
    (segments : list CaptionSegment) (m : nat) (sm : CaptionSegment)
    (Hm : segments !! m = Some sm) :
  exists b s ss se,
    detectSentenceBoundary segments m = Some b
    /\ sentenceStart segments m = Some s
    /\ s <= m <= sentenceEnd segments m
    /\ segments !! s = Some ss
    /\ segments !! sentenceEnd segments m = Some se
    /\ startTime b = start ss
    /\ endTime b = (start se + duration se + 2)%Q
    /\ includes (caption b) (trim (text sm)) = true
    /\ (timeOrdered segments ->
        (startTime b <= start sm)%Q
        /\ (start sm + duration sm <= endTime b)%Q).
Proof.
  destruct (detectSentenceBoundary_returns segments m sm Hm)
    as (s & ss & se & Hs & Hsme & Hss & Hse & Hb).
  eexists. exists s, ss, se.
  split; [exact Hb |]. split; [exact Hs |]. split; [exact Hsme |].
  split; [exact Hss |]. split; [exact Hse |]. cbn [startTime endTime caption].
  split; [reflexivity |]. split; [reflexivity |]. split.
  - set (e := sentenceEnd segments m) in *.
    assert (Hpart : take (e + 1 - s) (drop s segments) !! (m - s) = Some sm).
    { rewrite lookup_take_lt by lia. rewrite lookup_drop.
      replace (s + (m - s)) with m by lia. exact Hm. }
    rewrite <- (take_drop_middle _ _ _ Hpart), map_app. cbn [map].
    destruct (join_middle (str " ")
                (map text (take (m - s) (take (e + 1 - s) (drop s segments))))
                (map text (drop (S (m - s)) (take (e + 1 - s) (drop s segments))))
                (text sm)) as (a & b & ->).
    destruct (trim_decompose (text sm)) as (w1 & w2 & Hw).
    rewrite Hw at 1.
    replace (a ++ (w1 ++ trim (text sm) ++ w2) ++ b)
      with ((a ++ w1) ++ trim (text sm) ++ (w2 ++ b))
      by (rewrite <- !app_assoc; reflexivity).
    destruct (trim_keeps_trimmed (a ++ w1) (w2 ++ b) (text sm)) as (a' & b' & ->).
    apply includes_middle.
  - intros Hord.
    destruct (Hord s m ss sm) as [H1 _]; [lia | exact Hss | exact Hm |].
    destruct (Hord m (sentenceEnd segments m) sm se) as [_ H2];
      [apply Hsme | exact Hm | exact Hse |].
    split; [exact H1 | lra].
Qed.

(** The theorem on three captions in time order; the match is the second,
    with blanks around its text. *)
Lemma detectSentenceBoundary_closure_witness :
  let seg t s d := {| text := str t; start := s; duration := d |} in
  let segments := [seg "Hello there." 0 2; seg " this is " 2 2; seg "a test." 4 1]%Q in
  exists b,
    detectSentenceBoundary segments 1 = Some b
    /\ caption b = str "this is  a test."
    /\ includes (caption b) (str "this is") = true
    /\ (startTime b <= 2)%Q /\ (2 + 2 <= endTime b)%Q.
Proof.
  intros seg segments.
  destruct (detectSentenceBoundary_closure segments 1 (seg " this is " 2 2)%Q eq_refl)
    as (b & s & ss & se & Hb & _ & _ & _ & _ & _ & _ & Hinc & Htime).
  exists b. split; [exact Hb |].
  assert (Hcap : caption b = str "this is  a test.").
  { vm_compute in Hb. injection Hb as <-. reflexivity. }
  split; [exact Hcap |]. split; [exact Hinc |].
  apply Htime.
  intros i j a c Hij Ha Hc.
  destruct i as [| [| [| i]]]; destruct j as [| [| [| j]]];
    try lia; try discriminate;
    injection Ha as <-; injection Hc as <-; cbn; split; lra.
Defined.

(** C5 as stated fails on a list that is not in time order and whose matched
    text begins with a blank: the interval returned for the first segment is
    [10, 3], which does not contain its range [10, 11], and the caption
    ["b a."] does not contain its text [" b"]. *)
Lemma detectSentenceBoundary_closure_counterexample :
  let seg t s d := {| text := str t; start := s; duration := d |} in
  let segments := [seg " b" 10 1; seg "a." 0 1]%Q in
  detectSentenceBoundary segments 0
  = Some {| startTime := 10%Q; endTime := (0 + 1 + 2)%Q; caption := str "b a." |}
  /\ ~ (10 + 1 <= 0 + 1 + 2)%Q
  /\ includes (str "b a.") (str " b") = false.
Proof.
  split; [reflexivity |]. split; [| reflexivity].
  intros H. vm_compute in H. apply H. reflexivity.
Qed.

End SentenceDetectorFacts.

(** ** The search route and the Result Store *)
Module YoutubeSearchFacts.
Import JsString Normalize YoutubeSearch.

Lemma normalizeQuery_Ok_nonempty (q : jsstring) (r : NormalizedQuery) :
  normalizeQuery q = Ok r -> truthy (Some q) = Some q.
Proof.
  destruct q as [| c q']; [| reflexivity].
  vm_compute. discriminate.
Qed.

Section Route.
Variable generateHash : jsstring -> jsstring.
Variable uuid_in : jsstring -> except jsstring.

Lemma postSearch_keeps_results (st : Stores) (newId : jsstring) (req : SearchRequest) :
  videoExamples (postSearch generateHash uuid_in st newId req).2 = videoExamples st.
Proof.
  unfold postSearch, JobQueue.findJobById.
  repeat (match goal with
          | |- context [match ?x with _ => _ end] => destruct x
          end; try reflexivity).
Qed.

Lemma StoreStep_keeps_rows (st st' : Stores) (h : jsstring)
    (seg : VideoExamples.VideoExample) :
  StoreStep generateHash uuid_in st st' ->
  videoExamples st !! h = Some seg -> videoExamples st' !! h = Some seg.
Proof.
  intros Hstep Hrow. destruct Hstep as [st newId req | st row db' Hins | st jobs'].
  - rewrite postSearch_keeps_results. exact Hrow.
  - cbn. unfold VideoExamples.insertVideoExample in Hins.
    destruct (videoExamples st !! VideoExamples.hash row) eqn:E; [discriminate |].
    injection Hins as <-. rewrite lookup_insert_ne; [exact Hrow |].
    intros Heq. rewrite Heq in E. congruence.
  - exact Hrow.
Qed.

Lemma later_keeps_rows (st st' : Stores) (h : jsstring)
    (seg : VideoExamples.VideoExample) :
  rtc (StoreStep generateHash uuid_in) st st' ->
  videoExamples st !! h = Some seg -> videoExamples st' !! h = Some seg.
Proof.
  induction 1 as [| st st1 st2 Hstep _ IH]; [auto |].
  intros Hrow. apply IH. eapply StoreStep_keeps_rows; eassumption.
Qed.

(** C3, as the code has it: the cache answers the requests that carry no
    [jobId].  Once the Result Store holds a segment under the fingerprint of a
    canonical input, every later POST /search without [jobId] whose query
    canonicalizes to that input is answered [completed] with that segment,
    [videoUrl] being https://www.youtube.com/watch?v= followed by its
    [videoId], and leaves both stores as they were: no job record is created,
    so no pipeline run is started.  A request for the same query that carries
    a [jobId] is a poll: it is answered from the Job Store alone, with the
    state of the job that has this id or with 404 when the id is a UUID that
    no job has (an id that is no UUID makes the query of the database throw,
    which the route answers 500), and it leaves both stores as they were. *)
Theorem postSearch_cache_hit
    (st st' : Stores) (newId q n : jsstring) (t : QueryType)
    (seg : VideoExamples.VideoExample) (req : SearchRequest)
    (Hcanon : normalizeQuery q = Ok {| normalized := n; type := t |})
    (Hseg : VideoExamples.findByHash (videoExamples st) (generateHash n) = Some seg)
    (Hlater : rtc (StoreStep generateHash uuid_in) st st')
    (Hquery : query req = Some q) :
  (truthy (jobId req) = None ->
   postSearch generateHash uuid_in st' newId req
   = (CompletedResponse (generateHash n) n
        (VideoExamples.videoId seg)
        (str "https://www.youtube.com/watch?v=" ++ VideoExamples.videoId seg)
        (VideoExamples.startTime seg) (VideoExamples.endTime seg)
        (VideoExamples.caption seg) (VideoExamples.captions seg),
      st'))
  /\ (forall j, truthy (jobId req) = Some j ->
        postSearch generateHash uuid_in st' newId req
        = (match uuid_in j with
           | Ok u =>
               match find (fun job => if decide (JobQueue.id job = u)
                                      then true else false) (jobs st') with
               | Some job => jobResponse job
               | None => ErrorResponse 404 (str "Job not found")
               end
           | Throw msg => internalError msg
           end,
           st')).
Proof.
  split.
  - intros Hpoll. unfold postSearch.
    rewrite Hquery, (normalizeQuery_Ok_nonempty q _ Hcanon), Hpoll, Hcanon.
    cbn [normalized type]. unfold VideoExamples.findByHash in *.
    rewrite (later_keeps_rows st st' _ seg Hlater Hseg). reflexivity.
  - intros j Hpoll. unfold postSearch, JobQueue.findJobById.
    rewrite Hquery, (normalizeQuery_Ok_nonempty q _ Hcanon), Hpoll.
    destruct (uuid_in j) as [u | msg]; [| reflexivity].
    destruct (find _ (jobs st')); reflexivity.
Qed.

End Route.

(** The stored segment of the example: fingerprint of [hello], video [v1]. *)
Lemma postSearch_cache_hit_witness :
  let seg := {| VideoExamples.id := str "row1"; VideoExamples.hash := str "hello";
                VideoExamples.query := str "hello";
                VideoExamples.videoId := str "v1";
                VideoExamples.startTime := 0%Q; VideoExamples.endTime := 3%Q;
                VideoExamples.caption := str "Hello world.";
                VideoExamples.captions := []; VideoExamples.createdAt := 0%Z |} in
  let st := {| videoExamples := {[ str "hello" := seg ]}; jobs := [] |} in
  postSearch (fun x => x) oneUuid st (str "job1")
    {| query := Some (str "HELLO "); jobId := None |}
  = (CompletedResponse (str "hello") (str "hello") (str "v1")
       (str "https://www.youtube.com/watch?v=v1") 0%Q 3%Q (str "Hello world.") [],
     st).
Proof.
  intros seg st.
  refine (proj1 (postSearch_cache_hit (fun x => x) oneUuid st st (str "job1")
                   (str "HELLO ") (str "hello") word seg
                   {| query := Some (str "HELLO "); jobId := None |}
                   _ _ _ _) _);
    [reflexivity | reflexivity | apply rtc_refl | reflexivity | reflexivity].
Defined.

(** C3 as stated fails on a request that carries a [jobId]: with the segment
    of [hello] stored and no job in the Job Store, a request for [hello]
    whose [jobId] is a UUID is answered 404. *)
Lemma postSearch_cache_hit_counterexample :
  let seg := {| VideoExamples.id := str "row1"; VideoExamples.hash := str "hello";
                VideoExamples.query := str "hello";
                VideoExamples.videoId := str "v1";
                VideoExamples.startTime := 0%Q; VideoExamples.endTime := 3%Q;
                VideoExamples.caption := str "Hello world.";
                VideoExamples.captions := []; VideoExamples.createdAt := 0%Z |} in
  let st := {| videoExamples := {[ str "hello" := seg ]}; jobs := [] |} in
  normalizeQuery (str "hello") = Ok {| normalized := str "hello"; type := word |}
  /\ VideoExamples.findByHash (videoExamples st) (str "hello") = Some seg
  /\ postSearch (fun x => x) oneUuid st (str "job1")
       {| query := Some (str "hello");
          jobId := Some (str "3f2c8a6e-1b4d-4c9a-8e57-0d2b6a91c4f3") |}
     = (ErrorResponse 404 (str "Job not found"), st).
Proof. repeat split. Qed.

End YoutubeSearchFacts.

(** ** The stream registry: drivers and timers *)
Module RegistryFacts.
Import JsString StreamManager Registry.

Lemma hasKey_true (k : jsstring) (p : jsstring * ActiveStream) :
  hasKey k p = true <-> p.1 = k.
Proof. unfold hasKey. destruct (decide (p.1 = k)); split; congruence. Qed.

Lemma find_hasKey_Some (k : jsstring) (l : list (jsstring * ActiveStream))
    (p : jsstring * ActiveStream) :
  find (hasKey k) l = Some p -> p ∈ l /\ p.1 = k.
Proof.
  intros H. apply find_some in H as [Hin Hk].
  split; [apply list_elem_of_In, Hin | apply hasKey_true, Hk].
Qed.

Lemma find_hasKey_None (k : jsstring) (l : list (jsstring * ActiveStream)) :
  find (hasKey k) l = None -> k ∉ map fst l.
Proof.
  intros H Hin. apply list_elem_of_fmap in Hin as (p & -> & Hp).
  apply list_elem_of_In in Hp.
  pose proof (find_none _ _ H p Hp) as Hf.
  assert (hasKey p.1 p = true) by (apply hasKey_true; reflexivity). congruence.
Qed.

Lemma find_mapSet_eq (k : jsstring) (v : ActiveStream)
    (l : list (jsstring * ActiveStream)) :
  find (hasKey k) (mapSet k v l) = Some (k, v).
Proof.
  assert (Hkv : hasKey k (k, v) = true) by (apply hasKey_true; reflexivity).
  induction l as [| p r IH]; simpl.
  - rewrite Hkv. reflexivity.
  - destruct (hasKey k p) eqn:E; simpl.
    + rewrite Hkv. reflexivity.
    + rewrite E. exact IH.
Qed.

Lemma find_mapSet_ne (k k' : jsstring) (v : ActiveStream)
    (l : list (jsstring * ActiveStream)) :
  k <> k' -> find (hasKey k') (mapSet k v l) = find (hasKey k') l.
Proof.
  intros Hne.
  assert (Hkv : hasKey k' (k, v) = false).
  { destruct (hasKey k' (k, v)) eqn:E; [| reflexivity].
    apply hasKey_true in E. simpl in E. congruence. }
  induction l as [| p r IH]; simpl.
  - rewrite Hkv. reflexivity.
  - destruct (hasKey k p) eqn:E; simpl.
    + rewrite Hkv. apply hasKey_true in E.
      destruct (hasKey k' p) eqn:E'; [| reflexivity].
      apply hasKey_true in E'. congruence.
    + destruct (hasKey k' p); [reflexivity | exact IH].
Qed.

Lemma keys_mapSet (k : jsstring) (v : ActiveStream)
    (l : list (jsstring * ActiveStream)) :
  map fst (mapSet k v l)
  = match find (hasKey k) l with
    | Some _ => map fst l
    | None => map fst l ++ [k]
    end.
Proof.
  induction l as [| p r IH]; simpl; [reflexivity |].
  destruct (hasKey k p) eqn:E; simpl.
  - apply hasKey_true in E. rewrite E. reflexivity.
  - rewrite IH. destruct (find (hasKey k) r); reflexivity.
Qed.

Lemma NoDup_keys_mapSet (k : jsstring) (v : ActiveStream)
    (l : list (jsstring * ActiveStream)) :
  NoDup (map fst l) -> NoDup (map fst (mapSet k v l)).
Proof.
  intros Hnd. rewrite keys_mapSet.
  destruct (find (hasKey k) l) eqn:E; [exact Hnd |].
  apply NoDup_app. split; [exact Hnd |]. split; [| apply NoDup_singleton].
  intros x Hx Hk. apply list_elem_of_singleton in Hk as ->.
  exact (find_hasKey_None _ _ E Hx).
Qed.

Lemma Forall_mapSet (P : jsstring * ActiveStream -> Prop) (k : jsstring)
    (v : ActiveStream) (l : list (jsstring * ActiveStream)) :
  Forall P l -> P (k, v) -> Forall P (mapSet k v l).
Proof.
  intros Hl Hv. induction Hl as [| p r Hp Hr IH]; simpl.
  - constructor; [exact Hv | constructor].
  - destruct (hasKey k p); constructor; assumption.
Qed.

Lemma NoDup_keys_filter (Q : jsstring * ActiveStream -> Prop)
    `{!forall p, Decision (Q p)} (l : list (jsstring * ActiveStream)) :
  NoDup (map fst l) -> NoDup (map fst (filter Q l)).
Proof.
  induction l as [| p r IH]; [intros; constructor |].
  simpl. intros Hnd. apply NoDup_cons in Hnd as [Hp Hr].
  rewrite filter_cons. destruct (decide (Q p)); [| apply IH, Hr].
  simpl. apply NoDup_cons. split; [| apply IH, Hr].
  intros Hin. apply Hp.
  apply list_elem_of_fmap in Hin as (y & Hy & Hin).
  apply list_elem_of_filter in Hin as [_ Hin].
  apply list_elem_of_fmap. exists y. split; assumption.
Qed.


Lemma started_filter (Q : jsstring * ActiveStream -> Prop)
    `{!forall p, Decision (Q p)} (m : Manager) :
  started m ->
  started {| streams := filter Q (streams m); connections := connections m |}.
Proof.
  intros [Hnd Hall]. split; cbn.
  - apply NoDup_keys_filter, Hnd.
  - apply JsStringFacts.Forall_filter_keeps, Hall.
Qed.

Lemma started_lookup (m : Manager) (k : jsstring) (s : ActiveStream) :
  started m -> getStream m k = Some s -> wellStarted (k, s).
Proof.
  intros [_ Hall] Hget. unfold getStream in Hget.
  destruct (find (hasKey k) (streams m)) as [p |] eqn:E; [| discriminate].
  injection Hget as <-. apply find_hasKey_Some in E as [Hin Hk].
  rewrite Forall_forall in Hall. specialize (Hall p Hin).
  destruct p as [k' s']. simpl in Hk. subst k'. exact Hall.
Qed.

Lemma started_set (m : Manager) (k : jsstring) (s : ActiveStream)
    (c : Connections) :
  started m -> wellStarted (k, s) ->
  started {| streams := mapSet k s (streams m); connections := c |}.
Proof.
  intros [Hnd Hall] Hs. split; cbn.
  - apply NoDup_keys_mapSet, Hnd.
  - apply Forall_mapSet; assumption.
Qed.

Lemma onStream_started (k : jsstring)
    (f : ActiveStream -> Connections -> ActiveStream * Connections)
    (m : Manager) :
  (forall s c, sameDriver s (f s c).1) ->
  started m -> started (onStream k f m).
Proof.
  intros Hf Hm. unfold onStream.
  destruct (getStream m k) as [s |] eqn:Hget; [| exact Hm].
  pose proof (started_lookup m k s Hm Hget) as (Hk & Hp).
  specialize (Hf s (connections m)).
  destruct (f s (connections m)) as [s' c']. cbn in Hf.
  destruct Hf as (Hk' & Hp').
  apply started_set; [exact Hm |]. unfold wellStarted in *. cbn in *.
  split; congruence.
Qed.

Lemma subscribe_sameDriver (now : Z) (id : jsstring) (s : ActiveStream)
    (c : Connections) :
  sameDriver s (StreamManager.subscribe now id s c).1.1.
Proof.
  unfold StreamManager.subscribe.
  destruct (negb (length (chunks s) =? 0)); repeat split.
Qed.

Lemma getOrCreateStream_existing (key : jsstring) (p : StreamParams) (now : Z)
    (s : System) (st : ActiveStream) :
  getStream (manager s) key = Some st ->
  getOrCreateStream key p now s = (Some st, s).
Proof. intros H. unfold getOrCreateStream. rewrite H. reflexivity. Qed.

Lemma mapSet_mapSet (k : jsstring) (v1 v2 : ActiveStream)
    (l : list (jsstring * ActiveStream)) :
  mapSet k v2 (mapSet k v1 l) = mapSet k v2 l.
Proof.
  assert (Hkv : hasKey k (k, v1) = true) by (apply hasKey_true; reflexivity).
  induction l as [| p r IH]; simpl.
  - rewrite Hkv. reflexivity.
  - destruct (hasKey k p) eqn:E; simpl.
    + rewrite Hkv. reflexivity.
    + rewrite E, IH. reflexivity.
Qed.

(** With no entry under the key, [getOrCreateStream] registers a fresh
    stream with its promise set and starts one driver task. *)
Lemma getOrCreateStream_fresh (key : jsstring) (p : StreamParams) (now : Z)
    (s : System) :
  getStream (manager s) key = None ->
  exists l,
    (l = streams (manager s)
     \/ l = streams (cleanupOldestCompletedStreams (manager s)))
    /\ getOrCreateStream key p now s
       = (Some (withDriver (newStream key p now)),
          {| manager := {| streams := mapSet key (withDriver (newStream key p now)) l;
                           connections := connections (manager s) |};
             drivers := drivers s ++ [key];
             timers := timers s |}).
Proof.
  intros Hget. unfold getOrCreateStream. rewrite Hget.
  unfold startStream, withManager, createStream, getStream.
  cbn [manager streams connections drivers timers].
  set (m1 := if MAX_ACTIVE_STREAMS <=? length (streams (manager s))
             then cleanupOldestCompletedStreams (manager s) else manager s).
  rewrite find_mapSet_eq.
  cbn [fmap option_fmap option_map snd newStream apiCallPromise manager streams].
  rewrite mapSet_mapSet, find_mapSet_eq.
  cbn [fmap option_fmap option_map snd].
  exists (streams m1). split.
  - subst m1. destruct (MAX_ACTIVE_STREAMS <=? length (streams (manager s)));
      [now right | now left].
  - assert (Hc : connections m1 = connections (manager s)).
    { subst m1. now destruct (MAX_ACTIVE_STREAMS <=? length (streams (manager s))). }
    rewrite Hc. reflexivity.
Qed.

Lemma getOrCreateStream_started (key : jsstring) (p : StreamParams) (now : Z)
    (s : System) :
  started (manager s) -> started (manager (getOrCreateStream key p now s).2).
Proof.
  intros Hm. destruct (getStream (manager s) key) as [st |] eqn:Hget.
  - now rewrite (getOrCreateStream_existing key p now s st Hget).
  - destruct (getOrCreateStream_fresh key p now s Hget) as (l & Hl & ->).
    cbn [snd manager].
    assert (Hm1 : started {| streams := l; connections := connections (manager s) |}).
    { destruct Hl as [-> | ->].
      - destruct Hm as [Hnd Hall]. split; assumption.
      - unfold cleanupOldestCompletedStreams. cbn [streams].
        apply started_filter, Hm. }
    apply (started_set _ key _ (connections (manager s)) Hm1). split; reflexivity.
Qed.

Lemma subscribeTo_started (key id : jsstring) (now : Z) (m : Manager) :
  started m -> started (subscribeTo key id now m).
Proof.
  apply onStream_started. intros s c. apply subscribe_sameDriver.
Qed.

Lemma handleRequest_existing (key : jsstring) (p : StreamParams) (id : jsstring)
    (now : Z) (s : System) (st : ActiveStream) :
  getStream (manager s) key = Some st ->
  handleRequest key p id now s
  = withManager s (subscribeTo key id now (manager s)).
Proof.
  intros H. unfold handleRequest. rewrite H.
  rewrite (getOrCreateStream_existing key p now s st H).
  destruct (StreamManager.isActive st); reflexivity.
Qed.

Lemma handleRequest_started (key : jsstring) (p : StreamParams) (id : jsstring)
    (now : Z) (s : System) :
  started (manager s) -> started (manager (handleRequest key p id now s)).
Proof.
  intros Hm. unfold handleRequest.
  destruct (getStream (manager s) key) as [st |];
    [destruct (StreamManager.isActive st) |];
    cbn [withManager manager]; apply subscribeTo_started; try exact Hm;
    apply getOrCreateStream_started, Hm.
Qed.

Lemma completeStream_started (key : jsstring) (s : System) :
  started (manager s) -> started (manager (completeStream key s)).
Proof.
  intros Hm. unfold completeStream.
  destruct (getStream (manager s) key); [| exact Hm].
  cbn [manager]. apply onStream_started; [| exact Hm].
  intros st c. repeat split.
Qed.

Lemma errorStream_started (key e : jsstring) (s : System) :
  started (manager s) -> started (manager (errorStream key e s)).
Proof.
  intros Hm. unfold errorStream.
  destruct (getStream (manager s) key); [| exact Hm].
  cbn [manager]. apply onStream_started; [| exact Hm].
  intros st c. repeat split.
Qed.

Lemma apply_started (s s' : System) (o : Op) :
  started (manager s) -> apply s o = Some s' -> started (manager s').
Proof.
  intros Hm Happly. destruct o; cbn [apply] in Happly.
  - injection Happly as <-. apply handleRequest_started, Hm.
  - injection Happly as <-. cbn [withManager manager].
    apply onStream_started; [| exact Hm]. intros st c. repeat split.
  - injection Happly as <-. cbn [withManager manager].
    apply onStream_started; [| exact Hm]. intros st c. repeat split.
  - destruct (decide (key ∈ drivers s)); [| discriminate].
    injection Happly as <-. cbn [withManager manager].
    apply onStream_started; [| exact Hm]. intros st c. repeat split.
  - destruct (decide (key ∈ drivers s)); [| discriminate].
    injection Happly as <-. apply completeStream_started. exact Hm.
  - destruct (decide (key ∈ drivers s)); [| discriminate].
    injection Happly as <-. apply errorStream_started. exact Hm.
  - destruct (decide (CleanupTimer key ∈ timers s)); [| discriminate].
    injection Happly as <-. cbn [manager]. unfold cleanupTimer.
    destruct (getStream (manager s) key) as [st |]; [| exact Hm].
    destruct (bool_decide (subscribers st = ∅)); [| exact Hm].
    apply started_filter, Hm.
  - destruct (decide (ErrorTimer key ∈ timers s)); [| discriminate].
    injection Happly as <-. cbn [manager]. unfold errorTimer.
    apply started_filter, Hm.
Qed.

Lemma applyAll_started (ops : list Op) (s s' : System) :
  started (manager s) -> applyAll s ops = Some s' -> started (manager s').
Proof.
  revert s. induction ops as [| o ops IH]; intros s Hm Hall; cbn in Hall.
  - injection Hall as <-. exact Hm.
  - destruct (apply s o) as [s1 |] eqn:Happly; [| discriminate].
    eapply IH; [eapply apply_started; eassumption | exact Hall].
Qed.

Lemma emptySystem_started : started (manager emptySystem).
Proof. split; constructor. Qed.

(** A subscription keeps the keys of the registry. *)
Lemma subscribeTo_keys (key id : jsstring) (now : Z) (m : Manager) :
  map fst (streams (subscribeTo key id now m)) = map fst (streams m).
Proof.
  unfold subscribeTo, onStream.
  destruct (getStream m key) as [s |] eqn:Hget; [| reflexivity].
  destruct (StreamManager.subscribe now id s (connections m)) as [[s' c'] r].
  cbn. rewrite keys_mapSet. unfold getStream in Hget.
  destruct (find (hasKey key) (streams m)); [reflexivity | discriminate].
Qed.

Lemma driversOf_app (s : System) (l : list jsstring) (key : jsstring) :
  length (filter (fun k => k = key) (drivers s ++ l))
  = driversOf s key + length (filter (fun k => k = key) l).
Proof. unfold driversOf. now rewrite filter_app, length_app. Qed.

(** X27.  A request for a fingerprint that has an entry in the registry
    starts no driver: in every state the registry reaches there is one entry per
    fingerprint and each registered stream has its promise set, so for a
    fingerprint that is registered [getOrCreateStream] returns the
    registered stream and creates nothing, [startStream] starts nothing, and
    a request is only subscribed to the stream; a driver task is started
    only by a request that finds no entry under its fingerprint, and then
    exactly one. *)
Theorem registered_fingerprint_starts_no_driver (ops : list Op) (s : System)
    (Hreach : applyAll emptySystem ops = Some s) :
  NoDup (map fst (streams (manager s)))
  /\ (forall key st,
        getStream (manager s) key = Some st ->
        cacheKey st = key /\ apiCallPromise st = true)
  /\ (forall key st p id now,
        getStream (manager s) key = Some st ->
        getOrCreateStream key p now s = (Some st, s)
        /\ startStream key s = Ok s
        /\ handleRequest key p id now s
           = withManager s (subscribeTo key id now (manager s))
        /\ map fst (streams (manager (handleRequest key p id now s)))
           = map fst (streams (manager s))
        /\ drivers (handleRequest key p id now s) = drivers s)
  /\ (forall key p id now,
        getStream (manager s) key = None ->
        drivers (handleRequest key p id now s) = drivers s ++ [key]
        /\ exists st,
             getStream (manager (handleRequest key p id now s)) key = Some st
             /\ StreamManager.isActive st = true
             /\ apiCallPromise st = true).
Proof.
  pose proof (applyAll_started ops _ s emptySystem_started Hreach) as Hm.
  split; [apply Hm |]. split; [| split].
  - intros key st Hget. exact (started_lookup _ key st Hm Hget).
  - intros key st p id now Hget.
    split; [apply getOrCreateStream_existing, Hget |].
    split.
    { unfold startStream. rewrite Hget.
      destruct (started_lookup _ key st Hm Hget) as [_ Hp]. cbn in Hp.
      now rewrite Hp. }
    split; [eapply handleRequest_existing, Hget |].
    rewrite (handleRequest_existing key p id now s st Hget).
    split; [apply subscribeTo_keys | reflexivity].
  - intros key p id now Hget. unfold handleRequest. rewrite Hget.
    destruct (getOrCreateStream_fresh key p now s Hget) as (l & _ & ->).
    cbn [snd withManager manager drivers]. split; [reflexivity |].
    unfold subscribeTo, onStream, getStream. cbn [streams connections].
    rewrite find_mapSet_eq. cbn [fmap option_fmap option_map snd].
    destruct (StreamManager.subscribe now id (withDriver (newStream key p now))
                (connections (manager s))) as [[s' c'] r] eqn:Hsub.
    cbn [fst streams]. rewrite find_mapSet_eq. exists s'. split; [reflexivity |].
    pose proof (f_equal (fun x => x.1.1) Hsub) as Hs'. cbn in Hs'. subst s'.
    unfold StreamManager.subscribe.
    destruct (negb (length (chunks (withDriver (newStream key p now))) =? 0));
      split; reflexivity.
Qed.

(** Two requests with one fingerprint, then a delta and a third request: one
    stream, one driver, three subscribers. *)
Lemma registered_fingerprint_starts_no_driver_witness :
  let p := {| sentence := str "it rains"; targetWord := str "rains";
              targetLanguage := str "en"; nativeLanguage := str "fr";
              contextBefore := None; contextAfter := None |} in
  let ops := [OpRequest (str "k") p (str "a") 0%Z;
              OpRequest (str "k") p (str "b") 5%Z;
              OpDriverChunk (str "k") (str "{") 20%Z] in
  exists s,
    applyAll emptySystem ops = Some s
    /\ drivers (handleRequest (str "k") p (str "c") 25%Z s) = [str "k"]
    /\ map fst (streams (manager (handleRequest (str "k") p (str "c") 25%Z s)))
       = [str "k"].
Proof.
  intros p ops.
  destruct (applyAll emptySystem ops) as [s |] eqn:Hreach;
    [| vm_compute in Hreach; discriminate].
  exists s. split; [reflexivity |].
  destruct (registered_fingerprint_starts_no_driver ops s Hreach)
    as (_ & _ & Hreg & _).
  destruct (getStream (manager s) (str "k")) as [st |] eqn:Hget.
  - destruct (Hreg _ _ p (str "c") 25%Z Hget) as (_ & _ & _ & Hkeys & Hdrivers).
    rewrite Hkeys, Hdrivers.
    vm_compute in Hreach. injection Hreach as <-. split; reflexivity.
  - vm_compute in Hreach. injection Hreach as <-. vm_compute in Hget.
    discriminate.
Defined.

(** C2 (what the code does): the timer that [completeStream] sets deletes,
    five minutes later, whatever entry is then registered under the key and
    has no subscriber, also a stream that is active.  The first stream of
    fingerprint [k] is completed (its text is not cached), it is evicted by
    the 101st fingerprint of the registry, a second stream is created for
    [k] and its client goes away; the timer of the first stream then deletes
    the second one while its driver runs, and the next request for [k]
    creates a third stream and starts a second driver.  The active stream of
    [k] then has two drivers, and the chunk and the end of the older call
    reach the subscriber of the third stream, which is marked completed
    while its own driver still runs. *)
Lemma stale_timer_starts_second_driver :
  let p := {| sentence := str "it rains"; targetWord := str "rains";
              targetLanguage := str "en"; nativeLanguage := str "fr";
              contextBefore := None; contextAfter := None |} in
  let name (prefix : string) (i : nat) : jsstring :=
    str (prefix ++ NilZero.string_of_uint (Nat.to_uint i)) in
  let others :=
    map (fun i => OpRequest (name "other" i) p (name "client" i) (Z.of_nat i))
        (seq 1 100) in
  let ops :=
    [OpRequest (str "k") p (str "a") 0%Z;
     OpDriverChunk (str "k") (str "Sorry") 0%Z;
     OpDriverReturns (str "k");
     OpUnsubscribe (str "k") (str "a")]
    ++ others
    ++ [OpRequest (str "k") p (str "b") 200%Z;
        OpUnsubscribe (str "k") (str "b");
        OpCleanupTimer (str "k");
        OpRequest (str "k") p (str "c") 300%Z] in
  match applyAll emptySystem ops with
  | Some s =>
      (StreamManager.isActive <$> getStream (manager s) (str "k")) = Some true
      /\ (createdAt <$> getStream (manager s) (str "k")) = Some 300%Z
      /\ driversOf s (str "k") = 2
      /\ match applyAll s [OpDriverChunk (str "k") (str "late") 310%Z;
                           OpDriverReturns (str "k")] with
         | Some s' =>
             (status <$> getStream (manager s') (str "k")) = Some completed
             /\ driversOf s' (str "k") = 1
             /\ (written <$> connections (manager s') !! str "c")
                = Some [ChunkFrame (str "late"); DoneFrame (str "late")]
         | None => False
         end
  | None => False
  end.
Proof. vm_compute. repeat split. Qed.

End RegistryFacts.

(** ** One stream: from replay to live delivery *)
Module StreamManagerFacts.
Import JsString StreamManager.

Lemma chunkTexts_app (l : list Frame) (f : Frame) :
  chunkTexts (l ++ [f])
  = chunkTexts l ++ match f with ChunkFrame c => [c] | _ => [] end.
Proof.
  induction l as [| g l IH]; simpl.
  - destruct f; reflexivity.
  - destruct g; simpl; rewrite IH; reflexivity.
Qed.

Lemma writeFrame_texts (f : Frame) (c : Connection) :
  writableEnded c = false ->
  chunkTexts (written (writeFrame f c))
  = chunkTexts (written c) ++ match f with ChunkFrame t => [t] | _ => [] end.
Proof.
  intros He. unfold writeFrame. rewrite He. cbn. apply chunkTexts_app.
Qed.

Lemma writeFrame_terminal_texts (f : Frame) (c : Connection) :
  (forall t, f <> ChunkFrame t) ->
  chunkTexts (written (writeFrame f c)) = chunkTexts (written c).
Proof.
  intros Hf. unfold writeFrame. destruct (writableEnded c); [reflexivity |].
  cbn. rewrite chunkTexts_app.
  destruct f as [t | |]; [destruct (Hf t); reflexivity | |]; apply app_nil_r.
Qed.

Lemma writeFrame_ended (f : Frame) (c : Connection) :
  writableEnded (writeFrame f c) = writableEnded c.
Proof. unfold writeFrame. destruct (writableEnded c) eqn:E; [exact E | reflexivity]. Qed.

Lemma writeFrame_when_ended (f : Frame) (c : Connection) :
  writableEnded c = true -> writeFrame f c = c.
Proof. unfold writeFrame. now intros ->. Qed.

(** After a broadcast a subscriber is live iff it was and its write went
    through. *)
Lemma broadcast_isLive (s : ActiveStream) (c : Connections) (f : Frame)
    (e : bool) (id : jsstring) :
  isLive (broadcast s c f e).1 id = isLive s id && canWrite c id.
Proof.
  unfold isLive, broadcast. cbn [fst subscribers withSubscribers].
  destruct (subscribers s !! id) as [sub |] eqn:Hs.
  - destruct (isReplaying sub) eqn:Hr; cbn.
    + erewrite map_lookup_filter_Some_2; [rewrite Hr; reflexivity | exact Hs |].
      cbn. rewrite Hr. reflexivity.
    + destruct (canWrite c id) eqn:Hw.
      * erewrite map_lookup_filter_Some_2; [rewrite Hr; reflexivity | exact Hs |].
        cbn. rewrite Hr, Hw. reflexivity.
      * rewrite map_lookup_filter_None_2; [reflexivity |].
        right. intros x Hx. rewrite Hs in Hx. injection Hx as <-.
        cbn. rewrite Hr, Hw. discriminate.
  - rewrite map_lookup_filter_None_2; [reflexivity |]. left. exact Hs.
Qed.

(** A broadcast removes no subscriber that is replaying. *)
Lemma broadcast_replaying (s : ActiveStream) (c : Connections) (f : Frame)
    (e : bool) (id : jsstring) :
  replaying (broadcast s c f e).1 id = replaying s id.
Proof.
  unfold replaying, broadcast. cbn [fst subscribers withSubscribers].
  destruct (subscribers s !! id) as [sub |] eqn:Hs.
  - destruct (isReplaying sub) eqn:Hr.
    + erewrite map_lookup_filter_Some_2; [exact Hr | exact Hs |].
      cbn. rewrite Hr. reflexivity.
    + destruct (filter _ (subscribers s) !! id) as [sub' |] eqn:Hf; [| reflexivity].
      apply map_lookup_filter_Some in Hf as [Hf _]. congruence.
  - rewrite map_lookup_filter_None_2; [reflexivity |]. left. exact Hs.
Qed.

Lemma broadcast_subscriber_None (s : ActiveStream) (c : Connections) (f : Frame)
    (e : bool) (id : jsstring) :
  subscribers s !! id = None -> subscribers (broadcast s c f e).1 !! id = None.
Proof.
  intros H. unfold broadcast. cbn. apply map_lookup_filter_None_2. left. exact H.
Qed.

Lemma broadcast_conn (s : ActiveStream) (c : Connections) (f : Frame)
    (e : bool) (id : jsstring) :
  (broadcast s c f e).2 !! id
  = (fun x => if isLive s id && negb (broken x)
              then (if e then endConnection (writeFrame f x) else writeFrame f x)
              else x) <$> c !! id.
Proof.
  unfold broadcast. cbn [snd]. rewrite map_lookup_imap.
  destruct (c !! id); reflexivity.
Qed.

(** *** The invariant of a connection under changes of its parameters *)

Lemma connOk_other_run (strict : bool) (log : list jsstring)
    (live flag ended reg : bool)
    (run run' : option jsstring) (pc : option ReplayPc) (id : jsstring)
    (got : list jsstring) :
  run <> Some id ->
  connOk strict log live flag ended reg run pc id got ->
  connOk strict log live flag ended reg run' pc id got.
Proof.
  intros Hrun. destruct pc as [[i total | i total d | i | i |] |]; cbn; tauto.
Qed.

(** The subscriber leaves, or the entry leaves the registry. *)
Lemma connOk_less (strict : bool) (log : list jsstring)
    (live live' flag flag' ended reg reg' : bool)
    (run : option jsstring) (pc : option ReplayPc) (id : jsstring)
    (got : list jsstring) :
  (live' = true -> live = true) -> (flag' = true -> flag = true) ->
  (reg' = true -> reg = true) ->
  connOk strict log live flag ended reg run pc id got ->
  connOk strict log live' flag' ended reg' run pc id got.
Proof.
  intros Hl Hf Hr.
  destruct pc as [[i total | i total d | i | i |] |]; cbn.
  1-4: destruct live'; [rewrite (Hl eq_refl) |]; intuition discriminate.
  all: intros (Hp & Hall & Hflag); split; [exact Hp |]; split;
    [ intros H; apply Hall, Hl, H
    | intros H; destruct flag'; [| reflexivity];
      rewrite (Hf eq_refl) in Hflag; apply Hflag, Hr, H ].
Qed.

Lemma connOk_log_grows (strict : bool) (log : list jsstring) (c : jsstring)
    (pc : option ReplayPc) (id : jsstring) (got : list jsstring)
    (live flag ended reg : bool) :
  connOk strict log live flag ended reg None pc id got ->
  connOk strict (log ++ [c]) false flag ended reg None pc id got.
Proof.
  destruct pc as [[i total | i total d | i | i |] |]; cbn;
    rewrite ?length_app; cbn.
  - intros (? & _); discriminate.
  - intros (_ & He & -> & Hb). rewrite take_app_le by lia. repeat split; auto; lia.
  - intros (_ & He & -> & Hb). rewrite take_app_le by lia. repeat split; auto; lia.
  - intros (? & _); discriminate.
  - intros (Hp & _ & Hf). split; [apply prefix_app_r, Hp |].
    split; [discriminate | exact Hf].
  - intros (Hp & _ & Hf). split; [apply prefix_app_r, Hp |].
    split; [discriminate | exact Hf].
Qed.

(** The log grows while the response is ended: nothing reaches it. *)
Lemma connOk_log_grows_ended (log : list jsstring) (c : jsstring)
    (pc : option ReplayPc) (id : jsstring) (got : list jsstring)
    (live flag reg : bool) :
  connOk false log live flag true reg None pc id got ->
  connOk false (log ++ [c]) live flag true reg None pc id got.
Proof.
  destruct pc as [[i total | i total d | i | i |] |]; cbn.
  - intros (? & _); discriminate.
  - intros (_ & ? & _); discriminate.
  - intros (_ & ? & _); discriminate.
  - intros (? & _); discriminate.
  - intros (Hp & _ & Hf). split; [apply prefix_app_r, Hp |].
    split; [intros _ [? | ?]; discriminate | exact Hf].
  - intros (Hp & _ & Hf). split; [apply prefix_app_r, Hp |].
    split; [intros _ [? | ?]; discriminate | exact Hf].
Qed.

Lemma connOk_live_receives (strict : bool) (log : list jsstring) (c : jsstring)
    (pc : option ReplayPc) (id : jsstring) (got : list jsstring)
    (flag reg : bool) :
  connOk strict log true flag false reg None pc id got ->
  connOk strict (log ++ [c]) true flag false reg None pc id (got ++ [c]).
Proof.
  destruct pc as [[i total | i total d | i | i |] |]; cbn;
    try (intros (? & ?); discriminate);
    try (intros (? & ? & ?); discriminate).
  all: intros (_ & Hl & Hf); rewrite (Hl eq_refl (or_intror eq_refl)).
  all: split; [reflexivity | split; [reflexivity | exact Hf]].
Qed.

(** The response is ended by a terminal frame. *)
Lemma connOk_ends (strict : bool) (log : list jsstring)
    (pc : option ReplayPc) (id : jsstring) (got : list jsstring)
    (flag ended reg : bool) (run : option jsstring) :
  connOk strict log true flag ended reg run pc id got ->
  (strict = true -> ended = false) ->
  connOk strict log true flag true reg run pc id got.
Proof.
  intros H Hs. destruct pc as [[i total | i total d | i | i |] |]; cbn in *;
    try (destruct H as (? & ? & _); discriminate);
    try (destruct H as (? & _); discriminate).
  - destruct H as (Hp & Hl & Hf). split; [exact Hp |]. split; [| exact Hf].
    intros _ [Hstrict | ?]; [| discriminate].
    apply Hl; [reflexivity |]. right. apply Hs, Hstrict.
  - destruct H as (Hp & Hl & Hf). split; [exact Hp |]. split; [| exact Hf].
    intros _ [Hstrict | ?]; [| discriminate].
    apply Hl; [reflexivity |]. right. apply Hs, Hstrict.
Qed.

(** *** The events of the driver tasks *)

Lemma publish_invariant (strict : bool) (w : World) (now : Z) (chunk : jsstring) :
  running w = None -> (strict = true -> isActive (stream w) = true) ->
  invariant strict w ->
  invariant strict
    (let '(s', conns') := publishChunk now chunk (stream w) (conns w) in
     setStream w s' conns').
Proof.
  intros Hrun Hguard Hinv id. specialize (Hinv id).
  unfold publishChunk.
  set (s1 := withChunk (stream w) _).
  destruct (broadcast s1 (conns w) (ChunkFrame chunk) false) as [s' conns'] eqn:Hb.
  assert (Hs' : s' = (broadcast s1 (conns w) (ChunkFrame chunk) false).1)
    by (rewrite Hb; reflexivity).
  assert (Hc' : conns' = (broadcast s1 (conns w) (ChunkFrame chunk) false).2)
    by (rewrite Hb; reflexivity).
  cbn [setStream conns stream tasks running registered].
  rewrite Hc', broadcast_conn.
  assert (Hlog : chunkLog (setStream w s' conns') = chunkLog w ++ [chunk]).
  { unfold chunkLog. cbn. rewrite Hs'. cbn. rewrite map_app. reflexivity. }
  unfold chunkLog in Hlog. cbn [setStream stream] in Hlog.
  assert (Hact' : isActive s' = isActive (stream w)) by (rewrite Hs'; reflexivity).
  assert (Hflag : replaying s' id = replaying (stream w) id)
    by (rewrite Hs', broadcast_replaying; reflexivity).
  destruct (conns w !! id) as [c0 |] eqn:Hc0; cbn [fmap option_fmap option_map].
  - destruct Hinv as [Hok Hend].
    unfold chunkLog in *. cbn [setStream stream]. rewrite Hlog, Hflag, Hact'.
    assert (Hlive : isLive s' id = isLive (stream w) id && negb (broken c0)).
    { rewrite Hs', broadcast_isLive. unfold canWrite. rewrite Hc0. reflexivity. }
    rewrite Hlive, Hrun in *.
    change (isLive s1 id) with (isLive (stream w) id).
    destruct (isLive (stream w) id && negb (broken c0)) eqn:Hw.
    + apply andb_true_iff in Hw as [Hl _]. rewrite Hl in Hok.
      destruct (writableEnded c0) eqn:He.
      * rewrite writeFrame_when_ended by exact He. rewrite He.
        split; [| exact Hend].
        destruct strict.
        -- discriminate (Hend (Hguard eq_refl)).
        -- apply connOk_log_grows_ended, Hok.
      * rewrite writeFrame_texts, writeFrame_ended by exact He. rewrite He.
        split; [apply connOk_live_receives, Hok | reflexivity].
    + split; [eapply connOk_log_grows, Hok | exact Hend].
  - destruct Hinv as [Ht Hs]. split; [exact Ht |].
    rewrite Hs'. apply broadcast_subscriber_None. exact Hs.
Qed.

Lemma terminal_invariant (strict : bool) (w : World) (st : StreamStatus)
    (e : option jsstring) (f : Frame) :
  st <> active -> (forall t, f <> ChunkFrame t) ->
  (strict = true -> isActive (stream w) = true) ->
  invariant strict w ->
  invariant strict
    (let '(s', conns') :=
       broadcast (withStatus (stream w) st e) (conns w) f true in
     setStream w s' conns').
Proof.
  intros Hst Hf Hguard Hinv id. specialize (Hinv id).
  set (s1 := withStatus (stream w) st e).
  destruct (broadcast s1 (conns w) f true) as [s' conns'] eqn:Hb.
  assert (Hs' : s' = (broadcast s1 (conns w) f true).1) by (rewrite Hb; reflexivity).
  assert (Hc' : conns' = (broadcast s1 (conns w) f true).2) by (rewrite Hb; reflexivity).
  cbn [setStream conns stream tasks running registered].
  rewrite Hc', broadcast_conn.
  assert (Hact' : isActive s' = false).
  { rewrite Hs'. unfold isActive. cbn. destruct st; congruence. }
  assert (Hflag : replaying s' id = replaying (stream w) id)
    by (rewrite Hs', broadcast_replaying; reflexivity).
  assert (Hlive : isLive s' id = isLive (stream w) id && canWrite (conns w) id)
    by (rewrite Hs', broadcast_isLive; reflexivity).
  destruct (conns w !! id) as [c0 |] eqn:Hc0; cbn [fmap option_fmap option_map].
  - destruct Hinv as [Hok Hend]. split; [| rewrite Hact'; discriminate].
    unfold chunkLog in *. cbn [setStream stream].
    replace (chunks s') with (chunks (stream w)) by (rewrite Hs'; reflexivity).
    rewrite Hflag, Hlive. unfold canWrite. rewrite Hc0.
    change (isLive s1 id) with (isLive (stream w) id).
    destruct (isLive (stream w) id && negb (broken c0)) eqn:Hw.
    + apply andb_true_iff in Hw as [Hl _]. rewrite Hl in Hok.
      cbn [endConnection written writableEnded].
      rewrite writeFrame_terminal_texts by exact Hf.
      eapply connOk_ends; [exact Hok |].
      intros Hs. apply Hend, Hguard, Hs.
    + eapply connOk_less; [| | | exact Hok]; auto. discriminate.
  - destruct Hinv as [Ht Hs]. split; [exact Ht |].
    rewrite Hs'. apply broadcast_subscriber_None. exact Hs.
Qed.

(** *** The events of a connection *)

Lemma unsubscribe_isLive (id0 id : jsstring) (s : ActiveStream) :
  isLive (unsubscribe id0 s) id = true -> isLive s id = true.
Proof.
  unfold isLive, unsubscribe. cbn.
  destruct (decide (id0 = id)) as [-> | Hne].
  - rewrite lookup_delete_eq. discriminate.
  - rewrite lookup_delete_ne by exact Hne. tauto.
Qed.

Lemma unsubscribe_replaying (id0 id : jsstring) (s : ActiveStream) :
  replaying (unsubscribe id0 s) id = true -> replaying s id = true.
Proof.
  unfold replaying, unsubscribe. cbn.
  destruct (decide (id0 = id)) as [-> | Hne].
  - rewrite lookup_delete_eq. discriminate.
  - rewrite lookup_delete_ne by exact Hne. tauto.
Qed.

Lemma close_invariant (strict : bool) (w : World) (id0 : jsstring) :
  invariant strict w ->
  invariant strict (setStream w (unsubscribe id0 (stream w)) (conns w)).
Proof.
  intros Hinv id. specialize (Hinv id).
  cbn [setStream conns stream tasks running registered].
  destruct (conns w !! id) as [c0 |].
  - destruct Hinv as [Hok Hend]. split; [| exact Hend].
    eapply connOk_less; [apply unsubscribe_isLive | apply unsubscribe_replaying
                        | | exact Hok]; auto.
  - destruct Hinv as [Ht Hs]. split; [exact Ht |].
    cbn. destruct (decide (id0 = id)) as [-> | Hne].
    + apply lookup_delete_eq.
    + rewrite lookup_delete_ne by exact Hne. exact Hs.
Qed.

Lemma break_invariant (strict : bool) (w : World) (id0 : jsstring) :
  invariant strict w ->
  invariant strict
    (setStream w (stream w)
       (alter (fun c => {| written := written c;
                           writableEnded := writableEnded c;
                           broken := true |}) id0 (conns w))).
Proof.
  intros Hinv id. specialize (Hinv id).
  cbn [setStream conns stream tasks running registered].
  destruct (decide (id0 = id)) as [-> | Hne].
  - rewrite lookup_alter_eq.
    destruct (conns w !! id) as [c0 |]; cbn; exact Hinv.
  - rewrite lookup_alter_ne by exact Hne. exact Hinv.
Qed.

Lemma deregister_invariant (strict : bool) (w : World) :
  running w = None ->
  invariant strict w -> invariant strict (deregister w).
Proof.
  intros Hrun Hinv id. specialize (Hinv id). cbn. rewrite Hrun in Hinv.
  destruct (conns w !! id) as [c0 |]; [| exact Hinv].
  destruct Hinv as [Hok Hend]. split; [| exact Hend].
  eapply connOk_less; [| | | exact Hok]; auto. discriminate.
Qed.

Lemma sendTerminal_conn (f : Frame) (id0 id : jsstring) (s : ActiveStream)
    (c : Connections) :
  (forall t, f <> ChunkFrame t) ->
  match sendTerminal f id0 s c !! id, c !! id with
  | Some x', Some x =>
      chunkTexts (written x') = chunkTexts (written x)
      /\ (writableEnded x' = writableEnded x \/ id = id0)
  | None, None => True
  | _, _ => False
  end.
Proof.
  intros Hf. unfold sendTerminal.
  destruct (isLive s id0 && canWrite c id0).
  - destruct (decide (id0 = id)) as [-> | Hne].
    + rewrite lookup_alter_eq. destruct (c !! id) as [x |]; cbn; [| exact I].
      split; [apply writeFrame_terminal_texts, Hf | right; reflexivity].
    + rewrite lookup_alter_ne by exact Hne.
      destruct (c !! id); [split; [reflexivity | left; reflexivity] | exact I].
  - destruct (c !! id); [split; [reflexivity | left; reflexivity] | exact I].
Qed.

(** The terminal frame sent to one subscriber: only its response changes,
    and only if it is live; what it has received of the log stays. *)
Lemma sendTerminalIfDone_conn (id0 id : jsstring) (s : ActiveStream)
    (c : Connections) :
  match sendTerminalIfDone id0 s c !! id, c !! id with
  | Some x', Some x =>
      chunkTexts (written x') = chunkTexts (written x)
      /\ (isActive s = true -> writableEnded x' = writableEnded x)
      /\ (id <> id0 -> x' = x)
      /\ (isLive s id0 = false -> x' = x)
  | None, None => True
  | _, _ => False
  end.
Proof.
  unfold sendTerminalIfDone, isActive, terminalFrame.
  assert (Hgen : forall f, (forall t, f <> ChunkFrame t) ->
            match sendTerminal f id0 s c !! id, c !! id with
            | Some x', Some x =>
                chunkTexts (written x') = chunkTexts (written x)
                /\ (id <> id0 -> x' = x)
                /\ (isLive s id0 = false -> x' = x)
            | None, None => True
            | _, _ => False
            end).
  { intros f Hf. unfold sendTerminal.
    destruct (isLive s id0) eqn:Hl; cbn [andb].
    - destruct (canWrite c id0).
      + destruct (decide (id0 = id)) as [-> | Hne].
        * rewrite lookup_alter_eq. destruct (c !! id) as [x |]; cbn; [| exact I].
          split; [apply writeFrame_terminal_texts, Hf |].
          split; [congruence | discriminate].
        * rewrite lookup_alter_ne by exact Hne.
          destruct (c !! id); [repeat split | exact I].
      + destruct (c !! id); [repeat split | exact I].
    - destruct (c !! id); [repeat split | exact I]. }
  destruct (status s).
  - destruct (c !! id); [repeat split | exact I].
  - specialize (Hgen (DoneFrame (fullResponse s)) ltac:(discriminate)).
    destruct (sendTerminal _ id0 s c !! id), (c !! id); try exact Hgen.
    destruct Hgen as (H1 & H2 & H3). repeat split; auto. discriminate.
  - specialize (Hgen (ErrorFrame (shapeError (default (str "Unknown error")
                                                      (truthy (errorText s)))))
                     ltac:(discriminate)).
    destruct (sendTerminal _ id0 s c !! id), (c !! id); try exact Hgen.
    destruct Hgen as (H1 & H2 & H3). repeat split; auto. discriminate.
Qed.

Lemma subscribe_invariant (strict : bool) (w : World) (id0 : jsstring) (now : Z) :
  running w = None -> conns w !! id0 = None ->
  invariant strict w ->
  invariant strict
    (let '(s', conns', replay) := subscribe now id0 (stream w) (conns w) in
     let w' := setStream w s' conns' in
     if replay
     then setTask w' id0 (LoopHead 0 (length (chunks s'))) (Some id0)
     else w').
Proof.
  intros Hrun Hfresh Hinv id. pose proof (Hinv id0) as Hid0. specialize (Hinv id).
  rewrite Hfresh in Hid0. destruct Hid0 as [Ht0 Hs0].
  unfold subscribe.
  destruct (length (chunks (stream w)) =? 0) eqn:Hlen; cbn [negb].
  - (* nothing accumulated: live at once *)
    apply Nat.eqb_eq in Hlen.
    cbn [setStream conns stream tasks running registered].
    set (s' := withSubscribers (stream w) _).
    pose proof (sendTerminalIfDone_conn id0 id s'
                  (<[id0 := freshConnection]> (conns w))) as Hsend.
    destruct (decide (id0 = id)) as [<- | Hne].
    + rewrite lookup_insert_eq in Hsend.
      destruct (sendTerminalIfDone id0 s' _ !! id0) as [x' |]; [| contradiction].
      destruct Hsend as (Hgot & Hend & _). rewrite Hgot, Ht0. cbn.
      unfold chunkLog. cbn.
      destruct (chunks (stream w)); [| discriminate]. cbn.
      split; [| intros Ha; rewrite (Hend Ha); reflexivity].
      split; [reflexivity |]. split; [reflexivity |].
      intros _. unfold replaying. subst s'. cbn. rewrite lookup_insert_eq.
      reflexivity.
    + rewrite lookup_insert_ne in Hsend by exact Hne.
      assert (Hlive : isLive s' id = isLive (stream w) id).
      { unfold isLive. cbn. rewrite lookup_insert_ne by exact Hne. reflexivity. }
      assert (Hflag : replaying s' id = replaying (stream w) id).
      { unfold replaying. cbn. rewrite lookup_insert_ne by exact Hne. reflexivity. }
      destruct (sendTerminalIfDone id0 s' _ !! id) as [x' |],
               (conns w !! id) as [x |]; try contradiction.
      * destruct Hsend as (_ & _ & Hsame & _). rewrite (Hsame ltac:(congruence)).
        rewrite Hlive, Hflag. exact Hinv.
      * destruct Hinv as [Ht Hs]. split; [exact Ht |].
        cbn. rewrite lookup_insert_ne by exact Hne. exact Hs.
  - (* accumulated chunks: the replay task starts *)
    apply Nat.eqb_neq in Hlen.
    cbn [setTask setStream conns stream tasks running registered].
    destruct (decide (id0 = id)) as [<- | Hne].
    + rewrite !lookup_insert_eq. cbn. unfold isLive. cbn.
      rewrite lookup_insert_eq. cbn. unfold chunkLog. cbn.
      rewrite length_map. repeat split; lia.
    + rewrite !lookup_insert_ne by exact Hne.
      assert (Hlive : isLive (withSubscribers (stream w)
                                (<[id0 := {| joinedAt := now; isReplaying := true |}]>
                                   (subscribers (stream w)))) id
                      = isLive (stream w) id).
      { unfold isLive. cbn. rewrite lookup_insert_ne by exact Hne. reflexivity. }
      assert (Hflag : replaying (withSubscribers (stream w)
                                (<[id0 := {| joinedAt := now; isReplaying := true |}]>
                                   (subscribers (stream w)))) id
                      = replaying (stream w) id).
      { unfold replaying. cbn. rewrite lookup_insert_ne by exact Hne. reflexivity. }
      rewrite Hlive, Hflag. destruct (conns w !! id) as [x |].
      * destruct Hinv as [Hok Hact]. split; [| exact Hact].
        eapply connOk_other_run; [| exact Hok]. rewrite Hrun. discriminate.
      * destruct Hinv as [Ht Hs]. split; [exact Ht |].
        cbn. rewrite lookup_insert_ne by exact Hne. exact Hs.
Qed.

(** *** The steps of a replay task *)

(** A step that touches the task and the connection of [id0] only. *)
Lemma local_step_invariant (strict : bool) (w w' : World) (id0 : jsstring) :
  invariant strict w ->
  chunkLog w' = chunkLog w ->
  isActive (stream w') = isActive (stream w) ->
  registered w' = registered w ->
  (running w = None \/ running w = Some id0) ->
  (forall id, id <> id0 ->
     conns w' !! id = conns w !! id
     /\ tasks w' !! id = tasks w !! id
     /\ subscribers (stream w') !! id = subscribers (stream w) !! id) ->
  match conns w' !! id0 with
  | Some c =>
      connOk strict (chunkLog w') (isLive (stream w') id0)
             (replaying (stream w') id0) (writableEnded c) (registered w')
             (running w') (tasks w' !! id0) id0 (chunkTexts (written c))
      /\ (isActive (stream w') = true -> writableEnded c = false)
  | None => tasks w' !! id0 = None /\ subscribers (stream w') !! id0 = None
  end ->
  invariant strict w'.
Proof.
  intros Hinv Hlog Hact Hreg Hrun Hothers Hid0 id.
  destruct (decide (id = id0)) as [-> | Hne]; [exact Hid0 |].
  specialize (Hinv id). destruct (Hothers id Hne) as (Hc & Ht & Hs).
  unfold isLive, replaying. rewrite Hc, Ht, Hs, Hlog, Hact, Hreg.
  destruct (conns w !! id) as [c |].
  - destruct Hinv as [Hok Hend]. split; [| exact Hend].
    eapply connOk_other_run; [| exact Hok].
    destruct Hrun as [-> | ->]; congruence.
  - exact Hinv.
Qed.

Ltac others :=
  let id := fresh "id" in
  let Hne := fresh "Hne" in
  intros id Hne; unfold unsubscribe, finishedReplaying;
  cbn [setTask setStream conns stream tasks running subscribers withSubscribers];
  rewrite ?lookup_insert_ne, ?lookup_alter_ne, ?lookup_delete_ne by congruence;
  repeat split; auto.

Lemma resume_invariant (strict : bool) (w w' : World) (id0 : jsstring) :
  running w = None -> invariant strict w -> resume w id0 = Some w' ->
  invariant strict w'.
Proof.
  intros Hrun Hinv Hres. pose proof (Hinv id0) as Hid0.
  unfold resume in Hres.
  destruct (tasks w !! id0) as [[i total | i total d | i | i |] |] eqn:Ht;
    try discriminate.
  - (* the paced delay is over: currentIndex++ *)
    injection Hres as <-.
    apply (local_step_invariant strict w _ id0); auto; [others |].
    cbn [setTask conns stream tasks running registered].
    destruct (conns w !! id0) as [c |]; [| destruct Hid0; discriminate].
    rewrite lookup_insert_eq. destruct Hid0 as [(Hl & He & Hg & Hb) Hend].
    split; [| exact Hend]. unfold chunkLog in *. cbn. rewrite Nat.add_1_r.
    repeat split; auto; lia.
  - (* delay(10) is over *)
    assert (Hw' : w' = setTask w id0
                         (if isActive (stream w)
                             && (length (chunks (stream w)) <=? i)
                          then Finishing i
                          else LoopHead i (length (chunks (stream w))))
                         (Some id0)).
    { unfold isActive. destruct (status (stream w));
        [destruct (length (chunks (stream w)) <=? i) |..];
        injection Hres as <-; reflexivity. }
    subst w'. clear Hres.
    apply (local_step_invariant strict w _ id0); auto; [others |].
    cbn [setTask conns stream tasks running registered].
    destruct (conns w !! id0) as [c |]; [| destruct Hid0; discriminate].
    rewrite lookup_insert_eq. destruct Hid0 as [(Hl & He & Hg & Hb) Hend].
    split; [| exact Hend].
    unfold chunkLog in *. cbn [setTask stream]. rewrite length_map in Hb.
    destruct (isActive (stream w) && (length (chunks (stream w)) <=? i)) eqn:E; cbn.
    + apply andb_true_iff in E as [_ E]. apply Nat.leb_le in E.
      repeat split; auto. rewrite Hg. apply take_ge. rewrite length_map. lia.
    + rewrite length_map. repeat split; auto; lia.
Qed.

Lemma connected_open (w : World) (id : jsstring) (c : Connection) :
  isSubscriberConnected w id = true -> conns w !! id = Some c ->
  writableEnded c = false.
Proof.
  unfold isSubscriberConnected. intros H Hc. rewrite Hc in H.
  destruct (registered w); [| discriminate].
  destruct (subscribers (stream w) !! id); [| discriminate].
  cbn in H. apply negb_true_iff in H. exact H.
Qed.

(** A subscriber with an open response that is not connected has left, or
    its entry has left the registry. *)
Lemma disconnected_flag (w : World) (id : jsstring) (c : Connection) :
  isSubscriberConnected w id = false -> conns w !! id = Some c ->
  writableEnded c = false ->
  registered w = true -> replaying (stream w) id = false.
Proof.
  unfold isSubscriberConnected, replaying. intros H Hc He Hreg.
  rewrite Hc, Hreg, He in H.
  destruct (subscribers (stream w) !! id); [discriminate | reflexivity].
Qed.

Ltac local strict id0 :=
  match goal with
  | Hinv : invariant strict ?w |- invariant strict _ =>
      apply (local_step_invariant strict w _ id0); auto; [others |];
      unfold chunkLog in *;
      cbn [setTask setStream conns stream tasks running registered];
      rewrite ?lookup_insert_eq, ?lookup_alter_eq
  end.

Lemma replayStep_invariant (strict : bool) (w : World) (id0 : jsstring) :
  running w = Some id0 -> invariant strict w -> invariant strict (replayStep w id0).
Proof.
  intros Hrun Hinv. pose proof (Hinv id0) as Hid0. unfold replayStep.
  destruct (tasks w !! id0) as [[i total | i total d | i | i |] |] eqn:Ht;
    try exact Hinv;
    (destruct (conns w !! id0) as [c |] eqn:Hc; [| destruct Hid0; discriminate]).
  - (* at the test of the inner loop *)
    destruct Hid0 as [(_ & Hl & He & Hg & Hb) Hend].
    unfold chunkLog in Hg, Hb. rewrite length_map in Hb.
    assert (Hgone : replaying (unsubscribe id0 (stream w)) id0 = false).
    { unfold replaying, unsubscribe. cbn. now rewrite lookup_delete_eq. }
    assert (Hdead : isLive (unsubscribe id0 (stream w)) id0 = false).
    { unfold isLive, unsubscribe. cbn. now rewrite lookup_delete_eq. }
    destruct (i <? total) eqn:Hit.
    + apply Nat.ltb_lt in Hit.
      destruct (isSubscriberConnected w id0) eqn:Hconn; cbn [negb].
      * destruct (chunks (stream w) !! i) as [chunk |] eqn:Hchunk.
        -- destruct (canWrite (conns w) id0) eqn:Hw.
           ++ assert (Hgot : chunkTexts (written (writeFrame (ChunkFrame (text chunk)) c))
                             = take (S i) (map text (chunks (stream w)))).
              { rewrite writeFrame_texts by exact He. rewrite Hg.
                symmetry. apply take_S_r. rewrite list_lookup_fmap, Hchunk.
                reflexivity. }
              destruct (chunks (stream w) !! (i + 1)) as [nextChunk |].
              ** local strict id0. rewrite Hc. cbn. rewrite length_map.
                 rewrite writeFrame_ended.
                 split; [repeat split; auto; lia | exact Hend].
              ** local strict id0. rewrite Hc. cbn. rewrite length_map, Nat.add_1_r.
                 rewrite writeFrame_ended.
                 split; [repeat split; auto; lia | exact Hend].
           ++ local strict id0. rewrite Hc. split; [| exact Hend]. cbn.
              split; [rewrite Hg; apply prefix_take |].
              rewrite Hdead, Hgone. split; [discriminate | reflexivity].
        -- local strict id0. rewrite Hc. split; [| exact Hend]. cbn.
           split; [rewrite Hg; apply prefix_take |].
           rewrite Hdead, Hgone. split; [discriminate | reflexivity].
      * local strict id0. rewrite Hc. split; [| exact Hend]. cbn.
        split; [rewrite Hg; apply prefix_take |].
        split; [rewrite Hl; discriminate |].
        now apply (disconnected_flag w id0 c).
    + apply Nat.ltb_ge in Hit.
      destruct (length (chunks (stream w)) <=? i) eqn:Hli.
      * apply Nat.leb_le in Hli.
        assert (Hall : take i (map text (chunks (stream w)))
                       = map text (chunks (stream w)))
          by (apply take_ge; rewrite length_map; lia).
        destruct (status (stream w)); local strict id0; rewrite Hc;
          (split; [| exact Hend]); cbn; rewrite ?length_map;
          repeat split; auto; try lia; congruence.
      * apply Nat.leb_gt in Hli. local strict id0. rewrite Hc.
        split; [| exact Hend]. cbn. rewrite length_map. repeat split; auto; lia.
  - (* after the break: the subscriber becomes live *)
    destruct Hid0 as [(_ & Hl & He & Hg) Hend].
    set (s' := finishedReplaying id0 (stream w)).
    pose proof (sendTerminalIfDone_conn id0 id0 s' (conns w)) as Hsend.
    rewrite Hc in Hsend.
    assert (Hflag : replaying s' id0 = false).
    { subst s'. unfold replaying, finishedReplaying. cbn.
      rewrite lookup_alter_eq. now destruct (subscribers (stream w) !! id0). }
    apply (local_step_invariant strict w _ id0); auto.
    + intros id Hne.
      cbn [setTask setStream conns stream tasks running].
      rewrite lookup_insert_ne by congruence.
      assert (Hconn : (if registered w then sendTerminalIfDone id0 s' (conns w)
                       else conns w) !! id = conns w !! id).
      { destruct (registered w); [| reflexivity].
        unfold sendTerminalIfDone, sendTerminal.
        destruct (terminalFrame s'); [| reflexivity].
        destruct (isLive s' id0 && canWrite (conns w) id0); [| reflexivity].
        apply lookup_alter_ne. congruence. }
      rewrite Hconn. subst s'. unfold finishedReplaying. cbn.
      rewrite lookup_alter_ne by congruence. repeat split; auto.
    + cbn [setTask setStream conns stream tasks running registered].
      rewrite lookup_insert_eq, Hflag. unfold chunkLog in *.
      destruct (registered w).
      * destruct (sendTerminalIfDone id0 s' (conns w) !! id0) as [x' |];
          [| contradiction].
        destruct Hsend as (Hgot & Hsame & _). rewrite Hgot, Hg. cbn.
        split; [split; [reflexivity | split; [reflexivity | reflexivity]] |].
        intros Ha. rewrite (Hsame Ha). apply Hend, Ha.
      * rewrite Hc, Hg. cbn.
        split; [split; [reflexivity | split; [reflexivity | discriminate]]
               | exact Hend].
Qed.

(** *** Every event keeps the invariant *)

Lemma step_invariant (strict : bool) (w w' : World) (e : Event) :
  invariant strict w ->
  (strict = true -> isDriverEvent e = true -> isActive (stream w) = true) ->
  step w e = Some w' -> invariant strict w'.
Proof.
  intros Hinv Hguard Hstep. unfold step in Hstep.
  destruct (running w) as [idr |] eqn:Hrun.
  - destruct e; try discriminate. injection Hstep as <-.
    apply replayStep_invariant; assumption.
  - destruct e as [id now | id | id | chunk now | | err | id | | | |];
      try discriminate.
    + destruct (registered w); [| discriminate].
      destruct (bool_decide (conns w !! id = None)) eqn:Hfresh; [| discriminate].
      apply bool_decide_eq_true in Hfresh. cbn [andb] in Hstep.
      pose proof (subscribe_invariant strict w id now Hrun Hfresh Hinv) as H.
      destruct (subscribe now id (stream w) (conns w)) as [[s' c'] r].
      injection Hstep as <-. exact H.
    + injection Hstep as <-.
      destruct (registered w); [apply close_invariant, Hinv | exact Hinv].
    + injection Hstep as <-. apply break_invariant, Hinv.
    + injection Hstep as <-.
      destruct (registered w); [| exact Hinv].
      apply publish_invariant; auto.
    + injection Hstep as <-.
      destruct (registered w); [| exact Hinv].
      apply terminal_invariant; auto; discriminate.
    + injection Hstep as <-.
      destruct (registered w); [| exact Hinv].
      apply terminal_invariant; auto; discriminate.
    + eapply resume_invariant; eassumption.
    + injection Hstep as <-.
      destruct (bool_decide _); [apply deregister_invariant; assumption | exact Hinv].
    + injection Hstep as <-.
      destruct (_ && _); [apply deregister_invariant; assumption | exact Hinv].
    + injection Hstep as <-. apply deregister_invariant; assumption.
Qed.


Lemma initialWorld_invariant (strict : bool) (key : jsstring) (p : StreamParams)
    (now : Z) :
  invariant strict (initialWorld key p now).
Proof. intros id. cbn. rewrite !lookup_empty. split; reflexivity. Qed.

(** *** A running replay task suspends or returns *)

Lemma replayStep_progress (w : World) (id : jsstring) :
  scheduled w -> running w = Some id ->
  scheduled (replayStep w id) /\ workLeft (replayStep w id) < workLeft w.
Proof.
  intros Hs Hrun. specialize (Hs id Hrun).
  unfold replayStep, workLeft at 2. rewrite Hrun.
  destruct (tasks w !! id) as [[i total | i total d | i | i |] |] eqn:Ht;
    try contradiction.
  - destruct (i <? total) eqn:Hit.
    + destruct (isSubscriberConnected w id); cbn [negb];
        [| split; [intros x Hx; discriminate | cbn; lia]].
      destruct (chunks (stream w) !! i) as [chunk |] eqn:Hchunk;
        [| split; [intros x Hx; discriminate | cbn; lia]].
      destruct (canWrite (conns w) id);
        [| split; [intros x Hx; discriminate | cbn; lia]].
      destruct (chunks (stream w) !! (i + 1));
        [split; [intros x Hx; discriminate | cbn; lia] |].
      pose proof (lookup_lt_Some _ _ _ Hchunk) as Hlt.
      split.
      * intros x Hx. cbn in Hx. injection Hx as <-. cbn.
        rewrite lookup_insert_eq. exact I.
      * unfold workLeft. cbn -[Nat.ltb]. rewrite lookup_insert_eq.
        destruct (i + 1 <? total); lia.
    + destruct (length (chunks (stream w)) <=? i) eqn:Hli.
      * destruct (status (stream w)).
        -- split; [intros x Hx; discriminate | cbn; lia].
        -- split; [| unfold workLeft; cbn; rewrite lookup_insert_eq; lia].
           intros x Hx. cbn in Hx. injection Hx as <-. cbn.
           rewrite lookup_insert_eq. exact I.
        -- split; [| unfold workLeft; cbn; rewrite lookup_insert_eq; lia].
           intros x Hx. cbn in Hx. injection Hx as <-. cbn.
           rewrite lookup_insert_eq. exact I.
      * apply Nat.leb_gt in Hli. split.
        -- intros x Hx. cbn in Hx. injection Hx as <-. cbn.
           rewrite lookup_insert_eq. exact I.
        -- unfold workLeft. cbn -[Nat.ltb]. rewrite lookup_insert_eq.
           apply Nat.ltb_lt in Hli. rewrite Hli. lia.
  - split; [intros x Hx; discriminate | cbn; lia].
Qed.

(** The piece of a replay task between two suspension points is finite: from
    a state in which a task is running, finitely many of its steps lead to a
    state in which it is suspended or has returned, and the other tasks and
    the drivers can go on. *)
Lemma replay_block_returns (w : World) :
  scheduled w ->
  exists n w', run w (repeat EvRun n) = Some w' /\ running w' = None /\ scheduled w'.
Proof.
  remember (workLeft w) as k eqn:Hk. revert w Hk.
  induction k as [k IH] using lt_wf_ind. intros w Hk Hs.
  destruct (running w) as [id |] eqn:Hrun.
  - destruct (replayStep_progress w id Hs Hrun) as [Hs' Hlt].
    destruct (IH (workLeft (replayStep w id)) ltac:(lia) _ eq_refl Hs')
      as (n & w' & Hn & Hnone & Hsch).
    exists (S n), w'. split; [| split; assumption].
    cbn. unfold step. rewrite Hrun. exact Hn.
  - exists 0, w. repeat split; assumption.
Qed.




(** *** The replay task hands over *)









End StreamManagerFacts.

(** ** Trimming and lower-casing *)
Module TrimFacts.
Import JsString.

Lemma isWhiteSpace_lowerChar (c : ascii) :
  isWhiteSpace (lowerChar c) = isWhiteSpace c.
Proof. destruct c as [[] [] [] [] [] [] [] []]; reflexivity. Qed.

Lemma trimStart_toLowerCase (s : jsstring) :
  trimStart (toLowerCase s) = toLowerCase (trimStart s).
Proof.
  induction s as [|c r IH]; [reflexivity|].
  cbn. rewrite isWhiteSpace_lowerChar.
  destruct (isWhiteSpace c); [exact IH | reflexivity].
Qed.

Lemma toLowerCase_rev (s : jsstring) : toLowerCase (rev s) = rev (toLowerCase s).
Proof. unfold toLowerCase. now rewrite map_rev. Qed.

Lemma trim_toLowerCase (s : jsstring) :
  trim (toLowerCase s) = toLowerCase (trim s).
Proof.
  unfold trim, trimEnd.
  now rewrite trimStart_toLowerCase, <- toLowerCase_rev, trimStart_toLowerCase,
    toLowerCase_rev.
Qed.

Lemma trimStart_fixed (s : jsstring) :
  match s with c :: _ => isWhiteSpace c = false | [] => True end ->
  trimStart s = s.
Proof. destruct s as [|c r]; [reflexivity|]. cbn. now intros ->. Qed.

Lemma trim_idempotent (s : jsstring) : trim (trim s) = trim s.
Proof.
  unfold trim at 1. unfold trimEnd.
  rewrite (trimStart_fixed (trim s)).
  2:{ destruct (trim s) eqn:E; [exact I|].
      eapply SentenceDetectorFacts.trim_first; exact E. }
  rewrite (trimStart_fixed (rev (trim s))).
  2:{ destruct (rev (trim s)) eqn:E; [exact I|].
      eapply SentenceDetectorFacts.trim_last; exact E. }
  apply rev_involutive.
Qed.

(** The canonical form of a field: trimmed, then lower-cased. *)
Lemma canonical_fixed (s : jsstring) :
  toLowerCase (trim (toLowerCase (trim s))) = toLowerCase (trim s).
Proof.
  now rewrite trim_toLowerCase, trim_idempotent, JsStringFacts.toLowerCase_idempotent.
Qed.

End TrimFacts.

(** ** utils/normalize.ts: canonical forms are fixed points *)
Module CanonicalFacts.
Import JsString Normalize.

(** X1.  Canonicalisation is idempotent on the canonical forms that are
    within the length bound: if the canonical form of a query has at most
    200 code units, it is itself accepted and canonicalises to the same
    canonical form with the same type.  The bound is a condition of its
    own: [normalizeQuery] tests the length of the trimmed input before it
    lower-cases it, and lower-casing can lengthen a string (U+0130 becomes
    two code units), so the canonical form of an accepted query can be
    longer than 200 code units, and is then refused. *)
Theorem normalizeQuery_idempotent (q : jsstring) (r : NormalizedQuery)
    (Hq : normalizeQuery q = Ok r)
    (Hlen : length (normalized r) <= 200) :
  normalizeQuery (normalized r) = Ok r.
Proof.
  unfold normalizeQuery in Hq.
  destruct (200 <? length (trim q)) eqn:Hlong; [discriminate|].
  destruct (length (trim q) =? 0) eqn:Hempty; [discriminate|].
  injection Hq as <-. cbn [normalized] in *.
  unfold normalizeQuery.
  rewrite TrimFacts.trim_toLowerCase, TrimFacts.trim_idempotent.
  apply Nat.ltb_ge in Hlen. rewrite Hlen.
  assert (Hne : (length (toLowerCase (trim q)) =? 0) = false).
  { destruct (trim q); [discriminate | reflexivity]. }
  rewrite Hne. now rewrite JsStringFacts.toLowerCase_idempotent.
Qed.

Lemma normalizeQuery_idempotent_witness :
  normalizeQuery (str "hello, world")
  = Ok {| normalized := str "hello, world"; type := sentence |}.
Proof.
  refine (normalizeQuery_idempotent (str "  Hello, World ")
            {| normalized := str "hello, world"; type := sentence |} eq_refl _).
  cbn. lia.
Defined.

End CanonicalFacts.

(** ** services/streamCache.ts *)
Module StreamCacheFacts.
Import JsString StreamManager StreamCache.

Section Key.
Variable generateHash : jsstring -> jsstring.

Lemma normalizedContext_trim (c : option jsstring) :
  normalizedContext (trim <$> c) = normalizedContext c.
Proof.
  destruct c as [s|]; [|reflexivity]. cbn.
  now rewrite TrimFacts.trim_idempotent.
Qed.

Lemma normalizedContext_lower (c : option jsstring) :
  normalizedContext (toLowerCase <$> c) = normalizedContext c.
Proof.
  destruct c as [s|]; [|reflexivity]. cbn.
  now rewrite TrimFacts.trim_toLowerCase, JsStringFacts.toLowerCase_idempotent.
Qed.

(** X2.  The cache key of an analysis request does not depend on the case of
    any field nor on white space around it, and an absent context counts as
    an empty or blank one.  In particular the key the route computes from
    the fields it has trimmed or lower-cased is the key of the raw fields. *)
Theorem generateStreamCacheKey_canonical
    (sentence targetWord targetLanguage nativeLanguage : jsstring)
    (contextBefore contextAfter : option jsstring) :
  let key := generateStreamCacheKey generateHash in
  key (trim sentence) (trim targetWord) (toLowerCase targetLanguage)
      (toLowerCase nativeLanguage) (trim <$> contextBefore) (trim <$> contextAfter)
  = key sentence targetWord targetLanguage nativeLanguage contextBefore contextAfter
  /\ key (toLowerCase sentence) (toLowerCase targetWord) (toLowerCase targetLanguage)
         (toLowerCase nativeLanguage) (toLowerCase <$> contextBefore)
         (toLowerCase <$> contextAfter)
     = key sentence targetWord targetLanguage nativeLanguage contextBefore contextAfter
  /\ key (trim sentence) (trim targetWord) (trim targetLanguage)
         (trim nativeLanguage) contextBefore contextAfter
     = key sentence targetWord targetLanguage nativeLanguage contextBefore contextAfter
  /\ (forall blank, trim blank = [] ->
        key sentence targetWord targetLanguage nativeLanguage (Some blank) contextAfter
        = key sentence targetWord targetLanguage nativeLanguage None contextAfter
        /\ key sentence targetWord targetLanguage nativeLanguage contextBefore (Some blank)
           = key sentence targetWord targetLanguage nativeLanguage contextBefore None).
Proof.
  cbv zeta. unfold generateStreamCacheKey.
  rewrite !normalizedContext_trim, !normalizedContext_lower.
  rewrite !TrimFacts.trim_idempotent, !TrimFacts.trim_toLowerCase,
    !JsStringFacts.toLowerCase_idempotent.
  split; [reflexivity|]. split; [reflexivity|]. split; [reflexivity|].
  intros blank Hblank. cbn [normalizedContext]. rewrite Hblank.
  split; reflexivity.
Qed.

End Key.

(** *** Artificial chunks *)

Lemma findBreak_bounds (text : jsstring) (currentIndex chunkSize i b : nat) :
  findBreak text currentIndex chunkSize i = Some b ->
  2 * currentIndex + chunkSize + 2 < 2 * b /\ b <= i + 1 /\ b <= length text.
Proof.
  induction i as [|i IH]; cbn -[Nat.ltb Nat.mul].
  - destruct (2 * currentIndex + chunkSize <? 2 * 0) eqn:E; [|discriminate].
    apply Nat.ltb_lt in E. lia.
  - destruct (2 * currentIndex + chunkSize <? 2 * S i) eqn:E; [|discriminate].
    apply Nat.ltb_lt in E.
    destruct (isBreakChar (text !! S i)) eqn:Hb.
    + intros [= <-]. repeat split; try lia.
      unfold isBreakChar in Hb.
      destruct (text !! S i) eqn:Hl; [|discriminate].
      apply lookup_lt_Some in Hl. lia.
    + intros H. specialize (IH H). lia.
Qed.

Lemma substring_drop (text : jsstring) (from to : nat) :
  from <= to <= length text ->
  substring text from to ++ drop to text = drop from text
  /\ length (substring text from to) = to - from.
Proof.
  intros H. unfold substring. split.
  - replace (drop to text) with (drop (to - from) (drop from text)).
    + apply take_drop.
    + rewrite drop_drop. f_equal. lia.
  - rewrite length_take, length_drop. lia.
Qed.

Lemma wellChunked_cons (chunkSize : nat) (c : jsstring) (rest : list jsstring) :
  0 < length c <= chunkSize + 1 ->
  (rest <> [] -> chunkSize < 2 * length c) ->
  wellChunked chunkSize rest -> wellChunked chunkSize (c :: rest).
Proof.
  intros Hc Hhalf [Hall Hrest]. split; [now constructor|].
  intros [|i] x Hx Hi; cbn in *.
  - injection Hx as <-. apply Hhalf. destruct rest; [cbn in Hi; lia | discriminate].
  - apply (Hrest i x Hx). lia.
Qed.

Lemma chunksFrom_total (fuel : nat) (text : jsstring) (chunkSize currentIndex : nat) :
  0 < chunkSize -> currentIndex <= length text ->
  length text - currentIndex <= fuel ->
  exists chunks,
    chunksFrom fuel text chunkSize currentIndex = Some chunks
    /\ concat chunks = drop currentIndex text
    /\ wellChunked chunkSize chunks.
Proof.
  intros Hsize. revert currentIndex.
  induction fuel as [|fuel IH]; intros currentIndex Hle Hfuel.
  - assert (currentIndex = length text) as -> by lia.
    exists []. cbn -[Nat.ltb]. rewrite Nat.ltb_irrefl, drop_all.
    repeat split; [constructor | intros i c Hc; discriminate].
  - cbn -[Nat.ltb Nat.min].
    destruct (currentIndex <? length text) eqn:Hlt.
    2:{ apply Nat.ltb_ge in Hlt. assert (currentIndex = length text) as -> by lia.
        exists []. rewrite drop_all.
        repeat split; [constructor | intros i c Hc; discriminate]. }
    apply Nat.ltb_lt in Hlt.
    set (e0 := Nat.min (currentIndex + chunkSize) (length text)).
    set (e := if e0 <? length text
              then match findBreak text currentIndex chunkSize e0 with
                   | Some b => b
                   | None => e0
                   end
              else e0).
    assert (He : currentIndex < e <= length text
                 /\ e - currentIndex <= chunkSize + 1
                 /\ (e < length text -> chunkSize < 2 * (e - currentIndex))).
    { subst e. destruct (e0 <? length text) eqn:He0.
      - apply Nat.ltb_lt in He0.
        assert (e0 = currentIndex + chunkSize) by (subst e0; lia).
        destruct (findBreak text currentIndex chunkSize e0) as [b|] eqn:Hb.
        + apply findBreak_bounds in Hb. lia.
        + lia.
      - apply Nat.ltb_ge in He0. subst e0. lia. }
    destruct He as (Hrange & Hmax & Hhalf).
    destruct (IH e) as (rest & Hrest & Hcat & Hwell); [lia | lia |].
    rewrite Hrest. cbn.
    exists (substring text currentIndex e :: rest).
    destruct (substring_drop text currentIndex e) as [Happ Hlen]; [lia|].
    split; [reflexivity|]. split.
    + cbn. now rewrite Hcat.
    + apply wellChunked_cons; [rewrite Hlen; lia | | exact Hwell].
      rewrite Hlen. intros Hne. apply Hhalf.
      destruct (decide (e < length text)) as [|Hn]; [assumption|].
      assert (e = length text) as -> by lia.
      rewrite drop_all in Hcat. destruct Hwell as [Hall _].
      destruct rest as [|c rest']; [contradiction|].
      apply Forall_cons in Hall as [Hc _]. cbn in Hcat.
      destruct c; [cbn in Hc; lia | discriminate].
Qed.

(** X3.  Splitting a text into artificial chunks loses nothing: for every
    positive chunk size the function returns, the chunks put together give
    the text back, no chunk is empty, none has more than [chunkSize + 1]
    characters, and every chunk but the last has more than half of
    [chunkSize]. *)
Theorem generateArtificialChunks_partition (text : jsstring) (chunkSize : nat)
    (Hsize : 0 < chunkSize) :
  exists chunks,
    generateArtificialChunks text chunkSize = Some chunks
    /\ concat chunks = text
    /\ Forall (fun c => 0 < length c <= chunkSize + 1) chunks
    /\ forall i c, chunks !! i = Some c -> i + 1 < length chunks ->
         chunkSize < 2 * length c.
Proof.
  destruct (chunksFrom_total (length text) text chunkSize 0 Hsize)
    as (chunks & Hc & Hcat & Hall & Hhalf); [lia | lia |].
  exists chunks. repeat split; assumption.
Qed.

Lemma generateArtificialChunks_partition_witness :
  exists chunks,
    generateArtificialChunks (str "{abc def, ghi.jkl}[mno] pqr stu vwx yz") 10
    = Some chunks
    /\ concat chunks = str "{abc def, ghi.jkl}[mno] pqr stu vwx yz"
    /\ Forall (fun c => 0 < length c <= 10 + 1) chunks
    /\ forall i c, chunks !! i = Some c -> i + 1 < length chunks ->
         10 < 2 * length c.
Proof.
  apply generateArtificialChunks_partition. lia.
Defined.

(** *** Replay from the cache *)

Lemma artificialReplay_frames (chunks : list jsstring) :
  writtenFrames (artificialReplay chunks) = map ChunkFrame chunks
  /\ Forall (fun d => (5 <= d <= 30)%Z) (delaysOf (artificialReplay chunks)).
Proof.
  induction chunks as [|c [|c' r] IH]; [split; [reflexivity|constructor]
                                        |split; [reflexivity|constructor]|].
  destruct IH as [IHf IHd]. split.
  - change (writtenFrames (artificialReplay (c :: c' :: r)))
      with (ChunkFrame c :: writtenFrames (artificialReplay (c' :: r))).
    now rewrite IHf.
  - change (delaysOf (artificialReplay (c :: c' :: r)))
      with (15%Z :: delaysOf (artificialReplay (c' :: r))).
    constructor; [lia | exact IHd].
Qed.

Lemma storedReplay_frames (chunks : list ChunkMetadata) :
  writtenFrames (storedReplay chunks) = map ChunkFrame (map text chunks)
  /\ Forall (fun d => (5 <= d <= 30)%Z) (delaysOf (storedReplay chunks)).
Proof.
  induction chunks as [|c [|c' r] IH]; [split; [reflexivity|constructor]
                                        |split; [reflexivity|constructor]|].
  destruct IH as [IHf IHd]. split.
  - change (writtenFrames (storedReplay (c :: c' :: r)))
      with (ChunkFrame (text c) :: writtenFrames (storedReplay (c' :: r))).
    now rewrite IHf.
  - change (delaysOf (storedReplay (c :: c' :: r)))
      with (replayDelay c c' :: delaysOf (storedReplay (c' :: r))).
    constructor; [unfold replayDelay; lia | exact IHd].
Qed.

Lemma replay_tail (actions : list ReplayAction) (texts : list jsstring)
    (fullResponse : jsstring) :
  writtenFrames actions = map ChunkFrame texts ->
  Forall (fun d => (5 <= d <= 30)%Z) (delaysOf actions) ->
  let all := actions ++ [Write (DoneFrame fullResponse); EndResponse] in
  writtenFrames all = map ChunkFrame texts ++ [DoneFrame fullResponse]
  /\ last all = Some EndResponse
  /\ Forall (fun d => (5 <= d <= 30)%Z) (delaysOf all).
Proof.
  intros Hf Hd all. subst all. unfold writtenFrames, delaysOf in *.
  rewrite !omap_app, Hf. cbn. rewrite app_nil_r.
  repeat split; [|exact Hd].
  change (actions ++ [Write (DoneFrame fullResponse); EndResponse])
    with (actions ++ [Write (DoneFrame fullResponse)] ++ [EndResponse]).
  rewrite app_assoc. apply last_snoc.
Qed.

(** X4.  A replay from the Analysis Cache always ends the response after
    exactly one done frame, which comes last and carries the stored analysis;
    every pause between two chunks lasts between 5 and 30 ms.  The chunk
    frames before it are the stored chunks in their order or, for a row
    without stored chunks, pieces whose concatenation is the text of the done
    frame. *)
Theorem simulateStreamReplay_frames (cachedAnalysis : CachedAnalysis) :
  exists actions texts,
    simulateStreamReplay cachedAnalysis = Some actions
    /\ writtenFrames actions
       = map ChunkFrame texts ++ [DoneFrame (serialized cachedAnalysis)]
    /\ last actions = Some EndResponse
    /\ Forall (fun d => (5 <= d <= 30)%Z) (delaysOf actions)
    /\ match responseChunks cachedAnalysis with
       | Some (chunk :: rest) => texts = map text (chunk :: rest)
       | _ => concat texts = serialized cachedAnalysis
       end.
Proof.
  assert (Hlegacy : forall fullResponse,
            exists chunks,
              generateArtificialChunks fullResponse 100 = Some chunks
              /\ concat chunks = fullResponse).
  { intros fullResponse.
    destruct (chunksFrom_total (length fullResponse) fullResponse 100 0)
      as (chunks & Hc & Hcat & _); [lia | lia | lia |].
    now exists chunks. }
  unfold simulateStreamReplay.
  destruct (responseChunks cachedAnalysis) as [[|chunk rest]|].
  - destruct (Hlegacy (serialized cachedAnalysis)) as (chunks & -> & Hcat). cbn.
    destruct (artificialReplay_frames chunks) as [Hf Hd].
    destruct (replay_tail _ _ (serialized cachedAnalysis) Hf Hd) as (H1 & H2 & H3).
    eexists _, chunks. repeat split; eassumption.
  - destruct (storedReplay_frames (chunk :: rest)) as [Hf Hd].
    destruct (replay_tail _ _ (serialized cachedAnalysis) Hf Hd) as (H1 & H2 & H3).
    eexists _, _. repeat split; eassumption.
  - destruct (Hlegacy (serialized cachedAnalysis)) as (chunks & -> & Hcat). cbn.
    destruct (artificialReplay_frames chunks) as [Hf Hd].
    destruct (replay_tail _ _ (serialized cachedAnalysis) Hf Hd) as (H1 & H2 & H3).
    eexists _, chunks. repeat split; eassumption.
Qed.

(** *** Saving with retries *)

(** X5.  [saveStreamCacheWithRetry] never retries: [saveStreamCache] turns
    every failure into the result [null], so whenever at least one attempt
    is allowed the first call is the only one, no back-off delay is waited,
    and a failed first attempt gives [null] whatever later attempts would
    have met. *)
Theorem saveStreamCacheWithRetry_single_attempt {Row}
    (outcomes : nat -> SaveAttempt Row) (maxRetries : nat)
    (Hretries : 0 < maxRetries) :
  saveStreamCacheWithRetry outcomes maxRetries
  = (match outcomes 1 with
     | Inserted row => Some row
     | _ => None
     end, [CallSave 1]).
Proof.
  unfold saveStreamCacheWithRetry.
  destruct maxRetries as [|n]; [lia|].
  cbn [retryLoop]. unfold saveStreamCache, tryCatch, saveBody.
  destruct (outcomes 1); reflexivity.
Qed.

Lemma saveStreamCacheWithRetry_single_attempt_witness :
  saveStreamCacheWithRetry
    (fun attempt => if attempt =? 1 then InsertThrows (str "deadlock detected")
                    else Inserted (str "row")) 3
  = (None, [CallSave 1]).
Proof.
  exact (saveStreamCacheWithRetry_single_attempt
           (fun attempt => if attempt =? 1 then InsertThrows (str "deadlock detected")
                           else Inserted (str "row")) 3 ltac:(lia)).
Defined.

End StreamCacheFacts.

(** ** db/aiPaywall.ts: statistics, cleanup, and the counter over time *)
Module AiPaywallStatsFacts.
Import JsString AiPaywall AiPaywallStats.
Local Open Scope Z_scope.

(** X6.  The usage statistics shown to a user agree with the gate at the
    same instant: same count, same limit, same subscription flag; a request
    the gate refuses has a reset time in the statistics, that time lies in
    the future and the refusal's waiting time is the time left until it,
    rounded up to seconds; and when the statistics show no reset time the
    gate lets the request through. *)
Theorem getAiUsageStats_agrees_with_gate
    (db : UsageTable) (now : Z) (u : jsstring) (subscribed : bool) :
  let stats := getAiUsageStats db now u subscribed in
  let gate := checkAiPaywall db now u subscribed in
  statsRequestsUsed stats = requestsUsed gate
  /\ statsRequestsLimit stats = requestsLimit gate
  /\ statsHasSubscription stats = hasSubscription gate
  /\ (allowed gate = false ->
      exists resetAt,
        windowResetAt stats = Some resetAt /\ now < resetAt
        /\ retryAfterSeconds gate = Some (ceilSeconds (resetAt - now)))
  /\ (windowResetAt stats = None -> allowed gate = true).
Proof.
  unfold getAiUsageStats, checkAiPaywall.
  destruct subscribed; [cbn; repeat split; congruence|].
  destruct (db !! u) as [record|]; [|cbn; repeat split; congruence].
  destruct (windowStart record + windowDurationMs <=? now) eqn:Hw;
    [cbn; repeat split; congruence|].
  apply Z.leb_gt in Hw.
  destruct (FREE_REQUESTS_LIMIT <=? requestCount record); cbn.
  - repeat split; try congruence. intros _. eexists. repeat split. exact Hw.
  - repeat split; congruence.
Qed.

Lemma cleanup_lookup (db : UsageTable) (cleanupTime : Z) (u : jsstring) :
  cleanupExpiredPaywallRecords db cleanupTime !! u
  = match db !! u with
    | Some record =>
        if windowStart record <? cleanupTime - 28800000 then None else Some record
    | None => None
    end.
Proof.
  unfold cleanupExpiredPaywallRecords. rewrite map_lookup_filter.
  destruct (db !! u) as [record|]; [|reflexivity]. cbn.
  destruct (windowStart record <? cleanupTime - 28800000) eqn:E.
  - apply Z.ltb_lt in E. rewrite option_guard_False; [reflexivity|]. cbn. lia.
  - apply Z.ltb_ge in E. rewrite option_guard_True; [reflexivity|]. cbn. lia.
Qed.

(** X7.  The cleanup of old quota rows cannot be observed by a user: at any
    time from the cleanup on, the gate, the statistics and the row left by
    the next counted request are what they would have been without it (the
    rows it deletes are older than 8 hours, and the window is 4 hours); and
    the cleanup only deletes rows. *)
Theorem cleanupExpiredPaywallRecords_unobservable
    (db : UsageTable) (cleanupTime now : Z) (u : jsstring) (subscribed : bool)
    (Hlater : cleanupTime <= now) :
  let db' := cleanupExpiredPaywallRecords db cleanupTime in
  checkAiPaywall db' now u subscribed = checkAiPaywall db now u subscribed
  /\ getAiUsageStats db' now u subscribed = getAiUsageStats db now u subscribed
  /\ incrementAiUsage db' now u !! u = incrementAiUsage db now u !! u
  /\ db' ⊆ db.
Proof.
  intros db'.
  assert (Hrow : db' !! u = db !! u
                 \/ (db' !! u = None
                     /\ exists record, db !! u = Some record
                          /\ windowStart record + windowDurationMs <= now)).
  { subst db'. rewrite cleanup_lookup.
    destruct (db !! u) as [record|]; [|now left].
    destruct (windowStart record <? cleanupTime - 28800000) eqn:E; [|now left].
    right. split; [reflexivity|]. exists record. split; [reflexivity|].
    apply Z.ltb_lt in E. unfold windowDurationMs, FREE_REQUESTS_WINDOW_MINUTES. lia. }
  repeat split.
  - unfold checkAiPaywall. destruct subscribed; [reflexivity|].
    destruct Hrow as [-> | (-> & record & -> & Hold)]; [reflexivity|].
    apply Z.leb_le in Hold. now rewrite Hold.
  - unfold getAiUsageStats. destruct subscribed; [reflexivity|].
    destruct Hrow as [-> | (-> & record & -> & Hold)]; [reflexivity|].
    apply Z.leb_le in Hold. now rewrite Hold.
  - rewrite !PaywallFacts.incrementAiUsage_counter.
    destruct Hrow as [-> | (-> & record & -> & Hold)]; [reflexivity|].
    apply Z.leb_le in Hold. now rewrite Hold.
  - subst db'. apply map_filter_subseteq.
Qed.

Lemma cleanupExpiredPaywallRecords_unobservable_witness :
  let db : UsageTable :=
    {[ str "u" := {| requestCount := 3; windowStart := 0 |} ]} in
  checkAiPaywall (cleanupExpiredPaywallRecords db 30000000) 30000000 (str "u") false
  = checkAiPaywall db 30000000 (str "u") false
  /\ cleanupExpiredPaywallRecords db 30000000 !! str "u" = None.
Proof.
  intros db. split.
  - apply (cleanupExpiredPaywallRecords_unobservable db 30000000 30000000
             (str "u") false). lia.
  - rewrite cleanup_lookup. reflexivity.
Defined.

Lemma incrementAiUsage_other (db : UsageTable) (now : Z) (u v : jsstring) :
  u <> v -> incrementAiUsage db now u !! v = db !! v.
Proof.
  intros Hne. unfold incrementAiUsage.
  destruct (db !! u) as [record|];
    [destruct (windowStart record + windowDurationMs <=? now)|];
    now rewrite lookup_insert_ne.
Qed.

Lemma serve_withinLimit (w : Paywall.PaywallWorld) (env : Paywall.Environment)
    (req : Paywall.PaywallRequest) :
  Paywall.nowPaywallCheck env <= Paywall.nowIncrement env ->
  withinLimit (Paywall.usage w) ->
  withinLimit (Paywall.usage (serve w (env, req))).
Proof.
  intros Hclock Hinv. unfold serve, Paywall.aiPaywallMiddleware. cbn [fst snd].
  destruct (Paywall.requestUserId req) as [userId|]; [|exact Hinv].
  destruct (RevenueCat.checkSubscription _ _ _ _ _ _ _) as [status cache'].
  cbn [Paywall.apiKey Paywall.subscriptionCache Paywall.usage].
  destruct (negb (RevenueCat.isActive status) && negb (Paywall.databaseUp env));
    [exact Hinv|].
  destruct (RevenueCat.isActive status) eqn:Hactive.
  { cbn. exact Hinv. }
  pose proof (PaywallFacts.checkAiPaywall_free (Paywall.usage w)
                (Paywall.nowPaywallCheck env) userId) as (_ & _ & Hallowed & _).
  destruct (allowed (checkAiPaywall (Paywall.usage w)
                       (Paywall.nowPaywallCheck env) userId false)) eqn:Ha;
    [|exact Hinv].
  cbn [negb Paywall.usage snd].
  pose proof (proj1 Hallowed eq_refl) as Hused.
  intros v record Hv.
  destruct (decide (userId = v)) as [<-|Hne].
  2:{ rewrite incrementAiUsage_other in Hv by exact Hne. exact (Hinv v record Hv). }
  rewrite PaywallFacts.incrementAiUsage_counter in Hv.
  unfold countedRequests in Hused.
  destruct (Paywall.usage w !! userId) as [old|]; [|injection Hv as <-; cbn; lia].
  destruct (windowStart old + windowDurationMs <=? Paywall.nowIncrement env) eqn:E;
    injection Hv as <-; cbn; [lia|].
  apply Z.leb_gt in E.
  destruct (windowStart old + windowDurationMs <=? Paywall.nowPaywallCheck env) eqn:E';
    [apply Z.leb_le in E'; lia | lia].
Qed.

(** X8.  Served one request after the other, by a clock that does not go
    back inside a request, the middleware never lets a stored counter pass
    the limit of 3: if no row is above the limit before, none is after any
    sequence of requests, whoever sends them and whatever the provider
    answers. *)
Theorem serveAll_counters_within_limit
    (w : Paywall.PaywallWorld)
    (requests : list (Paywall.Environment * Paywall.PaywallRequest))
    (Hstart : forall u record,
        Paywall.usage w !! u = Some record -> requestCount record <= 3)
    (Hclock : Forall (fun r => Paywall.nowPaywallCheck r.1
                               <= Paywall.nowIncrement r.1) requests) :
  forall u record,
    Paywall.usage (serveAll w requests) !! u = Some record ->
    requestCount record <= 3.
Proof.
  change (withinLimit (Paywall.usage (serveAll w requests))).
  change (withinLimit (Paywall.usage w)) in Hstart.
  revert w Hstart. induction Hclock as [|[env req] rest Hc _ IH]; intros w Hstart.
  - exact Hstart.
  - cbn [serveAll foldl]. apply IH. now apply serve_withinLimit.
Qed.

Lemma serveAll_counters_within_limit_witness :
  let w := {| Paywall.apiKey := true; Paywall.subscriptionCache := ∅;
              Paywall.usage := ∅ |} in
  let env := fun t =>
    {| Paywall.nowCacheCheck := t; Paywall.nowReply := t + 1;
       Paywall.nowPaywallCheck := t + 2; Paywall.nowIncrement := t + 3;
       Paywall.providerReply := RevenueCat.HttpOk RevenueCat.inactiveStatus;
       Paywall.databaseUp := true |} in
  let req := {| Paywall.bodyUserId := Some (str "u"); Paywall.headerUserId := None;
                Paywall.headerRefresh := None |} in
  let requests := [(env 0, req); (env 10, req); (env 20, req); (env 30, req);
                   (env 40, req)] in
  Paywall.usage (serveAll w requests) !! str "u"
  = Some {| requestCount := 3; windowStart := 3 |}
  /\ forall u record,
       Paywall.usage (serveAll w requests) !! u = Some record ->
       requestCount record <= 3.
Proof.
  intros w env req requests. split; [vm_compute; reflexivity|].
  apply serveAll_counters_within_limit.
  - intros u record H. subst w. cbn in H. rewrite lookup_empty in H. discriminate.
  - subst requests env. repeat constructor; cbn; lia.
Defined.

End AiPaywallStatsFacts.

(** ** services/revenueCat.ts: reading the provider's answer *)
Module EntitlementsFacts.
Import JsString RevenueCat Entitlements.
Local Open Scope Z_scope.

Lemma property_Own {A} (obj : list (jsstring * A)) (key : jsstring) (v : A) :
  property obj key = Own v -> (key, v) ∈ obj.
Proof.
  unfold property.
  destruct (find _ obj) as [[k a]|] eqn:E.
  - intros [= <-]. apply find_some in E as [Hin Hk].
    cbn in Hk. destruct (decide (k = key)) as [<-|]; [|discriminate].
    now apply list_elem_of_In.
  - destruct (decide (key ∈ prototypeKeys)); discriminate.
Qed.

(** X9.  The provider's answer counts as an active subscription exactly when
    some entitlement in it has no expiry date or one in the future (an
    unreadable date counts as expired), or when the configured premium
    identifier is no entitlement of the answer but the name of a property
    every object inherits (constructor, toString, ...): the lookup
    [entitlements[premiumEntitlementId]] then finds that property, which has
    no expiry date.  In the first case the entitlement reported is such an
    entitlement, with its product and expiry date; if the premium
    entitlement is one, it is the one reported, and then renewal is reported
    whatever the subscriptions say.  In the second case the premium
    identifier is reported without product or date.  Otherwise the answer is
    the inactive status. *)
Theorem parseSubscriptionStatus_active_iff_unexpired
    (premium : jsstring) (now : Z) (data : Subscriber) :
  let status := parseSubscriptionStatus premium now data in
  (isActive status = true
   <-> (exists id e, (id, e) ∈ entitlements data /\ unexpired now e = true)
       \/ property (entitlements data) premium = Inherited)
  /\ (isActive status = true ->
      (exists id e,
         (id, e) ∈ entitlements data /\ unexpired now e = true
         /\ entitlementId status = Some id
         /\ productId status = Some (product_identifier e)
         /\ expiresDate status = dateOf e)
      \/ (property (entitlements data) premium = Inherited
          /\ status = {| isActive := true; entitlementId := Some premium;
                         expiresDate := None; productId := None;
                         willRenew := true |}))
  /\ (forall e,
        property (entitlements data) premium = Own e -> unexpired now e = true ->
        entitlementId status = Some premium /\ willRenew status = true)
  /\ (isActive status = false -> status = inactiveStatus).
Proof.
  cbv zeta.
  assert (Hloop :
    forall status,
      status = match find (fun p => unexpired now p.2) (entitlements data) with
               | Some (entitlementId, entitlement) =>
                   {| isActive := true; entitlementId := Some entitlementId;
                      expiresDate := dateOf entitlement;
                      productId := Some (product_identifier entitlement);
                      willRenew :=
                        match property (subscriptions data)
                                (product_identifier entitlement) with
                        | Own productSub => negb (unsubscribed productSub)
                        | Inherited => true
                        | Undefined => true
                        end |}
               | None => inactiveStatus
               end ->
      (isActive status = true
       <-> exists id e, (id, e) ∈ entitlements data /\ unexpired now e = true)
      /\ (isActive status = true ->
          exists id e,
            (id, e) ∈ entitlements data /\ unexpired now e = true
            /\ entitlementId status = Some id
            /\ productId status = Some (product_identifier e)
            /\ expiresDate status = dateOf e)
      /\ (isActive status = false -> status = inactiveStatus)).
  { intros status ->.
    destruct (find _ (entitlements data)) as [[id e]|] eqn:E.
    - apply find_some in E as [Hin Hlive]. apply list_elem_of_In in Hin.
      cbn in *. repeat split; try discriminate; intros _; exists id, e; auto.
    - cbn. repeat split; try discriminate.
      intros (id & e & Hin & Hlive). apply list_elem_of_In in Hin.
      pose proof (find_none _ _ E _ Hin) as Hn. cbn in Hn. congruence. }
  unfold parseSubscriptionStatus.
  destruct (property (entitlements data) premium) as [pe| |] eqn:Hp.
  - destruct (unexpired now pe) eqn:Hlive.
    + apply property_Own in Hp. cbn.
      split; [split; [intros _; left; exists premium, pe; auto | reflexivity]|].
      split; [intros _; left; exists premium, pe; auto|].
      split; [intros e [= <-] _; split; reflexivity | discriminate].
    + destruct (Hloop _ eq_refl) as (H1 & H2 & H3).
      split; [split; [intros H; left; now apply H1
                     | intros [H|H]; [now apply H1 | discriminate]]|].
      split; [intros H; left; now apply H2|].
      split; [intros e [= <-]; congruence | exact H3].
  - cbn.
    split; [split; [intros _; now right | reflexivity]|].
    split; [intros _; right; split; reflexivity|].
    split; [discriminate | discriminate].
  - destruct (Hloop _ eq_refl) as (H1 & H2 & H3).
    split; [split; [intros H; left; now apply H1
                   | intros [H|H]; [now apply H1 | discriminate]]|].
    split; [intros H; left; now apply H2|].
    split; [discriminate | exact H3].
Qed.

(** With [REVENUECAT_ENTITLEMENT_ID] set to [constructor], a subscriber
    without any entitlement is reported active. *)
Example parseSubscriptionStatus_inherited_name :
  isActive (parseSubscriptionStatus (str "constructor") 0
              {| entitlements := []; subscriptions := [] |}) = true
  /\ isActive (parseSubscriptionStatus (str "premium") 0
                 {| entitlements := []; subscriptions := [] |}) = false.
Proof. split; reflexivity. Qed.

End EntitlementsFacts.

(** ** db/wordIndex.ts: adding a video to the index *)
Module WordIndexAddFacts.
Import JsString WordIndex WordIndexRows.

Lemma sameExample_refl (v : VideoResponse) : sameExample v v = true.
Proof.
  unfold sameExample. destruct (decide (videoId v = videoId v)); [|congruence].
  cbn. rewrite !(proj2 (Qeq_bool_iff _ _) (Qeq_refl _)). reflexivity.
Qed.

Lemma withExample_has (v : VideoResponse) (old : list VideoResponse) :
  existsb (fun example => sameExample example v) (withExample v old) = true.
Proof.
  unfold withExample.
  destruct (existsb _ old) eqn:E; [exact E|].
  rewrite existsb_app. cbn. now rewrite sameExample_refl, orb_true_r.
Qed.

Lemma withExample_idempotent (v : VideoResponse) (old : list VideoResponse) :
  withExample v (withExample v old) = withExample v old.
Proof. unfold withExample at 1. now rewrite withExample_has. Qed.

Lemma addWord_lookup (v : VideoResponse) (db : WordIndexTable) (w w' : jsstring) :
  addWord v db w !! w'
  = if decide (w' = w) then Some (withExample v (default [] (db !! w)))
    else db !! w'.
Proof.
  unfold addWord, withExample.
  destruct (decide (w' = w)) as [->|Hne].
  - destruct (db !! w) as [old|] eqn:E; cbn.
    + destruct (existsb _ old); [exact E | apply lookup_insert_eq].
    + apply lookup_insert_eq.
  - destruct (db !! w) as [old|] eqn:E; cbn.
    + destruct (existsb _ old); [reflexivity | now apply lookup_insert_ne].
    + now apply lookup_insert_ne.
Qed.

(** What [addVideoToWordIndex] leaves in the table, row by row. *)
Lemma addVideoToWordIndex_lookup (words : list jsstring) (v : VideoResponse)
    (db : WordIndexTable) (w : jsstring) :
  addVideoToWordIndex words v db !! w
  = if decide (w ∈ words) then Some (withExample v (default [] (db !! w)))
    else db !! w.
Proof.
  unfold addVideoToWordIndex. revert db.
  induction words as [|w0 ws IH]; intros db; cbn [foldl].
  - destruct (decide (w ∈ [])) as [H|]; [inversion H | reflexivity].
  - rewrite IH, addWord_lookup.
    destruct (decide (w = w0)) as [->|Hne].
    + cbn. rewrite withExample_idempotent.
      destruct (decide (w0 ∈ ws)), (decide (w0 ∈ w0 :: ws)) as [|Hn];
        try reflexivity.
      all: exfalso; apply Hn; constructor.
    + destruct (decide (w ∈ ws)) as [Hin|Hout],
               (decide (w ∈ w0 :: ws)) as [Hin'|Hout']; try reflexivity.
      * exfalso. apply Hout'. now constructor.
      * exfalso. apply elem_of_cons in Hin' as [->|Hin']; auto.
Qed.

(** X10.  Indexing a video is idempotent: adding the same video (same id,
    start and end) under the same words a second time leaves the word index
    exactly as the first time left it, so a word never lists the same clip
    twice because a job was repeated. *)
Theorem addVideoToWordIndex_idempotent (words : list jsstring)
    (v : VideoResponse) (db : WordIndexTable) :
  addVideoToWordIndex words v (addVideoToWordIndex words v db)
  = addVideoToWordIndex words v db.
Proof.
  apply map_eq. intros w.
  rewrite (addVideoToWordIndex_lookup words v (addVideoToWordIndex words v db)).
  rewrite addVideoToWordIndex_lookup.
  destruct (decide (w ∈ words)); [|reflexivity].
  cbn. now rewrite withExample_idempotent.
Qed.

(** X11.  After the words of a caption have been indexed for a video, looking
    up any of these words, in any letter case, finds a row that holds a clip
    of that video with the same start and end; the examples the word had
    before are kept, in their order, at the front of the row, and at most
    one example is added.  The rows of all other words are untouched. *)
Theorem findByWord_after_indexing (caption : jsstring) (v : VideoResponse)
    (db : WordIndexTable) (w query : jsstring)
    (Hw : w ∈ extractWords caption)
    (Hquery : toLowerCase query = w) :
  let db' := addVideoToWordIndex (extractWords caption) v db in
  exists examples,
    findByWord db' query = Some examples
    /\ (exists example, example ∈ examples /\ sameExample example v = true)
    /\ (let old := default [] (db !! w) in
        examples = old \/ examples = old ++ [v])
    /\ forall other, other ∉ extractWords caption -> db' !! other = db !! other.
Proof.
  cbv zeta. unfold findByWord. rewrite Hquery, addVideoToWordIndex_lookup.
  destruct (decide (w ∈ extractWords caption)); [|contradiction].
  eexists. split; [reflexivity|]. repeat split.
  - pose proof (withExample_has v (default [] (db !! w))) as Hhas.
    apply existsb_exists in Hhas as (example & Hin & Hsame).
    exists example. split; [now apply list_elem_of_In | exact Hsame].
  - unfold withExample. destruct (existsb _ _); auto.
  - intros other Hother. rewrite addVideoToWordIndex_lookup.
    destruct (decide (other ∈ extractWords caption)); [contradiction | reflexivity].
Qed.

Lemma findByWord_after_indexing_witness :
  let v := {| videoId := str "v1"; videoUrl := str "https://www.youtube.com/watch?v=v1";
              startTime := 1%Q; endTime := 4%Q; caption := str "Hello, World!";
              captions := [] |} in
  exists examples,
    findByWord (addVideoToWordIndex (extractWords (str "Hello, World!")) v ∅)
               (str "WORLD") = Some examples
    /\ exists example, example ∈ examples /\ sameExample example v = true.
Proof.
  intros v.
  destruct (findByWord_after_indexing (str "Hello, World!") v ∅
              (str "world") (str "WORLD")) as (examples & H1 & H2 & _).
  - vm_compute. apply list_elem_of_In. right. left. reflexivity.
  - reflexivity.
  - exists examples. split; assumption.
Defined.

End WordIndexAddFacts.

(** ** services/streamManager.ts: eviction *)
Module EvictionFacts.
Import JsString StreamManager Registry RegistryOrder.

Lemma insertByCreatedAt_perm (e : jsstring * ActiveStream)
    (l : list (jsstring * ActiveStream)) :
  insertByCreatedAt e l ≡ₚ e :: l.
Proof.
  induction l as [|x r IH]; [reflexivity|]. cbn.
  destruct (createdAt e.2 <? createdAt x.2)%Z; [reflexivity|].
  rewrite IH. apply Permutation_swap.
Qed.

Lemma sortFrom_perm (l acc : list (jsstring * ActiveStream)) :
  foldl (fun acc e => insertByCreatedAt e acc) acc l ≡ₚ acc ++ l.
Proof.
  revert acc. induction l as [|e r IH]; intros acc; cbn.
  - now rewrite app_nil_r.
  - rewrite IH, insertByCreatedAt_perm. cbn. apply Permutation_middle.
Qed.

Lemma sortByCreatedAt_perm (l : list (jsstring * ActiveStream)) :
  sortByCreatedAt l ≡ₚ l.
Proof. unfold sortByCreatedAt. now rewrite sortFrom_perm. Qed.

Lemma insertByCreatedAt_sorted (e : jsstring * ActiveStream)
    (l : list (jsstring * ActiveStream)) :
  StronglySorted older l -> StronglySorted older (insertByCreatedAt e l).
Proof.
  induction 1 as [|x r Hs IH Hx]; cbn.
  - repeat constructor.
  - destruct (createdAt e.2 <? createdAt x.2)%Z eqn:E.
    + apply Z.ltb_lt in E. constructor; [now constructor|].
      constructor; [unfold older; lia|].
      eapply Forall_impl; [exact Hx|]. unfold older. intros; cbn in *. lia.
    + apply Z.ltb_ge in E. constructor; [exact IH|].
      rewrite insertByCreatedAt_perm. constructor; [exact E | exact Hx].
Qed.

Lemma sortByCreatedAt_sorted (l : list (jsstring * ActiveStream)) :
  StronglySorted older (sortByCreatedAt l).
Proof.
  unfold sortByCreatedAt.
  assert (H : forall acc, StronglySorted older acc ->
            StronglySorted older (foldl (fun acc e => insertByCreatedAt e acc) acc l)).
  { induction l as [|e r IH]; intros acc Hacc; cbn; [exact Hacc|].
    apply IH, insertByCreatedAt_sorted, Hacc. }
  apply H. constructor.
Qed.

Lemma sorted_take_drop (l : list (jsstring * ActiveStream)) (k : nat)
    (a b : jsstring * ActiveStream) :
  StronglySorted older l -> a ∈ take k l -> b ∈ drop k l -> older a b.
Proof.
  intros Hs. revert k. induction Hs as [|x r Hs IH Hx]; intros k Ha Hb.
  - rewrite take_nil in Ha. inversion Ha.
  - destruct k as [|k]; [inversion Ha|]. cbn in Ha, Hb.
    apply elem_of_cons in Ha as [->|Ha].
    + rewrite Forall_forall in Hx. apply Hx.
      eapply elem_of_sublist; [exact Hb | apply sublist_drop].
    + exact (IH k Ha Hb).
Qed.

Lemma key_determines_entry (l : list (jsstring * ActiveStream))
    (p q : jsstring * ActiveStream) :
  NoDup (map fst l) -> p ∈ l -> q ∈ l -> p.1 = q.1 -> p = q.
Proof.
  induction l as [|x r IH]; intros Hnd Hp Hq Hk; [inversion Hp|].
  cbn in Hnd. apply NoDup_cons in Hnd as [Hx Hnd].
  apply elem_of_cons in Hp as [->|Hp]; apply elem_of_cons in Hq as [->|Hq].
  - reflexivity.
  - exfalso. apply Hx. rewrite Hk. now apply (list_elem_of_fmap_2 fst).
  - exfalso. apply Hx. rewrite <- Hk. now apply (list_elem_of_fmap_2 fst).
  - now apply IH.
Qed.

(** X12.  When the registry is full, the eviction deletes only streams that
    are completed and have no subscriber, never an active or failed stream
    nor one somebody listens to; it deletes max(1, n/10) of the n such
    streams (all of them if there are fewer), and those it deletes are the
    oldest: none of them was created after a completed idle stream that
    stays. *)
Theorem eviction_takes_oldest_idle (m : Manager)
    (Hkeys : NoDup (map fst (streams m))) :
  let m' := cleanupOldestCompletedStreams m in
  let n := length (filter (fun p => evictable p = true) (streams m)) in
  (forall p, p ∈ streams m' -> p ∈ streams m)
  /\ (forall p, p ∈ streams m -> p ∉ streams m' ->
        status p.2 = completed /\ subscribers p.2 = ∅)
  /\ length (streams m') + Nat.min (Nat.max 1 (n / 10)) n = length (streams m)
  /\ (forall removed kept,
        removed ∈ streams m -> removed ∉ streams m' ->
        kept ∈ streams m' -> evictable kept = true ->
        (createdAt removed.2 <= createdAt kept.2)%Z)
  /\ connections m' = connections m.
Proof.
  intros m' n.
  set (l := streams m) in *.
  set (E := filter (fun p => evictable p = true) l) in *.
  set (S := sortByCreatedAt E).
  set (k := Nat.max 1 (length S / 10)).
  set (V := take k S).
  assert (Hm' : streams m' = filter (fun p => p.1 ∉ map fst V) l) by reflexivity.
  assert (HS : forall p, p ∈ S <-> p ∈ l /\ evictable p = true).
  { intros p. subst S. rewrite sortByCreatedAt_perm. subst E.
    rewrite list_elem_of_filter. tauto. }
  assert (HV : forall p, p ∈ V -> p ∈ S).
  { intros p Hp. eapply elem_of_sublist; [exact Hp | apply sublist_take]. }
  assert (Hgone : forall p, p ∈ l -> p ∉ streams m' -> p ∈ V).
  { intros p Hp Hout. rewrite Hm', list_elem_of_filter in Hout.
    destruct (decide (p.1 ∈ map fst V)) as [Hin|Hnin]; [|tauto].
    apply list_elem_of_fmap in Hin as (q & Hk & Hq).
    assert (p = q) as ->; [|exact Hq].
    apply (key_determines_entry l); [exact Hkeys | exact Hp | | exact Hk].
    now apply HS, HV. }
  assert (HndE : NoDup l) by (apply (NoDup_fmap_1 fst), Hkeys).
  assert (HndS : NoDup S).
  { subst S. rewrite sortByCreatedAt_perm. subst E. now apply NoDup_filter. }
  split; [|split; [|split; [|split]]].
  - intros p Hp. rewrite Hm', list_elem_of_filter in Hp. tauto.
  - intros p Hp Hout. apply Hgone, HV, HS in Hout as [_ He]; [|exact Hp].
    unfold evictable in He. apply andb_true_iff in He as [H1 H2].
    split; [exact (proj1 (bool_decide_eq_true _) H1)
           | exact (proj1 (bool_decide_eq_true _) H2)].
  - assert (Hperm : filter (fun p : jsstring * ActiveStream => ~ (p.1 ∉ map fst V)) l ≡ₚ V).
    { apply NoDup_Permutation.
      - now apply NoDup_filter.
      - eapply sublist_NoDup; [exact HndS | apply sublist_take].
      - intros p. rewrite list_elem_of_filter. split.
        + intros [Hin Hp]. apply Hgone; [exact Hp|].
          rewrite Hm', list_elem_of_filter. tauto.
        + intros Hp. split.
          * intros Hn. apply Hn. now apply (list_elem_of_fmap_2 fst).
          * now apply HS, HV. }
    pose proof (filter_app_complement (fun p : jsstring * ActiveStream => p.1 ∉ map fst V) l) as Hall.
    apply Permutation_length in Hall. rewrite length_app in Hall.
    rewrite (Permutation_length Hperm) in Hall. rewrite <- Hm' in Hall.
    rewrite <- Hall. f_equal. subst V. rewrite length_take.
    assert (length S = n) as Hn.
    { subst S n. now rewrite (Permutation_length (sortByCreatedAt_perm E)). }
    subst k. rewrite Hn. reflexivity.
  - intros removed kept Hr Hout Hk He.
    apply (sorted_take_drop S k); [apply sortByCreatedAt_sorted | now apply Hgone |].
    rewrite Hm', list_elem_of_filter in Hk. destruct Hk as [Hnv Hkl].
    assert (HkS : kept ∈ S) by now apply HS.
    rewrite <- (take_drop k S) in HkS. apply elem_of_app in HkS as [Hin|Hin];
      [|exact Hin].
    exfalso. apply Hnv. now apply (list_elem_of_fmap_2 fst).
  - reflexivity.
Qed.

Lemma eviction_takes_oldest_idle_witness :
  let p := {| sentence := str "s"; targetWord := str "w"; targetLanguage := str "en";
              nativeLanguage := str "fr"; contextBefore := None;
              contextAfter := None |} in
  let done key now := (str key, withStatus (newStream (str key) p now) completed None) in
  let m := {| streams := [done "b" 20%Z; (str "live", newStream (str "live") p 5%Z);
                          done "a" 10%Z];
              connections := ∅ |} in
  map fst (streams (cleanupOldestCompletedStreams m)) = [str "b"; str "live"]
  /\ length (streams (cleanupOldestCompletedStreams m)) + Nat.min (Nat.max 1 (2 / 10)) 2
     = 3.
Proof.
  intros p done m. split; [reflexivity|].
  refine (proj1 (proj2 (proj2 (eviction_takes_oldest_idle m _)))).
  apply (bool_decide_unpack (NoDup (map fst (streams m)))). vm_compute. exact I.
Defined.

Lemma filter_all {A} (P : A -> Prop) `{!forall x, Decision (P x)} (l : list A) :
  Forall P l -> filter P l = l.
Proof.
  induction 1 as [|x r Hx _ IH]; [reflexivity|].
  rewrite filter_cons_True by exact Hx. now rewrite IH.
Qed.

Lemma filter_none {A} (P : A -> Prop) `{!forall x, Decision (P x)} (l : list A) :
  Forall (fun x => ~ P x) l -> filter P l = [].
Proof.
  induction 1 as [|x r Hx _ IH]; [reflexivity|].
  rewrite filter_cons_False by exact Hx. exact IH.
Qed.

(** X13.  The registry has no hard cap: [createStream] always registers the
    new stream under its key, and when no registered stream is completed and
    idle the eviction frees nothing, so a new key makes the registry one
    entry longer whatever its size, also at or above 100 entries. *)
Theorem createStream_never_refuses (key : jsstring) (p : StreamParams) (now : Z)
    (m : Manager) :
  getStream (createStream key p now m) key = Some (newStream key p now)
  /\ ((forall q, q ∈ streams m -> evictable q = false) ->
      key ∉ map fst (streams m) ->
      length (streams (createStream key p now m)) = S (length (streams m))).
Proof.
  split.
  - unfold getStream, createStream. cbn [streams].
    now rewrite RegistryFacts.find_mapSet_eq.
  - intros Hbusy Hnew.
    assert (Hsame : streams (if MAX_ACTIVE_STREAMS <=? length (streams m)
                             then cleanupOldestCompletedStreams m else m)
                    = streams m).
    { destruct (MAX_ACTIVE_STREAMS <=? length (streams m)); [|reflexivity].
      unfold cleanupOldestCompletedStreams. cbn [streams].
      rewrite (filter_none (fun p => evictable p = true)).
      - cbn. apply filter_all. apply Forall_forall. intros x _ Hx. inversion Hx.
      - apply Forall_forall. intros x Hx.
        rewrite (Hbusy x Hx). discriminate. }
    unfold createStream. cbn [streams]. rewrite Hsame.
    rewrite <- (length_map fst (mapSet _ _ _)), RegistryFacts.keys_mapSet.
    destruct (find (hasKey key) (streams m)) as [q|] eqn:E.
    + exfalso. apply RegistryFacts.find_hasKey_Some in E as [Hin Hk].
      apply Hnew. rewrite <- Hk. now apply (list_elem_of_fmap_2 fst).
    + rewrite length_app, length_map. cbn. lia.
Qed.

Lemma createStream_never_refuses_witness :
  let p := {| sentence := str "s"; targetWord := str "w"; targetLanguage := str "en";
              nativeLanguage := str "fr"; contextBefore := None;
              contextAfter := None |} in
  let m := {| streams :=
                map (fun i => (repeat "a"%char i, newStream (repeat "a"%char i) p 0%Z))
                    (seq 0 100);
              connections := ∅ |} in
  length (streams (createStream (str "new") p 1%Z m)) = 101.
Proof.
  intros p m.
  refine (proj2 (createStream_never_refuses (str "new") p 1%Z m) _ _).
  - intros q Hq. apply list_elem_of_fmap in Hq as (i & -> & _). reflexivity.
  - apply (bool_decide_unpack _). vm_compute. exact I.
Defined.

End EvictionFacts.

(** ** services/sentenceDetector.ts: the matcher *)
Module MatcherFacts.
Import JsString SentenceDetector Matcher.

Lemma firstIndex_Some (test : nat -> bool) (n i : nat) :
  firstIndex test n = Some i -> i < n /\ test i = true.
Proof.
  unfold firstIndex. intros H. apply find_some in H as [Hin Ht].
  apply in_seq in Hin. split; [lia | exact Ht].
Qed.

Lemma firstIndex_None (test : nat -> bool) (n : nat) :
  firstIndex test n = None <-> forall i, i < n -> test i = false.
Proof.
  unfold firstIndex. split.
  - intros H i Hi. apply (find_none _ _ H). apply in_seq. lia.
  - intros H. destruct (find test (seq 0 n)) as [i|] eqn:E; [|reflexivity].
    apply find_some in E as [Hin Ht]. apply in_seq in Hin.
    rewrite H in Ht by lia. discriminate.
Qed.

Lemma findMatchingSegment_in_range (segments : list CaptionSegment)
    (query : jsstring) (queryType : Normalize.QueryType) (i : nat) :
  findMatchingSegment segments query queryType = Some i -> i < length segments.
Proof.
  unfold findMatchingSegment. cbv zeta.
  destruct (firstIndex _ (length segments)) as [j|] eqn:E1.
  { intros [= <-]. now apply firstIndex_Some in E1. }
  destruct queryType.
  - intros H. now apply firstIndex_Some in H.
  - clear E1.
    destruct (firstIndex _ (length segments)) as [j|] eqn:E2; [|discriminate].
    intros [= <-]. now apply firstIndex_Some in E2.
Qed.

Lemma matched_segment_has_boundary (segments : list CaptionSegment)
    (query : jsstring) (queryType : Normalize.QueryType) (i : nat) :
  findMatchingSegment segments query queryType = Some i ->
  exists segment boundary,
    segments !! i = Some segment
    /\ detectSentenceBoundary segments i = Some boundary.
Proof.
  intros Hm. pose proof (findMatchingSegment_in_range _ _ _ _ Hm) as Hi.
  destruct (lookup_lt_is_Some_2 segments i Hi) as [segment Hseg].
  destruct (SentenceDetectorFacts.detectSentenceBoundary_returns segments i segment Hseg)
    as (s & ss & se & _ & _ & _ & _ & Hb).
  eexists segment, _. split; [exact Hseg | exact Hb].
Qed.

(** X14.  Whatever the matcher returns is the index of a segment, so the
    boundary detector never fails on it: a candidate video whose captions
    are loaded is either skipped as not English, skipped for want of a
    match, or yields a result built from the boundary of the matched
    segment; the error outcome cannot occur at this step. *)
Theorem processCaptions_outcomes (videoId : jsstring)
    (captions : list CaptionSegment) (query : jsstring)
    (queryType : Normalize.QueryType) :
  match JobProcessor.processCaptions findMatchingSegment videoId captions
          query queryType with
  | JobProcessor.SkipError => False
  | JobProcessor.SkipNotEnglish =>
      JobProcessor.isEnglishTranscription captions = false
  | JobProcessor.SkipNoMatch =>
      JobProcessor.isEnglishTranscription captions = true
      /\ findMatchingSegment captions query queryType = None
  | JobProcessor.Found r =>
      JobProcessor.isEnglishTranscription captions = true
      /\ exists i segment boundary,
           findMatchingSegment captions query queryType = Some i
           /\ captions !! i = Some segment
           /\ detectSentenceBoundary captions i = Some boundary
           /\ JobProcessor.videoId r = videoId
           /\ JobProcessor.videoUrl r = JobProcessor.watchUrl videoId
           /\ JobProcessor.startTime r = startTime boundary
           /\ JobProcessor.endTime r = endTime boundary
           /\ JobProcessor.caption r = caption boundary
  end.
Proof.
  unfold JobProcessor.processCaptions.
  destruct (JobProcessor.isEnglishTranscription captions); cbn [negb]; [|reflexivity].
  destruct (findMatchingSegment captions query queryType) as [i|] eqn:Hm;
    [|now split].
  destruct (matched_segment_has_boundary _ _ _ _ Hm) as (segment & b & Hseg & Hb).
  rewrite Hb. split; [reflexivity|].
  exists i, segment, b. repeat split; assumption.
Qed.

Lemma find_first {A} (test : A -> bool) (l : list A) (x : A) :
  find test l = Some x ->
  exists before after,
    l = before ++ x :: after /\ Forall (fun y => test y = false) before.
Proof.
  induction l as [|y l IH]; [discriminate|]. cbn.
  destruct (test y) eqn:E.
  - intros [= <-]. exists [], l. split; [reflexivity | constructor].
  - intros H. destruct (IH H) as (before & after & -> & Hb).
    exists (y :: before), after. split; [reflexivity | now constructor].
Qed.

Lemma firstIndex_first (test : nat -> bool) (n i : nat) :
  firstIndex test n = Some i -> forall j, j < i -> test j = false.
Proof.
  unfold firstIndex. intros H j Hj.
  destruct (find_first _ _ _ H) as (before & after & Hseq & Hb).
  assert (Hlen : length before = i).
  { assert (Hi : seq 0 n !! length before = Some i).
    { rewrite Hseq. now rewrite list_lookup_middle. }
    apply lookup_seq in Hi. lia. }
  assert (Hbj : before !! j = Some j).
  { assert (Hj' : seq 0 n !! j = Some j).
    { apply lookup_seq. split; [reflexivity|].
      apply (f_equal length) in Hseq. rewrite length_seq, length_app in Hseq.
      cbn in Hseq. lia. }
    rewrite Hseq, lookup_app_l in Hj' by lia. exact Hj'. }
  rewrite Forall_forall in Hb. apply Hb.
  eapply list_elem_of_lookup_2, Hbj.
Qed.

(** X15.  A single-word query that occurs in a caption is never missed.  If
    the text of some segment contains the query as a substring, letter case
    aside, the matcher returns a segment; it returns no match only if no
    segment text contains the query.  The segment it returns is the first
    one that the whole-word pattern matches or, when that pattern matches
    no segment, the first one that contains the query. *)
Theorem findMatchingSegment_word_never_misses
    (segments : list CaptionSegment) (query : jsstring) :
  let whole := segmentTest segments
                 (fun t => wordRegexTest t (toLowerCase query)) in
  let part := segmentTest segments
                (fun t => includes t (toLowerCase query)) in
  ((exists segment, segment ∈ segments
      /\ includes (toLowerCase (text segment)) (toLowerCase query) = true) ->
   exists i, findMatchingSegment segments query Normalize.word = Some i)
  /\ (findMatchingSegment segments query Normalize.word = None ->
      forall segment, segment ∈ segments ->
        includes (toLowerCase (text segment)) (toLowerCase query) = false)
  /\ (forall i, findMatchingSegment segments query Normalize.word = Some i ->
        i < length segments
        /\ ((whole i = true /\ forall j, j < i -> whole j = false)
            \/ ((forall j, j < length segments -> whole j = false)
                /\ part i = true /\ forall j, j < i -> part j = false))).
Proof.
  cbv zeta.
  assert (Hpart : forall segment i, segments !! i = Some segment ->
            segmentTest segments (fun t => includes t (toLowerCase query)) i
            = includes (toLowerCase (text segment)) (toLowerCase query)).
  { intros segment i Hi. unfold segmentTest. now rewrite Hi. }
  assert (Hnone : findMatchingSegment segments query Normalize.word = None ->
            forall segment, segment ∈ segments ->
              includes (toLowerCase (text segment)) (toLowerCase query) = false).
  { unfold findMatchingSegment. cbv zeta.
    destruct (firstIndex _ (length segments)) as [j|] eqn:E1; [discriminate|].
    rewrite firstIndex_None. intros Hno segment Hin.
    apply list_elem_of_lookup_1 in Hin as [i Hi].
    rewrite <- (Hpart segment i Hi). apply Hno. eapply lookup_lt_Some, Hi. }
  split; [|split; [exact Hnone|]].
  - intros (segment & Hin & Hinc).
    destruct (findMatchingSegment segments query Normalize.word) as [i|] eqn:E;
      [now exists i|].
    rewrite (Hnone eq_refl segment Hin) in Hinc. discriminate.
  - intros i. unfold findMatchingSegment. cbv zeta.
    destruct (firstIndex _ (length segments)) as [j|] eqn:E1.
    + intros [= <-]. pose proof (firstIndex_Some _ _ _ E1) as [Hlt Ht].
      split; [exact Hlt|]. left. split; [exact Ht|].
      exact (firstIndex_first _ _ _ E1).
    + intros E3. pose proof (firstIndex_Some _ _ _ E3) as [Hlt Ht].
      split; [exact Hlt|]. right.
      split; [now apply firstIndex_None|].
      split; [exact Ht | exact (firstIndex_first _ _ _ E3)].
Qed.

End MatcherFacts.

(** ** db/jobQueue.ts and services/jobProcessor.ts: a job from start to end *)
Module PipelineFacts.
Import JsString JobQueue JobStore Pipeline.

Lemma find_updateWhere (h h' : jsstring) (f : Job -> Job) (jobs : list Job) :
  keeps f ->
  findJobByHash (updateWhere h f jobs) h'
  = if decide (h' = h) then f <$> findJobByHash jobs h
    else findJobByHash jobs h'.
Proof.
  intros Hf. unfold findJobByHash, updateWhere.
  induction jobs as [|j r IH]; cbn.
  - now destruct (decide (h' = h)).
  - destruct (decide (hash j = h)) as [Hj|Hj].
    + destruct (Hf j) as (_ & Hh & _). rewrite Hh.
      destruct (decide (h' = h)) as [->|Hne].
      * destruct (decide (hash j = h)); [reflexivity | contradiction].
      * destruct (decide (hash j = h')); [congruence|].
        rewrite IH. destruct (decide (h' = h)); [contradiction | reflexivity].
    + destruct (decide (h' = h)) as [->|Hne].
      * destruct (decide (hash j = h)); [contradiction|].
        rewrite IH. destruct (decide (h = h)); [reflexivity | contradiction].
      * destruct (decide (hash j = h')); [reflexivity|].
        rewrite IH. destruct (decide (h' = h)); [contradiction | reflexivity].
Qed.

Lemma updateWhere_compose (h : jsstring) (f g : Job -> Job) (jobs : list Job) :
  keeps f ->
  updateWhere h g (updateWhere h f jobs) = updateWhere h (fun j => g (f j)) jobs.
Proof.
  intros Hf. unfold updateWhere. rewrite map_map. apply map_ext. intros j.
  destruct (decide (hash j = h)) as [Hj|Hj].
  - destruct (Hf j) as (_ & Hh & _).
    destruct (decide (hash (f j) = h)); [reflexivity | congruence].
  - destruct (decide (hash j = h)); [contradiction | reflexivity].
Qed.

Lemma keeps_compose (f g : Job -> Job) :
  keeps f -> keeps g -> keeps (fun j => g (f j)).
Proof.
  intros Hf Hg j. destruct (Hf j) as (?&?&?&?&?), (Hg (f j)) as (?&?&?&?&?).
  repeat split; congruence.
Qed.

Lemma keeps_updateJobStatus (st : JobStatus) (v : option jsstring) :
  keeps (fun j => {| id := id j; hash := hash j; query := query j;
                     normalizedQuery := normalizedQuery j; queryType := queryType j;
                     status := st; currentVideoId := v;
                     result := result j; error := error j |}).
Proof. intros j. repeat split. Qed.

Section Job.
Variable searchVideos :
  jsstring -> Youtube.SearchOptions -> except (list Youtube.YouTubeVideo).
Variable attempt : nat -> Youtube.YouTubeVideo -> Attempt.
Variable newRowId : jsstring.
Variable now : Z.

(** A status update before the rest of a run. *)
Lemma outcome_after_status (db : Database) (run : Database * RunEnd) (h q : jsstring)
    (st : JobStatus) (v : option jsstring) :
  outcome attempt newRowId now
    (withJobs db (updateJobStatus (jobs db) h st v)) run h q ->
  outcome attempt newRowId now db run h q.
Proof.
  intros (g & Hg & Hjobs & Hcase).
  pose proof (keeps_updateJobStatus st v) as Hf.
  exists (fun j => g ({| id := id j; hash := hash j; query := query j;
                         normalizedQuery := normalizedQuery j;
                         queryType := queryType j;
                         status := st; currentVideoId := v;
                         result := result j; error := error j |})).
  split; [exact (keeps_compose _ _ Hf Hg)|]. split.
  - rewrite Hjobs. cbn [withJobs jobs]. unfold updateJobStatus.
    now rewrite updateWhere_compose.
  - destruct Hcase as [(Hret & e & He & Hfail & Hv & Hw)
                      | [(Hret & r & Hdone & Hurl & Hv & Hw)
                        | (Hret & i & video & st' & Hhang & Hst & Hv & Hw)]].
    + left. split; [exact Hret|]. exists e. repeat split; try assumption; apply Hfail.
    + right; left. split; [exact Hret|].
      exists r. repeat split; try assumption; apply Hdone.
    + right; right. split; [exact Hret|].
      exists i, video, st'. repeat split; try assumption; apply Hst.
Qed.

Lemma outcome_failed (db : Database) (h q e : jsstring) :
  e <> [] ->
  outcome attempt newRowId now db
    (withJobs db (updateJobError (jobs db) h e), Returns) h q.
Proof.
  intros He.
  exists (fun j => {| id := id j; hash := hash j; query := query j;
                      normalizedQuery := normalizedQuery j; queryType := queryType j;
                      status := failed; currentVideoId := currentVideoId j;
                      result := result j; error := Some e |}).
  split; [intros j; repeat split|]. split; [reflexivity|].
  left. split; [reflexivity|]. exists e. repeat split. exact He.
Qed.

Lemma outcome_found (db : Database) (h q : jsstring) (r : JobProcessor.JobResult) :
  JobProcessor.videoUrl r = JobProcessor.watchUrl (JobProcessor.videoId r) ->
  outcome attempt newRowId now db (storeResult newRowId now db h q r, Returns) h q.
Proof.
  intros Hurl.
  exists (fun j => {| id := id j; hash := hash j; query := query j;
                      normalizedQuery := normalizedQuery j; queryType := queryType j;
                      status := completed; currentVideoId := currentVideoId j;
                      result := Some r; error := error j |}).
  split; [intros j; repeat split|].
  unfold storeResult. cbn [withJobs jobs videoExamples wordIndex fst snd].
  destruct (VideoExamples.insertVideoExample (videoExamples db)
              (resultRow newRowId now h q r)) as [table|msg] eqn:E;
    (split; [reflexivity|]); right; left; (split; [reflexivity|]);
    exists r; repeat split;
    try exact Hurl; cbn [videoExamples]; now rewrite E.
Qed.

(** The run waits for ever for a child process, after the status update
    [st] with the candidate. *)
Lemma outcome_hung (db : Database) (h q : jsstring) (i : nat)
    (video : Youtube.YouTubeVideo) (st : JobStatus) :
  (attempt i video = DownloadHangs /\ st = downloading
   \/ attempt i video = TranscriptionHangs /\ st = transcribing) ->
  outcome attempt newRowId now db
    (withJobs db (updateJobStatus (jobs db) h st (Some (Youtube.videoId video))),
     NeverReturns) h q.
Proof.
  intros Hhang.
  exists (fun j => {| id := id j; hash := hash j; query := query j;
                      normalizedQuery := normalizedQuery j; queryType := queryType j;
                      status := st; currentVideoId := Some (Youtube.videoId video);
                      result := result j; error := error j |}).
  split; [apply keeps_updateJobStatus|]. split; [reflexivity|].
  right; right. split; [reflexivity|].
  exists i, video, st. repeat split. exact Hhang.
Qed.

(** A candidate with captions never ends in the error outcome, and a result
    carries the watch URL of its video. *)
Lemma processCaptions_found (videoId : jsstring)
    (captions : list SentenceDetector.CaptionSegment) (q : jsstring)
    (t : Normalize.QueryType) :
  match JobProcessor.processCaptions Matcher.findMatchingSegment videoId captions
          q t with
  | JobProcessor.SkipError => False
  | JobProcessor.Found r =>
      JobProcessor.videoUrl r = JobProcessor.watchUrl (JobProcessor.videoId r)
  | _ => True
  end.
Proof.
  unfold JobProcessor.processCaptions.
  destruct (negb (JobProcessor.isEnglishTranscription captions)); [exact I|].
  destruct (Matcher.findMatchingSegment captions q t) as [i|] eqn:Hm; [|exact I].
  destruct (MatcherFacts.matched_segment_has_boundary _ _ _ _ Hm)
    as (segment & b & _ & ->).
  reflexivity.
Qed.

Lemma processVideos_outcome (videos : list Youtube.YouTubeVideo) (db : Database)
    (h q : jsstring) (t : Normalize.QueryType) (total i : nat) :
  outcome attempt newRowId now db
    (processVideos attempt newRowId now db h q t total i videos) h q.
Proof.
  revert db i. induction videos as [|video rest IH]; intros db i.
  - cbn [processVideos]. apply outcome_failed. discriminate.
  - cbn [processVideos].
    destruct (attempt i video) as [| | | | | | |captions] eqn:Ha.
    + apply outcome_failed. discriminate.
    + apply IH.
    + eapply outcome_after_status, IH.
    + apply (outcome_hung db h q i video downloading). now left.
    + eapply outcome_after_status, outcome_after_status, IH.
    + eapply outcome_after_status.
      apply (outcome_hung _ h q i video transcribing). now right.
    + eapply outcome_after_status, outcome_after_status, IH.
    + pose proof (processCaptions_found (Youtube.videoId video) captions q t) as Hpc.
      destruct (JobProcessor.processCaptions _ _ _ _ _) as [| | |r].
      * eapply outcome_after_status, outcome_after_status, IH.
      * eapply outcome_after_status, outcome_after_status, IH.
      * contradiction.
      * eapply outcome_after_status, outcome_after_status, outcome_found.
        exact Hpc.
Qed.

Lemma processJob_outcome (db : Database) (h q : jsstring) (t : Normalize.QueryType) :
  outcome attempt newRowId now db
    (processJobRun searchVideos attempt newRowId now db h q t) h q.
Proof.
  unfold processJobRun.
  eapply outcome_after_status.
  destruct (length _ =? 0).
  - apply outcome_failed. discriminate.
  - apply processVideos_outcome.
Qed.

(** X16.  What a run of [processJob] leaves of a job of the Job Store (the
    database and the YouTube API answering).  The job is still the same job
    (same id and canonical query), and no job of another fingerprint is
    touched.  A run
    that returns has settled the job: it is completed with a result or
    failed with an error message, so a poll of it is answered completed or
    failed, never in progress.  A run returns unless the download or the
    transcription of a candidate never ends (both are awaited without a
    timeout, and the time limit of the job is tested only before a
    candidate); then the job stays in status downloading or transcribing
    with that candidate, and a poll is answered in progress for ever.
    Unless the job is completed, nothing was written to the Result Store or
    the Word Index. *)
Theorem processJob_settles_job (db : Database) (h q : jsstring)
    (t : Normalize.QueryType) (j : Job)
    (Hj : findJobByHash (jobs db) h = Some j) :
  let run := processJobRun searchVideos attempt newRowId now db h q t in
  let db' := processJob searchVideos attempt newRowId now db h q t in
  exists j',
    findJobByHash (jobs db') h = Some j'
    /\ id j' = id j /\ normalizedQuery j' = normalizedQuery j
    /\ (forall h', h' <> h ->
          findJobByHash (jobs db') h' = findJobByHash (jobs db) h')
    /\ (status j' <> completed ->
        videoExamples db' = videoExamples db /\ wordIndex db' = wordIndex db)
    /\ match run.2 with
       | Returns =>
           settled j'
           /\ match YoutubeSearch.jobResponse j' with
              | YoutubeSearch.CompletedResponse _ _ _ _ _ _ _ _ => True
              | YoutubeSearch.FailedResponse _ _ _ => True
              | _ => False
              end
       | NeverReturns =>
           exists i video,
             (attempt i video = DownloadHangs /\ status j' = downloading
              \/ attempt i video = TranscriptionHangs /\ status j' = transcribing)
             /\ currentVideoId j' = Some (Youtube.videoId video)
             /\ exists message,
                  YoutubeSearch.jobResponse j'
                  = YoutubeSearch.InProgressResponse (status j') (id j)
                      (normalizedQuery j) message (Some (Youtube.videoId video))
       end
    /\ ((forall i video, hangs (attempt i video) = false) -> run.2 = Returns).
Proof.
  intros run db'.
  destruct (processJob_outcome db h q t) as (g & Hg & Hjobs & Hcase).
  fold run in Hjobs, Hcase. change (run.1) with db' in Hjobs, Hcase.
  exists (g j). destruct (Hg j) as (Hid & _ & _ & Hn & _).
  assert (Hfind : forall h', findJobByHash (jobs db') h'
                    = if decide (h' = h) then g <$> findJobByHash (jobs db) h
                      else findJobByHash (jobs db) h').
  { intros h'. rewrite Hjobs. now apply find_updateWhere. }
  split.
  { rewrite Hfind, Hj. destruct (decide (h = h)); [reflexivity | contradiction]. }
  split; [exact Hid|]. split; [exact Hn|].
  split.
  { intros h' Hne. rewrite Hfind. destruct (decide (h' = h)); [contradiction|reflexivity]. }
  destruct Hcase as [(Hret & e & He & Hfail & Hv & Hw)
                    | [(Hret & r & Hdone & _ & _ & _)
                      | (Hret & i & video & st & Hhang & Hst & Hv & Hw)]];
    rewrite Hret.
  - destruct (Hfail j) as [Hs Herr].
    split; [now intros _|]. split; [|now intros _].
    split; [right; split; [exact Hs | now exists e]|].
    unfold YoutubeSearch.jobResponse. now rewrite Hs.
  - destruct (Hdone j) as [Hs Hres].
    split; [intros Hne; now rewrite Hs in Hne|]. split; [|now intros _].
    split; [left; split; [exact Hs | now exists r]|].
    unfold YoutubeSearch.jobResponse. now rewrite Hs, Hres.
  - destruct (Hst j) as [Hs Hcur].
    split; [now intros _|]. split.
    + exists i, video. split.
      { destruct Hhang as [[Ha ->]|[Ha ->]]; [left | right]; now split. }
      split; [exact Hcur|].
      unfold YoutubeSearch.jobResponse, YoutubeSearch.getInProgressResponse.
      rewrite Hid, Hn, Hcur.
      destruct Hhang as [[_ ->]|[_ ->]]; rewrite Hs; eexists; reflexivity.
    + intros Hnever.
      destruct Hhang as [[Ha _]|[Ha _]]; specialize (Hnever i video);
        rewrite Ha in Hnever; discriminate.
Qed.

(** X17.  When a run of [processJob] completes a job, the segment it stored
    in the job is the one it offered to the Result Store and put in the Word
    Index: its URL is the watch URL of its video; if the fingerprint had no
    cached segment the Result Store now holds this one under it, and a
    segment cached before is kept as it was; and every word of the caption
    finds, in the Word Index, an example with the video, start and end of
    the segment. *)
Theorem processJob_completed_is_cached_and_indexed (db : Database)
    (h q : jsstring) (t : Normalize.QueryType) (j' : Job)
    (Hj' : findJobByHash (jobs (processJob searchVideos attempt newRowId now db h q t)) h
           = Some j')
    (Hdone : status j' = completed) :
  let db' := processJob searchVideos attempt newRowId now db h q t in
  exists r,
    result j' = Some r
    /\ JobProcessor.videoUrl r = JobProcessor.watchUrl (JobProcessor.videoId r)
    /\ (VideoExamples.findByHash (videoExamples db) h = None ->
        VideoExamples.findByHash (videoExamples db') h
        = Some (resultRow newRowId now h q r))
    /\ (forall row,
          VideoExamples.findByHash (videoExamples db) h = Some row ->
          videoExamples db' = videoExamples db)
    /\ (forall w, w ∈ WordIndex.extractWords (JobProcessor.caption r) ->
          exists examples example,
            WordIndex.findByWord (wordIndex db') w = Some examples
            /\ example ∈ examples
            /\ WordIndex.sameExample example (resultResponse r) = true).
Proof.
  intros db'.
  destruct (processJob_outcome db h q t) as (g & Hg & Hjobs & Hcase).
  change ((processJobRun searchVideos attempt newRowId now db h q t).1)
    with db' in Hjobs, Hcase.
  fold db' in Hj'.
  rewrite Hjobs, find_updateWhere in Hj' by exact Hg.
  destruct (decide (h = h)) as [_|]; [|contradiction].
  destruct (findJobByHash (jobs db) h) as [j|]; [|discriminate].
  injection Hj' as <-.
  destruct Hcase as [(_ & e & He & Hfail & _)
                    | [(_ & r & Hres & Hurl & Hv & Hw)
                      | (_ & i & video & st & Hhang & Hst & _)]].
  { destruct (Hfail j) as [Hs _]. congruence. }
  2:{ destruct (Hst j) as [Hs _].
      destruct Hhang as [[_ ->]|[_ ->]]; congruence. }
  exists r. destruct (Hres j) as [_ Hr].
  split; [exact Hr|]. split; [exact Hurl|].
  unfold VideoExamples.findByHash, VideoExamples.insertVideoExample in *.
  cbn [VideoExamples.hash resultRow] in Hv.
  split; [|split].
  - intros Hnone. rewrite Hv, Hnone. apply lookup_insert_eq.
  - intros row Hrow. now rewrite Hv, Hrow.
  - intros w Hin. unfold WordIndex.findByWord. rewrite Hw.
    pose proof (WordIndexFacts.extractWords_lowered (JobProcessor.caption r)) as Hlow.
    rewrite Forall_forall in Hlow.
    rewrite (WordIndexFacts.lowered_fixed w)
      by (apply Hlow; first [exact Hin | now apply list_elem_of_In]).
    rewrite WordIndexAddFacts.addVideoToWordIndex_lookup.
    destruct (decide (w ∈ WordIndex.extractWords (JobProcessor.caption r)));
      [|contradiction].
    pose proof (WordIndexAddFacts.withExample_has (resultResponse r)
                  (default [] (wordIndex db !! w))) as Hhas.
    apply existsb_exists in Hhas as (example & Hex & Hsame).
    eexists _, example. split; [reflexivity|].
    split; [now apply list_elem_of_In | exact Hsame].
Qed.

End Job.

(** A job whose first candidate is downloaded by a process that never ends:
    the run never returns and the job stays in status downloading. *)
Lemma processJob_settles_job_witness :
  let job :=
    {| id := str "job1"; hash := str "h"; query := str "Cat";
       normalizedQuery := str "cat"; queryType := Normalize.word;
       status := queued; currentVideoId := None; result := None; error := None |} in
  let db := {| jobs := [job]; videoExamples := ∅; wordIndex := ∅ |} in
  let video := {| Youtube.videoId := str "v1"; Youtube.title := str "Cats";
                  Youtube.description := [] |} in
  let db' := processJob (fun _ _ => Ok [video]) (fun _ _ => DownloadHangs)
               (str "row1") 0%Z db (str "h") (str "cat") Normalize.word in
  exists j', findJobByHash (jobs db') (str "h") = Some j'
             /\ status j' = downloading /\ currentVideoId j' = Some (str "v1").
Proof.
  intros job db video db'.
  destruct (processJob_settles_job (fun _ _ => Ok [video])
              (fun _ _ => DownloadHangs) (str "row1") 0%Z db (str "h") (str "cat")
              Normalize.word job eq_refl) as (j' & Hfind & _ & _ & _ & _ & Hend & _).
  exists j'. split; [exact Hfind|].
  change ((processJobRun (fun _ _ => Ok [video]) (fun _ _ => DownloadHangs)
             (str "row1") 0%Z db (str "h") (str "cat") Normalize.word).2)
    with NeverReturns in Hend.
  destruct Hend as (i & v & [[_ Hs]|[Ha _]] & Hcur & _); [|discriminate].
  split; [exact Hs|].
  vm_compute in Hfind. injection Hfind as <-. reflexivity.
Defined.

Lemma processJob_completed_is_cached_and_indexed_witness :
  let job :=
    {| id := str "job1"; hash := str "h"; query := str "Cat";
       normalizedQuery := str "cat"; queryType := Normalize.word;
       status := queued; currentVideoId := None; result := None; error := None |} in
  let db := {| jobs := [job]; videoExamples := ∅; wordIndex := ∅ |} in
  let video := {| Youtube.videoId := str "v1"; Youtube.title := str "Cats";
                  Youtube.description := [] |} in
  let captions :=
    [ {| SentenceDetector.text := str "The cat is a friend of mine and yours.";
         SentenceDetector.start := 0%Q; SentenceDetector.duration := 3%Q |} ] in
  let db' := processJob (fun _ _ => Ok [video]) (fun _ _ => Transcribed captions)
               (str "row1") 0%Z db (str "h") (str "cat") Normalize.word in
  exists r,
    VideoExamples.findByHash (videoExamples db') (str "h")
    = Some (resultRow (str "row1") 0%Z (str "h") (str "cat") r)
    /\ JobProcessor.videoUrl r = str "https://www.youtube.com/watch?v=v1".
Proof.
  intros job db video captions db'.
  destruct (findJobByHash (jobs db') (str "h")) as [j'|] eqn:E;
    [|vm_compute in E; discriminate].
  assert (Hdone : status j' = completed).
  { vm_compute in E. injection E as <-. reflexivity. }
  destruct (processJob_completed_is_cached_and_indexed
              (fun _ _ => Ok [video]) (fun _ _ => Transcribed captions)
              (str "row1") 0%Z db (str "h") (str "cat") Normalize.word j' E Hdone)
    as (r & Hr & Hurl & Hcache & _).
  exists r. split; [apply Hcache; reflexivity|].
  rewrite Hurl. vm_compute in E. injection E as <-. injection Hr as <-. reflexivity.
Defined.

Lemma searchLoop_length (searchVideos :
      jsstring -> Youtube.SearchOptions -> except (list Youtube.YouTubeVideo))
    (query : jsstring) (n : nat) :
  length (Youtube.searchVideosWithAdFilters searchVideos query n) <= n.
Proof. unfold Youtube.searchVideosWithAdFilters. rewrite length_take. lia. Qed.

Lemma NoDup_ids_app_filter (old new : list Youtube.YouTubeVideo) :
  NoDup (map Youtube.videoId old) -> NoDup (map Youtube.videoId new) ->
  NoDup (map Youtube.videoId
           (old ++ filter (fun v => Youtube.videoId v ∉ map Youtube.videoId old) new)).
Proof.
  intros Hold Hnew. rewrite map_app. apply NoDup_app. split; [exact Hold|]. split.
  - intros x Hx Hx'. apply list_elem_of_fmap in Hx' as (v & -> & Hv).
    apply list_elem_of_filter in Hv as [Hv _]. contradiction.
  - eapply sublist_NoDup; [exact Hnew|].
    apply (fmap_sublist Youtube.videoId), sublist_filter.
Qed.

Section Candidates.
Variable searchVideos :
  jsstring -> Youtube.SearchOptions -> except (list Youtube.YouTubeVideo).

Lemma searchLoop_NoDup (query : jsstring) (n : nat)
    (options : list Youtube.SearchOptions)
    (allVideos : list Youtube.YouTubeVideo) :
  (forall q o videos, searchVideos q o = Ok videos ->
     NoDup (map Youtube.videoId videos)) ->
  NoDup (map Youtube.videoId allVideos) ->
  NoDup (map Youtube.videoId
           (Youtube.searchLoop searchVideos query n allVideos
              (map Youtube.videoId allVideos) options)).
Proof.
  intros Hanswers. revert allVideos.
  induction options as [|o rest IH]; intros allVideos Hnd; [exact Hnd|].
  cbn [Youtube.searchLoop].
  destruct (searchVideos query o) as [videos|msg] eqn:E; [|now apply IH].
  pose proof (NoDup_ids_app_filter allVideos videos Hnd (Hanswers _ _ _ E)) as Hnew.
  destruct (n <=? length _); [exact Hnew|].
  rewrite <- map_app. now apply IH.
Qed.

Lemma collectVideos_spec (strategies : list jsstring)
    (allVideos : list Youtube.YouTubeVideo) :
  length allVideos < 10 ->
  length (collectVideos searchVideos allVideos strategies) <= 14
  /\ ((forall q o videos, searchVideos q o = Ok videos ->
         NoDup (map Youtube.videoId videos)) ->
      NoDup (map Youtube.videoId allVideos) ->
      NoDup (map Youtube.videoId (collectVideos searchVideos allVideos strategies))).
Proof.
  revert allVideos. induction strategies as [|s rest IH]; intros allVideos Hlen.
  - cbn. split; [lia | auto].
  - cbn [collectVideos].
    set (videos := Youtube.searchVideosWithAdFilters searchVideos s 5).
    set (new := filter _ videos).
    assert (Hnew : length new <= 5).
    { subst new. etransitivity; [apply length_filter|]. apply searchLoop_length. }
    assert (Hnd : (forall q o videos, searchVideos q o = Ok videos ->
                     NoDup (map Youtube.videoId videos)) ->
                  NoDup (map Youtube.videoId allVideos) ->
                  NoDup (map Youtube.videoId (allVideos ++ new))).
    { intros Hanswers Hold. apply NoDup_ids_app_filter; [exact Hold|].
      subst videos. unfold Youtube.searchVideosWithAdFilters.
      eapply sublist_NoDup; [|apply (fmap_sublist Youtube.videoId), sublist_take].
      apply (searchLoop_NoDup s 5 Youtube.strategies [] Hanswers). constructor. }
    destruct (10 <=? length (allVideos ++ new)) eqn:E.
    + split; [rewrite length_app; lia | exact Hnd].
    + apply Nat.leb_gt in E. destruct (IH (allVideos ++ new) E) as [H1 H2].
      split; [exact H1 | auto].
Qed.

(** X18.  A job examines at most 14 candidate videos: the search for
    candidates stops as soon as 10 have been collected and each search adds
    at most 5.  If no answer of the YouTube API lists a video twice, no
    video is a candidate twice. *)
Theorem collectVideos_bounded_distinct (normalizedQuery : jsstring)
    (queryType : Normalize.QueryType) :
  let candidates :=
    collectVideos searchVideos [] (getSearchStrategies normalizedQuery queryType) in
  length candidates <= 14
  /\ ((forall q o videos, searchVideos q o = Ok videos ->
         NoDup (map Youtube.videoId videos)) ->
      NoDup (map Youtube.videoId candidates)).
Proof.
  intros candidates.
  destruct (collectVideos_spec (getSearchStrategies normalizedQuery queryType) [])
    as [H1 H2]; [cbn; lia|].
  split; [exact H1|]. intros Hanswers. apply H2; [exact Hanswers | constructor].
Qed.

End Candidates.
End PipelineFacts.

(** ** services/backgroundWorker.ts *)
Module BackgroundWorkerFacts.
Import JsString BackgroundWorker.

Lemma startJobs_spec (jobs : list JobQueue.Job) (runningJobs : list jsstring)
    (jobsStarted : nat) :
  NoDup runningJobs -> length runningJobs <= MAX_CONCURRENT_JOBS ->
  let after := (startJobs runningJobs jobsStarted jobs).1 in
  let started := (startJobs runningJobs jobsStarted jobs).2 in
  NoDup after /\ length after <= MAX_CONCURRENT_JOBS
  /\ runningJobs `prefix_of` after
  /\ length after + jobsStarted = length runningJobs + started
  /\ (length after = MAX_CONCURRENT_JOBS
      \/ forall job, job ∈ jobs -> JobQueue.hash job ∈ after)
  /\ (forall h, h ∈ after ->
        h ∈ runningJobs \/ exists job, job ∈ jobs /\ JobQueue.hash job = h).
Proof.
  revert runningJobs jobsStarted.
  induction jobs as [|job rest IH]; intros runningJobs jobsStarted Hnd Hlen.
  - cbn. repeat split; try assumption; try reflexivity.
    + right. intros job Hjob. inversion Hjob.
    + intros h Hh. now left.
  - cbn [startJobs].
    destruct (decide (JobQueue.hash job ∈ runningJobs)) as [Hin|Hout].
    + destruct (IH runningJobs jobsStarted Hnd Hlen)
        as (H1 & H2 & H3 & H4 & H5 & H6).
      repeat split; try assumption.
      * destruct H5 as [H5|H5]; [now left|]. right.
        intros j Hj. apply elem_of_cons in Hj as [->|Hj]; [|now apply H5].
        eapply elem_of_prefix; [exact Hin | exact H3].
      * intros h Hh. destruct (H6 h Hh) as [?|(j & Hj & Hjh)]; [now left|].
        right. exists j. split; [now right | exact Hjh].
    + destruct (MAX_CONCURRENT_JOBS <=? length runningJobs) eqn:E.
      * apply Nat.leb_le in E. cbn.
        repeat split; try assumption; try reflexivity.
        -- left. lia.
        -- intros h Hh. now left.
      * apply Nat.leb_gt in E.
        destruct (IH (runningJobs ++ [JobQueue.hash job]) (S jobsStarted))
          as (H1 & H2 & H3 & H4 & H5 & H6).
        { apply NoDup_app. split; [exact Hnd|]. split; [|apply NoDup_singleton].
          intros x Hx Hx'. apply list_elem_of_singleton in Hx'. congruence. }
        { rewrite length_app. cbn. lia. }
        repeat split; try assumption.
        -- etransitivity; [|exact H3]. now apply prefix_app_r.
        -- rewrite length_app in H4. cbn in H4. lia.
        -- destruct H5 as [H5|H5]; [now left|]. right.
           intros j Hj. apply elem_of_cons in Hj as [->|Hj]; [|now apply H5].
           eapply elem_of_prefix; [|exact H3]. apply elem_of_app. right.
           now apply list_elem_of_singleton.
        -- intros h Hh. destruct (H6 h Hh) as [Hh'|(j & Hj & Hjh)].
           ++ apply elem_of_app in Hh' as [?|Hh']; [now left|].
              apply list_elem_of_singleton in Hh'. right. exists job.
              split; [now left | congruence].
           ++ right. exists j. split; [now right | exact Hjh].
Qed.

(** X19.  The background worker never runs more than five jobs at once, and
    never the same job twice at once: in every state reached from its start
    through answers of the queue (whatever jobs they list, also stale ones)
    and endings of jobs, in any order, the map of running jobs holds at most
    [MAX_CONCURRENT_JOBS] keys, all different. *)
Theorem workerRun_within_capacity (events : list WorkerEvent) :
  length (workerRun events) <= MAX_CONCURRENT_JOBS /\ NoDup (workerRun events).
Proof.
  unfold workerRun.
  assert (H : forall runningJobs,
            length runningJobs <= MAX_CONCURRENT_JOBS /\ NoDup runningJobs ->
            length (foldl workerStep runningJobs events) <= MAX_CONCURRENT_JOBS
            /\ NoDup (foldl workerStep runningJobs events)).
  { induction events as [|e rest IH]; intros runningJobs [Hlen Hnd];
      [now split|].
    cbn [foldl]. apply IH. destruct e as [jobs|h]; cbn [workerStep].
    - destruct (length jobs =? 0); [now split|].
      destruct (startJobs_spec jobs runningJobs 0 Hnd Hlen) as (H1 & H2 & _).
      now split.
    - split; [|now apply NoDup_filter].
      etransitivity; [apply length_filter | exact Hlen]. }
  apply H. split; [cbn; lia | constructor].
Qed.

(** X20.  A run of the worker loop is work conserving: when the answer of
    the queue has been handled, either the worker is at capacity or every
    job of the answer is running; the jobs that ran before still run, and a
    job is started only if the answer lists it, the number of jobs started
    being the growth of the map. *)
Theorem startJobs_fills_capacity (jobs : list JobQueue.Job)
    (runningJobs : list jsstring)
    (Hdistinct : NoDup runningJobs)
    (Hcapacity : length runningJobs <= MAX_CONCURRENT_JOBS) :
  let after := (startJobs runningJobs 0 jobs).1 in
  let started := (startJobs runningJobs 0 jobs).2 in
  (length after = MAX_CONCURRENT_JOBS
   \/ forall job, job ∈ jobs -> JobQueue.hash job ∈ after)
  /\ runningJobs `prefix_of` after
  /\ length after = length runningJobs + started
  /\ (forall h, h ∈ after ->
        h ∈ runningJobs \/ exists job, job ∈ jobs /\ JobQueue.hash job = h).
Proof.
  destruct (startJobs_spec jobs runningJobs 0 Hdistinct Hcapacity)
    as (_ & _ & H3 & H4 & H5 & H6).
  cbv zeta. repeat split; try assumption. lia.
Qed.

Lemma startJobs_fills_capacity_witness :
  let job h :=
    {| JobQueue.id := str h; JobQueue.hash := str h; JobQueue.query := str h;
       JobQueue.normalizedQuery := str h; JobQueue.queryType := Normalize.word;
       JobQueue.status := JobQueue.queued; JobQueue.currentVideoId := None;
       JobQueue.result := None; JobQueue.error := None |} in
  let jobs := [job "a"; job "b"; job "c"; job "d"] in
  let runningJobs := [str "x"; str "b"; str "y"] in
  startJobs runningJobs 0 jobs = ([str "x"; str "b"; str "y"; str "a"; str "c"], 2)
  /\ (length (startJobs runningJobs 0 jobs).1 = MAX_CONCURRENT_JOBS
      \/ forall j, j ∈ jobs -> JobQueue.hash j ∈ (startJobs runningJobs 0 jobs).1).
Proof.
  intros job jobs runningJobs. split; [reflexivity|].
  refine (proj1 (startJobs_fills_capacity jobs runningJobs _ _)).
  - apply (bool_decide_unpack _). vm_compute. exact I.
  - cbn. unfold MAX_CONCURRENT_JOBS. lia.
Defined.

End BackgroundWorkerFacts.

(** ** routes/youtubeSearch.ts: repeated requests *)
Module SearchRepeatFacts.
Import JsString Normalize YoutubeSearch.

Section Route.
Variable generateHash : jsstring -> jsstring.
Variable uuid_in : jsstring -> except jsstring.

Lemma findJobByHash_app (jobs : list JobQueue.Job) (job : JobQueue.Job) :
  JobQueue.findJobByHash jobs (JobQueue.hash job) = None ->
  JobQueue.findJobByHash (jobs ++ [job]) (JobQueue.hash job) = Some job.
Proof.
  unfold JobQueue.findJobByHash. intros Hnone.
  induction jobs as [|j r IH]; cbn in *.
  - destruct (decide (JobQueue.hash job = JobQueue.hash job)); [reflexivity|contradiction].
  - destruct (decide (JobQueue.hash j = JobQueue.hash job)); [discriminate|].
    now apply IH.
Qed.

(** X21.  A search that is repeated never creates a second job: whatever the
    first request did (a poll by [jobId] included, whether its id is a UUID
    or not), the same request sent again leaves the stores as the first one
    left them; and if the first one created a job, the second is answered
    with that job, queued, under the identifier the first answer carried.
    No request removes or changes a job that exists. *)
Theorem postSearch_repeat_creates_nothing (st : Stores) (newId newId' : jsstring)
    (req : SearchRequest) :
  let first := postSearch generateHash uuid_in st newId req in
  let second := postSearch generateHash uuid_in first.2 newId' req in
  second.2 = first.2
  /\ (jobs first.2 = jobs st \/ exists job, jobs first.2 = jobs st ++ [job])
  /\ (jobs first.2 <> jobs st ->
      exists normalized,
        first.1 = InProgressResponse JobQueue.queued newId normalized
                    (str "Your word has been placed in the queue to find a video")
                    None
        /\ second.1 = InProgressResponse JobQueue.queued newId normalized
                        (str "Your word is queued and waiting to be processed")
                        None).
Proof.
  cbv zeta. unfold postSearch.
  destruct (truthy (query req)) as [q|] eqn:Hq;
    [|rewrite ?Hq; split; [reflexivity|split; [now left|intros H; now contradict H]]].
  destruct (truthy (jobId req)) as [jid|] eqn:Hjid.
  { destruct (JobQueue.findJobById uuid_in (jobs st) jid) as [[job|]|msg] eqn:Hjob;
      cbn [snd fst]; rewrite ?Hq, ?Hjid, ?Hjob;
      (split; [reflexivity|split; [now left|intros H; now contradict H]]). }
  destruct (normalizeQuery q) as [n|msg] eqn:Hn;
    [|cbn [snd fst]; rewrite ?Hq, ?Hjid, ?Hn;
      split; [reflexivity|split; [now left|intros H; now contradict H]]].
  destruct (VideoExamples.findByHash (videoExamples st) (generateHash (normalized n)))
    as [cached|] eqn:Hcache.
  { cbn [snd fst]. rewrite ?Hq, ?Hjid, ?Hn, ?Hcache.
    split; [reflexivity|split; [now left|intros H; now contradict H]]. }
  destruct (JobQueue.findJobByHash (jobs st) (generateHash (normalized n)))
    as [existing|] eqn:Hexisting.
  { cbn [snd fst]. rewrite ?Hq, ?Hjid, ?Hn, ?Hcache, ?Hexisting.
    split; [reflexivity|split; [now left|intros H; now contradict H]]. }
  unfold JobQueue.createJob. rewrite Hexisting. cbn [snd fst].
  rewrite ?Hq, ?Hjid, ?Hn. cbn [videoExamples jobs]. rewrite ?Hcache.
  set (job := {| JobQueue.id := newId; JobQueue.hash := generateHash (normalized n);
                 JobQueue.query := q; JobQueue.normalizedQuery := normalized n;
                 JobQueue.queryType := type n; JobQueue.status := JobQueue.queued;
                 JobQueue.currentVideoId := None; JobQueue.result := None;
                 JobQueue.error := None |}).
  pose proof (findJobByHash_app (jobs st) job Hexisting) as Hnew.
  change (JobQueue.hash job) with (generateHash (normalized n)) in Hnew.
  rewrite Hnew.
  split; [reflexivity|]. split; [right; now exists job|].
  intros _. exists (normalized n). split; reflexivity.
Qed.

End Route.
End SearchRepeatFacts.

(** ** services/streamManager.ts: the frames of a response *)
Module StreamProtocolFacts.
Import JsString StreamManager StreamProtocol.

Lemma framesOk_open (strict strict' : bool) (s s' : ActiveStream)
    (c : Connection) :
  writableEnded c = false -> framesOk strict s c -> framesOk strict' s' c.
Proof. unfold framesOk. now intros ->. Qed.

Lemma framesOk_stream (strict : bool) (s s' : ActiveStream) (c : Connection) :
  chunks s' = chunks s -> terminalFrame s' = terminalFrame s ->
  framesOk strict s c -> framesOk strict s' c.
Proof. unfold framesOk. now intros -> ->. Qed.

(** Without the assumption of a single driver, the frames of an ended
    response stay well formed when the log grows. *)
Lemma framesOk_grows (s s' : ActiveStream) (c : Connection) :
  map text (chunks s) `prefix_of` map text (chunks s') ->
  framesOk false s c -> framesOk false s' c.
Proof.
  unfold framesOk. intros Hlog. destruct (writableEnded c); [| auto].
  intros (f & got & Hf & Hw & Hp & Hfull & _).
  exists f, got. split; [exact Hf |]. split; [exact Hw |].
  split; [now transitivity (map text (chunks s)) |].
  split; [exact Hfull | discriminate].
Qed.

Lemma framesOk_chunk (strict : bool) (s : ActiveStream) (t : jsstring)
    (c : Connection) :
  framesOk strict s c -> framesOk strict s (writeFrame (ChunkFrame t) c).
Proof.
  unfold writeFrame. destruct (writableEnded c) eqn:E; [auto |].
  unfold framesOk. rewrite E. cbn. intros H.
  rewrite StreamManagerFacts.chunkTexts_app, map_app, <- H. reflexivity.
Qed.

Lemma framesOk_end (strict : bool) (s : ActiveStream) (f : Frame)
    (c : Connection) :
  isTerminal f = true ->
  (writableEnded c = false ->
   chunkTexts (written c) `prefix_of` map text (chunks s)
   /\ (forall full, f = DoneFrame full -> full = concat (chunkTexts (written c)))
   /\ (strict = true ->
       chunkTexts (written c) = map text (chunks s) /\ terminalFrame s = Some f)) ->
  framesOk strict s c -> framesOk strict s (endConnection (writeFrame f c)).
Proof.
  intros Hf Hall. unfold writeFrame, framesOk.
  destruct (writableEnded c) eqn:E; cbn.
  - rewrite ?E. auto.
  - intros H. destruct (Hall eq_refl) as (Hp & Hfull & Hstrict).
    exists f, (chunkTexts (written c)). split; [exact Hf |].
    split; [now rewrite <- H |]. split; [exact Hp |]. split; assumption.
Qed.

Lemma terminalFrame_isTerminal (s : ActiveStream) (f : Frame) :
  terminalFrame s = Some f -> isTerminal f = true.
Proof.
  unfold terminalFrame. destruct (status s); [discriminate | |];
    intros H; injection H as <-; reflexivity.
Qed.

Lemma terminalFrame_done (s : ActiveStream) (full : jsstring) :
  terminalFrame s = Some (DoneFrame full) -> full = fullResponse s.
Proof.
  unfold terminalFrame. destruct (status s); [discriminate | | discriminate].
  intros H. now injection H as <-.
Qed.

Lemma protocolOf_stream (strict : bool) (s s' : ActiveStream)
    (conns : Connections) :
  chunks s' = chunks s -> fullResponse s' = fullResponse s ->
  terminalFrame s' = terminalFrame s ->
  protocolOf strict s conns -> protocolOf strict s' conns.
Proof.
  intros Hc Hf Ht [Hfull Hframes]. split; [now rewrite Hc, Hf |].
  intros id c Hid. eapply framesOk_stream; eauto.
Qed.

Lemma protocolOf_alter (strict : bool) (s : ActiveStream) (conns : Connections)
    (g : Connection -> Connection) (id : jsstring) :
  protocolOf strict s conns ->
  (forall c, conns !! id = Some c -> framesOk strict s c ->
             framesOk strict s (g c)) ->
  protocolOf strict s (alter g id conns).
Proof.
  intros [Hfull Hframes] Hg. split; [exact Hfull |].
  intros id' c' Hc'. destruct (decide (id' = id)) as [-> | Hne].
  - rewrite lookup_alter_eq in Hc'.
    destruct (conns !! id) as [c |] eqn:Hc; [| discriminate].
    injection Hc' as <-. apply Hg; [reflexivity | now apply Hframes with id].
  - rewrite lookup_alter_ne in Hc' by congruence. now apply Hframes with id'.
Qed.

Lemma sendTerminalIfDone_protocol (strict : bool) (id : jsstring)
    (s : ActiveStream) (conns : Connections) :
  protocolOf strict s conns ->
  (forall c, conns !! id = Some c -> writableEnded c = false ->
     chunkTexts (written c) = map text (chunks s)) ->
  protocolOf strict s (sendTerminalIfDone id s conns).
Proof.
  intros Hp Hall. unfold sendTerminalIfDone, sendTerminal.
  destruct (terminalFrame s) as [f |] eqn:Hf; [| exact Hp].
  destruct (isLive s id && canWrite conns id); [| exact Hp].
  apply protocolOf_alter; [exact Hp |].
  intros c Hc. apply framesOk_end; [now apply terminalFrame_isTerminal with s |].
  intros Hopen. rewrite (Hall c Hc Hopen). split; [reflexivity |].
  split; [| now split].
  intros full ->. rewrite (terminalFrame_done s full Hf). apply Hp.
Qed.

Lemma live_has_all (strict : bool) (w : World) (id : jsstring) (c : Connection) :
  invariant strict w -> conns w !! id = Some c -> isLive (stream w) id = true ->
  strict = true \/ writableEnded c = false ->
  chunkTexts (written c) = chunkLog w.
Proof.
  intros Hinv Hc Hlive Hcase. specialize (Hinv id). rewrite Hc, Hlive in Hinv.
  destruct Hinv as [Hok _]. unfold connOk in Hok.
  destruct (tasks w !! id) as [[i total | i total d | i | i |] |].
  - destruct Hok as (_ & H & _). discriminate.
  - destruct Hok as (H & _). discriminate.
  - destruct Hok as (H & _). discriminate.
  - destruct Hok as (_ & H & _). discriminate.
  - now apply Hok.
  - now apply Hok.
Qed.

Lemma open_while_active (strict : bool) (w : World) (id : jsstring)
    (c : Connection) :
  invariant strict w -> isActive (stream w) = true -> conns w !! id = Some c ->
  writableEnded c = false.
Proof.
  intros Hinv Hact Hc. specialize (Hinv id). rewrite Hc in Hinv. now apply Hinv.
Qed.

Lemma shapeError_default (e : jsstring) :
  shapeError (default (str "Unknown error") (truthy (Some e))) = shapeError e.
Proof. destruct e; reflexivity. Qed.

(** With a single driver, an event of the driver finds every response
    open. *)
Lemma driver_finds_open (strict : bool) (w : World) (id : jsstring)
    (c : Connection) :
  invariant strict w -> (strict = true -> isActive (stream w) = true) ->
  conns w !! id = Some c -> writableEnded c = true -> strict = false.
Proof.
  intros Hinv Hguard Hc Hended. destruct strict; [| reflexivity].
  rewrite (open_while_active true w id c Hinv (Hguard eq_refl) Hc) in Hended.
  discriminate.
Qed.

(** A broadcast of a chunk. *)
Lemma publish_protocol (strict : bool) (w : World) (now : Z) (chunk : jsstring) :
  invariant strict w -> (strict = true -> isActive (stream w) = true) ->
  protocolOf strict (stream w) (conns w) ->
  protocolOf strict (publishChunk now chunk (stream w) (conns w)).1
             (publishChunk now chunk (stream w) (conns w)).2.
Proof.
  intros Hinv Hguard [Hfull Hframes]. unfold publishChunk. split.
  - cbn. rewrite Hfull, map_app, concat_app. cbn. now rewrite app_nil_r.
  - intros id c' Hc'. rewrite StreamManagerFacts.broadcast_conn in Hc'.
    destruct (conns w !! id) as [c |] eqn:Hc; [| discriminate].
    injection Hc' as <-.
    pose proof (Hframes id c Hc) as Hok.
    destruct (writableEnded c) eqn:Hended.
    + pose proof (driver_finds_open strict w id c Hinv Hguard Hc Hended) as ->.
      assert (Hsame : (if isLive (withChunk (stream w)
                                    {| text := chunk;
                                       timestamp := (now - createdAt (stream w))%Z |})
                                 id && negb (broken c)
                       then writeFrame (ChunkFrame chunk) c else c) = c).
      { destruct (_ && _); [| reflexivity].
        unfold writeFrame. now rewrite Hended. }
      cbn [fst snd]. rewrite Hsame.
      apply framesOk_grows with (stream w); [| exact Hok].
      cbn. rewrite map_app. now apply prefix_app_r.
    + destruct (_ && _).
      * apply framesOk_open with strict (stream w).
        -- now rewrite StreamManagerFacts.writeFrame_ended.
        -- now apply framesOk_chunk.
      * now apply framesOk_open with strict (stream w).
Qed.

(** A broadcast of the terminal frame of the new status. *)
Lemma terminal_protocol (strict : bool) (w : World) (st : StreamStatus)
    (e : option jsstring) (f : Frame) :
  invariant strict w -> (strict = true -> isActive (stream w) = true) ->
  terminalFrame (withStatus (stream w) st e) = Some f ->
  protocolOf strict (stream w) (conns w) ->
  protocolOf strict (broadcast (withStatus (stream w) st e) (conns w) f true).1
             (broadcast (withStatus (stream w) st e) (conns w) f true).2.
Proof.
  intros Hinv Hguard Hf [Hfull Hframes]. split; [exact Hfull |].
  intros id c' Hc'. rewrite StreamManagerFacts.broadcast_conn in Hc'.
  destruct (conns w !! id) as [c |] eqn:Hc; [| discriminate].
  injection Hc' as <-.
  pose proof (Hframes id c Hc) as Hok.
  assert (Hmoved : framesOk strict (withStatus (stream w) st e) c).
  { destruct (writableEnded c) eqn:Hended.
    - pose proof (driver_finds_open strict w id c Hinv Hguard Hc Hended) as ->.
      now apply framesOk_grows with (stream w).
    - now apply framesOk_open with strict (stream w). }
  destruct (isLive (withStatus (stream w) st e) id) eqn:Hlive; cbn [andb];
    [| exact Hmoved].
  destruct (negb (broken c)); [| exact Hmoved].
  apply framesOk_end;
    [now apply terminalFrame_isTerminal with (withStatus (stream w) st e) | |
     exact Hmoved].
  intros Hopen.
  pose proof (live_has_all strict w id c Hinv Hc Hlive (or_intror Hopen)) as Hgot.
  unfold chunkLog in Hgot. cbn [withStatus chunks]. rewrite Hgot.
  split; [reflexivity |]. split; [| now split].
  intros full ->.
  rewrite (terminalFrame_done _ full Hf). exact Hfull.
Qed.

Lemma replayStep_protocol (strict : bool) (w : World) (id0 : jsstring) :
  invariant strict w -> protocolOf strict (stream w) (conns w) ->
  protocolOf strict (stream (replayStep w id0)) (conns (replayStep w id0)).
Proof.
  intros Hinv Hp. unfold replayStep.
  destruct (tasks w !! id0) as [[i total | i total d | i | i |] |] eqn:Ht;
    try exact Hp.
  - destruct (i <? total).
    + destruct (negb (isSubscriberConnected w id0)); [exact Hp |].
      destruct (chunks (stream w) !! i) as [chunk |]; [| exact Hp].
      destruct (canWrite (conns w) id0); [| exact Hp].
      assert (Hw : protocolOf strict (stream w)
                     (alter (writeFrame (ChunkFrame (text chunk))) id0 (conns w))).
      { apply protocolOf_alter; [exact Hp |]. intros c _. apply framesOk_chunk. }
      destruct (chunks (stream w) !! (i + 1)); exact Hw.
    + destruct (length (chunks (stream w)) <=? i); [| exact Hp].
      destruct (status (stream w)); exact Hp.
  - cbn [setTask setStream stream conns].
    assert (Hp' : protocolOf strict (finishedReplaying id0 (stream w)) (conns w)).
    { revert Hp. now apply protocolOf_stream. }
    destruct (registered w); [| exact Hp'].
    apply sendTerminalIfDone_protocol; [exact Hp' |].
    intros c Hc _. specialize (Hinv id0). rewrite Hc, Ht in Hinv.
    destruct Hinv as [(_ & _ & _ & Hgot) _]. exact Hgot.
Qed.

Lemma subscribe_protocol (strict : bool) (w : World) (id : jsstring) (now : Z) :
  conns w !! id = None ->
  protocolOf strict (stream w) (conns w) ->
  protocolOf strict (subscribe now id (stream w) (conns w)).1.1
             (subscribe now id (stream w) (conns w)).1.2.
Proof.
  intros Hfresh Hp. unfold subscribe.
  set (s' := withSubscribers (stream w) _).
  assert (Hp' : protocolOf strict s' (<[id := freshConnection]> (conns w))).
  { destruct Hp as [Hfull Hframes]. split; [exact Hfull |].
    intros id' c Hc. destruct (decide (id' = id)) as [-> | Hne].
    - rewrite lookup_insert_eq in Hc. injection Hc as <-. reflexivity.
    - rewrite lookup_insert_ne in Hc by congruence.
      apply framesOk_stream with (stream w); [reflexivity | reflexivity |].
      now apply Hframes with id'. }
  destruct (length (chunks (stream w)) =? 0) eqn:Hlen; cbn [negb fst snd];
    [| exact Hp'].
  apply sendTerminalIfDone_protocol; [exact Hp' |].
  intros c Hc _. rewrite lookup_insert_eq in Hc. injection Hc as <-.
  apply Nat.eqb_eq in Hlen. cbn.
  destruct (chunks (stream w)); [reflexivity | discriminate].
Qed.

Lemma step_protocol (strict : bool) (w w' : World) (e : Event) :
  invariant strict w -> protocolOf strict (stream w) (conns w) ->
  (strict = true -> isDriverEvent e = true -> isActive (stream w) = true) ->
  step w e = Some w' ->
  protocolOf strict (stream w') (conns w').
Proof.
  intros Hinv Hp Hguard Hstep. unfold step in Hstep.
  destruct (running w) as [idr |] eqn:Hrun.
  - destruct e; try discriminate. injection Hstep as <-.
    now apply replayStep_protocol.
  - destruct e as [id now | id | id | chunk now | | err | id | | | |];
      try discriminate.
    + destruct (registered w); [| discriminate].
      destruct (bool_decide (conns w !! id = None)) eqn:Hfresh; [| discriminate].
      apply bool_decide_eq_true in Hfresh. cbn [andb] in Hstep.
      pose proof (subscribe_protocol strict w id now Hfresh Hp) as H.
      destruct (subscribe now id (stream w) (conns w)) as [[s' c'] r].
      injection Hstep as <-. destruct r; exact H.
    + injection Hstep as <-. destruct (registered w); [| exact Hp].
      revert Hp. now apply protocolOf_stream.
    + injection Hstep as <-. cbn [setStream stream conns].
      apply protocolOf_alter; [exact Hp |]. intros c _ H. exact H.
    + injection Hstep as <-. destruct (registered w); [| exact Hp].
      pose proof (publish_protocol strict w now chunk Hinv
                    (fun Hs => Hguard Hs eq_refl) Hp) as H.
      exact H.
    + injection Hstep as <-. destruct (registered w); [| exact Hp].
      pose proof (terminal_protocol strict w completed (errorText (stream w))
                    (DoneFrame (fullResponse (stream w))) Hinv
                    (fun Hs => Hguard Hs eq_refl) eq_refl Hp) as H.
      exact H.
    + injection Hstep as <-. destruct (registered w); [| exact Hp].
      assert (Hf : terminalFrame (withStatus (stream w) error (Some err))
                   = Some (ErrorFrame (shapeError err))).
      { unfold terminalFrame. cbn [status withStatus errorText].
        now rewrite shapeError_default. }
      pose proof (terminal_protocol strict w error (Some err)
                    (ErrorFrame (shapeError err)) Hinv
                    (fun Hs => Hguard Hs eq_refl) Hf Hp) as H.
      exact H.
    + unfold resume in Hstep.
      destruct (tasks w !! id) as [[i total | i total d | i | i |] |];
        try discriminate.
      * injection Hstep as <-. exact Hp.
      * destruct (status (stream w));
          [destruct (length (chunks (stream w)) <=? i) |..];
          injection Hstep as <-; exact Hp.
    + injection Hstep as <-. destruct (bool_decide _); exact Hp.
    + injection Hstep as <-. destruct (_ && _); exact Hp.
    + injection Hstep as <-. exact Hp.
Qed.

Lemma run_protocol (strict : bool) (events : list Event) (w w' : World) :
  invariant strict w -> protocolOf strict (stream w) (conns w) ->
  (strict = true -> singleDriver w events = true) ->
  run w events = Some w' ->
  protocolOf strict (stream w') (conns w').
Proof.
  revert w. induction events as [| e rest IH]; intros w Hinv Hp Hguard Hrun;
    simpl in Hrun.
  - now injection Hrun as <-.
  - destruct (step w e) as [w1 |] eqn:Hstep; [| discriminate].
    assert (Hnow : strict = true -> isDriverEvent e = true ->
                   isActive (stream w) = true).
    { intros Hs He. specialize (Hguard Hs). cbn in Hguard.
      apply andb_true_iff in Hguard. destruct Hguard as [Hg _].
      rewrite He in Hg. exact Hg. }
    apply (IH w1); [eapply StreamManagerFacts.step_invariant; eassumption | | |
                    exact Hrun].
    + eapply step_protocol; eassumption.
    + intros Hs. specialize (Hguard Hs). cbn in Hguard. rewrite Hstep in Hguard.
      apply andb_true_iff in Hguard. apply Hguard.
Qed.

Lemma initialWorld_protocol (strict : bool) (key : jsstring) (p : StreamParams)
    (now : Z) :
  protocolOf strict (stream (initialWorld key p now))
             (conns (initialWorld key p now)).
Proof.
  split; [reflexivity |]. intros id' c'. cbn. rewrite lookup_empty. discriminate.
Qed.

(** X22.  Every response of a stream is framed the same way, whatever the
    interleaving of subscriptions, chunks and ends announced under the key
    (by the driver of the stream or by another one), disconnections, replays
    and timers of the registry: while the response is open it has been
    written chunk frames only; when it has been ended it holds the chunk
    frames of an initial segment of the log, in log order, followed by
    exactly one terminal frame, which is the last frame, and a done frame
    carries as [fullResponse] the concatenation of the chunk frames before
    it.  In the runs with a single driver the chunk frames of an ended
    response are those of the whole log and its terminal frame is the one of
    the stream.  The done frame of a stream carries the concatenation of the
    log. *)
Theorem response_is_chunks_then_one_terminal_frame
    (key : jsstring) (p : StreamParams) (now : Z)
    (events : list Event) (w : World)
    (Hrun : run (initialWorld key p now) events = Some w)
    (id : jsstring) (c : Connection)
    (Hc : conns w !! id = Some c) :
  (writableEnded c = false -> written c = map ChunkFrame (received w id))
  /\ (writableEnded c = true ->
      exists f,
        isTerminal f = true
        /\ written c = map ChunkFrame (received w id) ++ [f]
        /\ received w id `prefix_of` chunkLog w
        /\ (forall full, f = DoneFrame full -> full = concat (received w id))
        /\ (singleDriver (initialWorld key p now) events = true ->
            received w id = chunkLog w /\ terminalFrame (stream w) = Some f))
  /\ (forall full,
        terminalFrame (stream w) = Some (DoneFrame full) ->
        full = concat (chunkLog w)).
Proof.
  assert (Hall : protocolOf false (stream w) (conns w)).
  { eapply run_protocol;
      [apply StreamManagerFacts.initialWorld_invariant |
       apply initialWorld_protocol | discriminate | exact Hrun]. }
  assert (Hone : singleDriver (initialWorld key p now) events = true ->
                 protocolOf true (stream w) (conns w)).
  { intros Hs. eapply run_protocol;
      [apply StreamManagerFacts.initialWorld_invariant |
       apply initialWorld_protocol | intros _; exact Hs | exact Hrun]. }
  assert (Hgot : forall (got : list jsstring) (f : Frame),
            isTerminal f = true ->
            chunkTexts (map ChunkFrame got ++ [f]) = got).
  { intros got f Hf. rewrite StreamManagerFacts.chunkTexts_app.
    destruct f; try discriminate; cbn; rewrite app_nil_r;
      induction got as [| x l IH]; cbn; congruence. }
  destruct Hall as [Hfull Hframes]. specialize (Hframes id c Hc).
  unfold framesOk in Hframes. unfold received. rewrite Hc.
  split; [| split].
  - intros E. now rewrite E in Hframes.
  - intros E. rewrite E in Hframes.
    destruct Hframes as (f & got & Hf & Hw & Hp & Hdone & _).
    exists f. rewrite Hw, (Hgot got f Hf).
    split; [exact Hf |]. split; [reflexivity |]. split; [exact Hp |].
    split; [exact Hdone |].
    intros Hs. destruct (Hone Hs) as [_ Hframes1].
    specialize (Hframes1 id c Hc). unfold framesOk in Hframes1.
    rewrite E in Hframes1.
    destruct Hframes1 as (f1 & got1 & Hf1 & Hw1 & _ & _ & Hstrict).
    destruct (Hstrict eq_refl) as [Hlog Hterm].
    rewrite Hw in Hw1. apply app_inj_tail in Hw1. destruct Hw1 as [Hmap ->].
    assert (got = got1) as ->.
    { clear -Hmap. revert got1 Hmap.
      induction got as [| x l IH]; intros [| y l1] H; cbn in H;
        try discriminate; [reflexivity |].
      injection H as -> H. now rewrite (IH l1 H). }
    split; [exact Hlog | exact Hterm].
  - intros full Hf. rewrite (terminalFrame_done _ full Hf). exact Hfull.
Qed.

Lemma response_is_chunks_then_one_terminal_frame_witness :
  let p := {| sentence := str "it rains"; targetWord := str "rains";
              targetLanguage := str "en"; nativeLanguage := str "fr";
              contextBefore := None; contextAfter := None |} in
  let events :=
    [EvSubscribe (str "A") 0%Z; EvPublish (str "c0") 10%Z; EvPublish (str "c1") 20%Z;
     EvSubscribe (str "B") 25%Z; EvRun; EvPublish (str "c2") 30%Z;
     EvResume (str "B"); EvRun; EvResume (str "B"); EvRun; EvRun; EvRun;
     EvPublish (str "c3") 50%Z; EvResume (str "B"); EvRun; EvRun;
     EvResume (str "B"); EvRun; EvPublish (str "c4") 60%Z; EvComplete] in
  exists w c,
    run (initialWorld (str "k") p 0%Z) events = Some w
    /\ conns w !! str "B" = Some c
    /\ written c
       = map ChunkFrame (map str ["c0"; "c1"; "c2"; "c3"; "c4"]%string)
         ++ [DoneFrame (str "c0c1c2c3c4")].
Proof.
  intros p events.
  destruct (run (initialWorld (str "k") p 0%Z) events) as [w |] eqn:Hrun;
    [| vm_compute in Hrun; discriminate].
  destruct (conns w !! str "B") as [c |] eqn:Hc.
  2:{ vm_compute in Hrun. injection Hrun as <-. vm_compute in Hc. discriminate. }
  exists w, c. split; [reflexivity |]. split; [exact Hc |].
  destruct (response_is_chunks_then_one_terminal_frame _ _ _ _ _ Hrun _ _ Hc)
    as (_ & Hended & _).
  assert (Hw : writableEnded c = true
               /\ chunkLog w = map str ["c0"; "c1"; "c2"; "c3"; "c4"]%string
               /\ terminalFrame (stream w) = Some (DoneFrame (str "c0c1c2c3c4"))).
  { vm_compute in Hrun. injection Hrun as <-. vm_compute in Hc.
    injection Hc as <-. vm_compute. repeat split. }
  destruct Hw as (He & Hlog & Hterm).
  destruct (Hended He) as (f & _ & Hwritten & _ & _ & Hsingle).
  destruct (Hsingle eq_refl) as [Hgot Hf].
  rewrite Hwritten, Hgot, Hlog. congruence.
Defined.

End StreamProtocolFacts.

(** ** services/whisper.ts *)
Module WhisperFacts.
Import JsString Whisper.

Lemma chunkLoop_spec (rest : list ChunkOutcome) (remaining processed n : nat)
    (found : bool) :
  chunkLoop rest remaining processed = Ok (n, found) ->
  if found
  then exists i,
         i < remaining /\ rest !! i = Some (Searched true)
         /\ (forall j, j < i -> rest !! j = Some (Searched false))
         /\ n = processed + Nat.min (i + 2) (length rest)
  else n = processed + Nat.min remaining (length rest)
       /\ forall j, j < Nat.min remaining (length rest) ->
            rest !! j = Some (Searched false).
Proof.
  revert remaining processed.
  induction rest as [|chunk next IH]; intros remaining processed.
  - destruct remaining; cbn; intros [= <- <-];
      (split; [lia | intros j Hj; lia]).
  - destruct remaining as [|remaining'].
    { cbn. intros [= <- <-]. split; [lia | intros j Hj; lia]. }
    cbn [chunkLoop]. destruct chunk as [msg|msg|[|]]; try discriminate.
    + destruct next as [|[msg|msg|f] next'].
      * intros [= <- <-]. exists 0. cbn.
        repeat split; first [lia | reflexivity | (intros j Hj; lia)].
      * discriminate.
      * intros [= <- <-]. exists 0. cbn.
        repeat split; first [lia | reflexivity | (intros j Hj; lia)].
      * intros [= <- <-]. exists 0. cbn.
        repeat split; first [lia | reflexivity | (intros j Hj; lia)].
    + intros H. specialize (IH remaining' (processed + 1) H).
      destruct found.
      * destruct IH as (i & Hi & Hhit & Hbefore & Hn).
        exists (S i). cbn. split; [lia|]. split; [exact Hhit|]. split; [|lia].
        intros [|j] Hj; [reflexivity | apply Hbefore; lia].
      * destruct IH as [Hn Hall]. cbn. split; [lia|].
        intros [|j] Hj; [reflexivity | apply Hall; lia].
Qed.

(** X23.  A transcription that returns has transcribed a prefix of the
    audio of at most [maxChunks + 1] chunks.  Either the term was found in
    one of the first [maxChunks] chunks: then the chunks up to the first one
    with the term and the chunk after it (if any) were transcribed, and
    [stoppedEarly] tells whether chunks are left; or the audio has fewer
    than [maxChunks] chunks, none with the term, and all were transcribed.
    An audio of [maxChunks] chunks or more in which no chunk of the first
    [maxChunks] has the term is never returned: it throws. *)
Theorem transcribeAudio_bounds (chunks : list ChunkOutcome)
    (searchWord : jsstring) (chunkDuration maxChunks : nat) :
  match transcribeAudio (Ok chunks) searchWord chunkDuration maxChunks with
  | Ok r =>
      chunksProcessed r <= Nat.min (length chunks) (maxChunks + 1)
      /\ ((exists i,
             i < maxChunks /\ chunks !! i = Some (Searched true)
             /\ (forall j, j < i -> chunks !! j = Some (Searched false))
             /\ chunksProcessed r = Nat.min (i + 2) (length chunks)
             /\ stoppedEarly r = (i + 2 <? length chunks))
          \/ (length chunks < maxChunks
              /\ Forall (fun c => c = Searched false) chunks
              /\ chunksProcessed r = length chunks
              /\ stoppedEarly r = false))
  | Throw _ => True
  end
  /\ (maxChunks <= length chunks ->
      (forall j, j < maxChunks -> chunks !! j = Some (Searched false)) ->
      exists msg,
        transcribeAudio (Ok chunks) searchWord chunkDuration maxChunks = Throw msg).
Proof.
  unfold transcribeAudio. cbv zeta.
  destruct (chunkLoop chunks (Nat.min (length chunks) maxChunks) 0)
    as [[n found]|msg] eqn:E.
  2:{ split; [exact I|]. intros _ _. eexists. reflexivity. }
  apply chunkLoop_spec in E. destruct found; cbn [negb andb].
  - destruct E as (i & Hi & Hhit & Hbefore & Hn). cbn in Hn. subst n.
    split.
    + cbn [chunksProcessed stoppedEarly]. split; [lia|]. left. exists i.
      repeat split; try assumption; [lia|].
      destruct (i + 2 <? length chunks) eqn:E1, (Nat.min (i + 2) (length chunks)
                                                 <? length chunks) eqn:E2;
        try reflexivity;
        [apply Nat.ltb_lt in E1; apply Nat.ltb_ge in E2
        |apply Nat.ltb_ge in E1; apply Nat.ltb_lt in E2]; lia.
    + intros Hlen Hnone. rewrite Hnone in Hhit by lia. discriminate.
  - destruct E as [Hn Hall]. cbn in Hn. subst n.
    destruct (maxChunks <=? Nat.min (Nat.min (length chunks) maxChunks) (length chunks))
      eqn:Hmax.
    + split; [exact I|]. intros _ _. eexists. reflexivity.
    + apply Nat.leb_gt in Hmax. split.
      * cbn [chunksProcessed stoppedEarly]. split; [lia|]. right.
        split; [lia|]. split; [|split; [lia|]].
        -- apply Forall_lookup_2. intros j c Hc.
           pose proof (lookup_lt_Some _ _ _ Hc) as Hj.
           rewrite Hall in Hc by lia. congruence.
        -- reflexivity.
      * intros Hlen _. lia.
Qed.

End WhisperFacts.

(** ** services/streamManager.ts: the statistics *)
Module RegistryStatsFacts.
Import JsString StreamManager Registry RegistryStats.

Lemma countStream_total (l : list (jsstring * ActiveStream)) (acc : Stats) :
  totalStreams (foldl countStream acc l) = totalStreams acc.
Proof.
  revert acc. induction l as [|p rest IH]; intros acc; [reflexivity|].
  cbn [foldl]. now rewrite IH.
Qed.

Lemma countStream_statuses (l : list (jsstring * ActiveStream)) (acc : Stats) :
  let r := foldl countStream acc l in
  activeStreams r + completedStreams r + erroredStreams r
  = activeStreams acc + completedStreams acc + erroredStreams acc + length l.
Proof.
  revert acc. induction l as [|p rest IH]; intros acc; cbn [foldl]; [cbn; lia|].
  cbv zeta in *. rewrite IH. unfold countStream.
  cbn [activeStreams completedStreams erroredStreams length].
  destruct (status p.2);
    repeat first [rewrite (bool_decide_eq_true_2 _ eq_refl)
                 | rewrite bool_decide_eq_false_2 by discriminate];
    lia.
Qed.

Lemma countStream_active (l : list (jsstring * ActiveStream)) (acc : Stats) :
  activeStreams (foldl countStream acc l)
  = activeStreams acc
    + length (filter (fun p => bool_decide (status p.2 = active) = true) l).
Proof.
  revert acc. induction l as [|p rest IH]; intros acc; cbn [foldl]; [cbn; lia|].
  rewrite IH. unfold countStream. cbn [activeStreams].
  rewrite filter_cons.
  destruct (bool_decide (status p.2 = active)) eqn:E.
  - destruct (decide (true = true)); [cbn; lia | congruence].
  - destruct (decide (false = true)); [discriminate | cbn; lia].
Qed.

Lemma countStream_subscribers (l : list (jsstring * ActiveStream)) (acc : Stats) :
  replayingSubscribers acc <= totalSubscribers acc ->
  replayingSubscribers (foldl countStream acc l)
  <= totalSubscribers (foldl countStream acc l).
Proof.
  revert acc. induction l as [|p rest IH]; intros acc Hacc; cbn [foldl];
    [exact Hacc|].
  apply IH. unfold countStream. cbn [replayingSubscribers totalSubscribers].
  assert (Hsize : size (filter (fun q : jsstring * StreamSubscriber =>
                                  isReplaying q.2 = true) (subscribers p.2))
                  <= size (subscribers p.2)).
  { apply map_size_filter. }
  lia.
Qed.

(** X24.  The statistics of the registry are consistent: every registered
    stream is counted in exactly one of active, completed and failed, so the
    three counts add up to the total, which is the size of the registry;
    the active count is the number of registered keys for which
    [hasActiveStream] holds; and the subscribers counted as replaying are
    among the subscribers counted. *)
Theorem getStats_consistent (m : Manager)
    (Hkeys : NoDup (map fst (streams m))) :
  let stats := getStats m in
  totalStreams stats = length (streams m)
  /\ activeStreams stats + completedStreams stats + erroredStreams stats
     = totalStreams stats
  /\ replayingSubscribers stats <= totalSubscribers stats
  /\ activeStreams stats
     = length (filter (fun key => hasActiveStream m key = true)
                      (map fst (streams m))).
Proof.
  intros stats. subst stats. unfold getStats.
  split; [now rewrite countStream_total|].
  split; [rewrite countStream_statuses, countStream_total; cbn; lia|].
  split; [apply countStream_subscribers; cbn; lia|].
  rewrite countStream_active. cbn [activeStreams Nat.add].
  assert (Hget : forall p, p ∈ streams m ->
            hasActiveStream m p.1 = bool_decide (status p.2 = active)).
  { intros p Hp. unfold hasActiveStream, getStream.
    destruct (find (hasKey p.1) (streams m)) as [q|] eqn:E.
    - apply RegistryFacts.find_hasKey_Some in E as [Hq Hk].
      rewrite (EvictionFacts.key_determines_entry (streams m) q p Hkeys Hq Hp Hk).
      reflexivity.
    - exfalso. apply RegistryFacts.find_hasKey_None in E. apply E.
      now apply (list_elem_of_fmap_2 fst). }
  clear Hkeys. revert Hget. generalize (hasActiveStream m) as has.
  intros has Hget. induction (streams m) as [|p rest IH]; [reflexivity|].
  cbn [map]. rewrite !filter_cons, <- (Hget p) by now left.
  destruct (decide (has p.1 = true)); cbn [length];
    rewrite IH by (intros q Hq; apply Hget; now right); reflexivity.
Qed.

Lemma getStats_consistent_witness :
  let p := {| sentence := str "s"; targetWord := str "w"; targetLanguage := str "en";
              nativeLanguage := str "fr"; contextBefore := None;
              contextAfter := None |} in
  let m := {| streams := [(str "a", newStream (str "a") p 0%Z);
                          (str "b", withStatus (newStream (str "b") p 1%Z)
                                      completed None)];
              connections := ∅ |} in
  activeStreams (getStats m) + completedStreams (getStats m)
  + erroredStreams (getStats m) = 2.
Proof.
  intros p m.
  destruct (getStats_consistent m) as (H1 & H2 & _).
  - apply (bool_decide_unpack _). vm_compute. exact I.
  - rewrite H2, H1. reflexivity.
Defined.

End RegistryStatsFacts.

(** ** From the search route to the worker and back *)
Module EndToEndFacts.
Import JsString Normalize JobQueue JobStore Pipeline.

Lemma getQueuedJobs_updateWhere (h : jsstring) (g : Job -> Job) (jobs : list Job) :
  (forall j, status (g j) <> queued) ->
  getQueuedJobs (updateWhere h g jobs)
  = filter (fun j => hash j <> h) (getQueuedJobs jobs).
Proof.
  intros Hg. unfold getQueuedJobs, updateWhere.
  induction jobs as [|j rest IH]; [reflexivity|].
  cbn [map]. rewrite !filter_cons.
  destruct (decide (hash j = h)) as [Hj|Hj].
  - destruct (decide (status (g j) = queued)) as [Hq|_]; [now apply Hg in Hq|].
    destruct (decide (status j = queued)); [|exact IH].
    rewrite filter_cons. destruct (decide (hash j <> h)); [contradiction | exact IH].
  - destruct (decide (status j = queued)); [|exact IH].
    rewrite filter_cons. destruct (decide (hash j <> h)); [|contradiction].
    now rewrite IH.
Qed.

Section Service.
Variable generateHash : jsstring -> jsstring.
Variable uuid_in : jsstring -> except jsstring.
Variable searchVideos :
  jsstring -> Youtube.SearchOptions -> except (list Youtube.YouTubeVideo).
Variable attempt : nat -> Youtube.YouTubeVideo -> Attempt.
Variable newRowId : jsstring.
Variable now : Z.

(** X25.  A job that has been processed never comes back into the queue of
    the worker, and processing it changes nothing for the others: after a
    run of [processJob] on a fingerprint, the queued jobs are the jobs that
    were queued before, in the same order, without those of that
    fingerprint. *)
Theorem processJob_leaves_the_queue (db : Database) (h q : jsstring)
    (t : QueryType) :
  getQueuedJobs (jobs (processJob searchVideos attempt newRowId now db h q t))
  = filter (fun j => hash j <> h) (getQueuedJobs (jobs db)).
Proof.
  destruct (PipelineFacts.processJob_outcome searchVideos attempt newRowId now
              db h q t) as (g & Hg & Hjobs & Hcase).
  unfold processJob. rewrite Hjobs.
  apply getQueuedJobs_updateWhere. intros j.
  destruct Hcase as [(_ & e & _ & Hfail & _)
                    | [(_ & r & Hdone & _)
                      | (_ & i & video & st & Hhang & Hst & _)]].
  - destruct (Hfail j) as [-> _]. discriminate.
  - destruct (Hdone j) as [-> _]. discriminate.
  - destruct (Hst j) as [-> _].
    destruct Hhang as [[_ ->]|[_ ->]]; discriminate.
Qed.

(** X26.  From a search to its answer.  When a search creates a job and the
    worker then runs [processJob] on it (the database and the YouTube API
    answering), the same search sent again creates no job and is answered
    from what the run left.  If the run has returned, the answer is never in
    progress: if the run found a segment, it is status completed with that
    segment, read from the Result Store (video, watch URL, start, end,
    caption and captions of the job's result, the fingerprint as
    identifier); if the run
    failed, it is status failed with the identifier of the job and the error
    message of the run.  If the run never returns (the download or the
    transcription of a candidate never ends), the answer is in progress,
    downloading or transcribing that candidate, for ever. *)
Theorem search_after_job (st : YoutubeSearch.Stores)
    (index : WordIndex.WordIndexTable) (newId newId' q : jsstring)
    (n : NormalizedQuery) (req : YoutubeSearch.SearchRequest)
    (Hquery : truthy (YoutubeSearch.query req) = Some q)
    (Hpoll : truthy (YoutubeSearch.jobId req) = None)
    (Hcanon : normalizeQuery q = Ok n)
    (Hcache : VideoExamples.findByHash (YoutubeSearch.videoExamples st)
                (generateHash (normalized n)) = None)
    (Hjob : findJobByHash (YoutubeSearch.jobs st) (generateHash (normalized n))
            = None) :
  let first := YoutubeSearch.postSearch generateHash uuid_in st newId req in
  let run :=
    processJobRun searchVideos attempt newRowId now
      {| jobs := YoutubeSearch.jobs first.2;
         videoExamples := YoutubeSearch.videoExamples first.2;
         wordIndex := index |}
      (generateHash (normalized n)) (normalized n) (type n) in
  let db' := run.1 in
  let st' := {| YoutubeSearch.videoExamples := videoExamples db';
                YoutubeSearch.jobs := jobs db' |} in
  let second := YoutubeSearch.postSearch generateHash uuid_in st' newId' req in
  first.1 = YoutubeSearch.InProgressResponse queued newId (normalized n)
              (str "Your word has been placed in the queue to find a video") None
  /\ second.2 = st'
  /\ exists job,
       findJobByHash (jobs db') (generateHash (normalized n)) = Some job
       /\ id job = newId
       /\ match run.2 with
          | Returns =>
              (exists r,
                 status job = completed /\ result job = Some r
                 /\ second.1
                    = YoutubeSearch.CompletedResponse (generateHash (normalized n))
                        (normalized n) (JobProcessor.videoId r)
                        (JobProcessor.watchUrl (JobProcessor.videoId r))
                        (JobProcessor.startTime r) (JobProcessor.endTime r)
                        (JobProcessor.caption r) (JobProcessor.captions r))
              \/ (exists e,
                    status job = failed /\ error job = Some e /\ e <> []
                    /\ second.1
                       = YoutubeSearch.FailedResponse newId (normalized n) e)
          | NeverReturns =>
              exists i video message,
                (attempt i video = DownloadHangs /\ status job = downloading
                 \/ attempt i video = TranscriptionHangs
                    /\ status job = transcribing)
                /\ second.1
                   = YoutubeSearch.InProgressResponse (status job) newId
                       (normalized n) message (Some (Youtube.videoId video))
          end.
Proof.
  cbv zeta.
  set (h := generateHash (normalized n)) in *.
  set (job0 := {| id := newId; hash := h; query := q;
                  normalizedQuery := normalized n; queryType := type n;
                  status := queued; currentVideoId := None; result := None;
                  error := None |}).
  assert (Hfirst : YoutubeSearch.postSearch generateHash uuid_in st newId req
                   = (YoutubeSearch.InProgressResponse queued newId (normalized n)
                        (str "Your word has been placed in the queue to find a video")
                        None,
                      {| YoutubeSearch.videoExamples := YoutubeSearch.videoExamples st;
                         YoutubeSearch.jobs := YoutubeSearch.jobs st ++ [job0] |})).
  { unfold YoutubeSearch.postSearch. rewrite Hquery, Hpoll, Hcanon.
    fold h. rewrite Hcache, Hjob. unfold createJob. rewrite Hjob. reflexivity. }
  rewrite Hfirst. cbn [fst snd YoutubeSearch.jobs YoutubeSearch.videoExamples].
  split; [reflexivity|].
  set (db := {| jobs := YoutubeSearch.jobs st ++ [job0];
                videoExamples := YoutubeSearch.videoExamples st;
                wordIndex := index |}).
  destruct (PipelineFacts.processJob_outcome searchVideos attempt newRowId now
              db h (normalized n) (type n)) as (g & Hg & Hjobs & Hcase).
  set (run := processJobRun searchVideos attempt newRowId now db h (normalized n)
                (type n)) in *.
  assert (Hfind : findJobByHash (jobs run.1) h = Some (g job0)).
  { rewrite Hjobs, PipelineFacts.find_updateWhere by exact Hg.
    destruct (decide (h = h)) as [_|]; [|contradiction].
    change (jobs db) with (YoutubeSearch.jobs st ++ [job0]).
    pose proof (SearchRepeatFacts.findJobByHash_app (YoutubeSearch.jobs st) job0 Hjob)
      as Hnew.
    change (hash job0) with h in Hnew. now rewrite Hnew. }
  destruct (Hg job0) as (Hid & _ & _ & Hnq & _).
  unfold YoutubeSearch.postSearch. rewrite Hquery, Hpoll, Hcanon. fold h.
  cbn [YoutubeSearch.jobs YoutubeSearch.videoExamples].
  destruct Hcase as [(Hret & e & He & Hfail & Hv & _)
                    | [(Hret & r & Hdone & Hurl & Hv & _)
                      | (Hret & i & video & s & Hhang & Hst & Hv & _)]];
    rewrite Hret.
  - destruct (Hfail job0) as [Hs Herr].
    rewrite Hv. change (videoExamples db) with (YoutubeSearch.videoExamples st).
    rewrite Hcache, Hfind. split; [reflexivity|].
    exists (g job0). split; [reflexivity|]. split; [exact Hid|]. right.
    exists e. repeat split; try assumption.
    unfold YoutubeSearch.jobResponse. rewrite Hs, Herr, Hid, Hnq.
    destruct e; [contradiction | reflexivity].
  - destruct (Hdone job0) as [Hs Hres].
    unfold VideoExamples.insertVideoExample in Hv.
    cbn [VideoExamples.hash resultRow] in Hv.
    change (videoExamples db) with (YoutubeSearch.videoExamples st) in Hv.
    unfold VideoExamples.findByHash in Hcache. rewrite Hcache in Hv.
    unfold VideoExamples.findByHash. rewrite Hv, lookup_insert_eq.
    split; [reflexivity|].
    exists (g job0). split; [exact Hfind|]. split; [exact Hid|]. left.
    exists r. repeat split; try assumption.
  - destruct (Hst job0) as [Hs Hcur].
    rewrite Hv. change (videoExamples db) with (YoutubeSearch.videoExamples st).
    rewrite Hcache, Hfind. split; [reflexivity|].
    exists (g job0). split; [reflexivity|]. split; [exact Hid|].
    unfold YoutubeSearch.jobResponse, YoutubeSearch.getInProgressResponse.
    rewrite Hid, Hnq, Hcur.
    destruct Hhang as [[Ha ->]|[Ha ->]]; rewrite Hs;
      exists i, video; eexists; (split; [|reflexivity]); [left | right]; now split.
Qed.

End Service.

Lemma search_after_job_witness :
  let st := {| YoutubeSearch.videoExamples := ∅; YoutubeSearch.jobs := [] |} in
  let req := {| YoutubeSearch.query := Some (str " Cat "); YoutubeSearch.jobId := None |} in
  let video := {| Youtube.videoId := str "v1"; Youtube.title := str "Cats";
                  Youtube.description := [] |} in
  let captions :=
    [ {| SentenceDetector.text := str "The cat is a friend of mine and yours.";
         SentenceDetector.start := 0%Q; SentenceDetector.duration := 3%Q |} ] in
  let first := YoutubeSearch.postSearch (fun x => x) YoutubeSearch.oneUuid st
                 (str "job1") req in
  let db' :=
    processJob (fun _ _ => Ok [video]) (fun _ _ => Transcribed captions)
      (str "row1") 0%Z
      {| jobs := YoutubeSearch.jobs first.2;
         videoExamples := YoutubeSearch.videoExamples first.2;
         wordIndex := ∅ |}
      (str "cat") (str "cat") word in
  let st' := {| YoutubeSearch.videoExamples := videoExamples db';
                YoutubeSearch.jobs := jobs db' |} in
  (YoutubeSearch.postSearch (fun x => x) YoutubeSearch.oneUuid st' (str "job2") req).2
  = st'.
Proof.
  intros st req video captions first db' st'.
  exact (proj1 (proj2 (search_after_job (fun x => x) YoutubeSearch.oneUuid
                         (fun _ _ => Ok [video])
                         (fun _ _ => Transcribed captions) (str "row1") 0%Z
                         st ∅ (str "job1") (str "job2") (str " Cat ")
                         {| normalized := str "cat"; type := word |} req
                         eq_refl eq_refl eq_refl eq_refl eq_refl))).
Defined.

End EndToEndFacts.
